(** * medium-migration: the migrator script (src/migrator/index.js)

    A shallow embedding of the migration pipeline and the properties of
    its specification.

    JavaScript strings are modelled as sequences of 8-bit code units
    ([string] of the standard library at the interface, [list ascii]
    inside the regular-expression matcher).  A value that can be a string
    or [undefined] is a [JsVal]. *)

From Stdlib Require Import Ascii String List Arith Bool Lia Sorted.
From stdpp Require Import base option list gmap strings pretty.
From Equations Require Import Equations.
From Equations.Prop Require Import Logic.

Import ListNotations.
Local Open Scope list_scope.
Local Open Scope nat_scope.

Set Default Proof Using "Type".

(** ** JavaScript values used by the script *)

Inductive JsVal : Type :=
| JsUndefined
| JsString (s : string).

Definition truthy (v : JsVal) : bool :=
  match v with
  | JsUndefined => false
  | JsString EmptyString => false
  | JsString _ => true
  end.

(** [a || b] *)
Definition js_or (a b : JsVal) : JsVal := if truthy a then a else b.

(** ** Regular expressions (the fragment of ECMAScript the script uses) *)

Module RegExp.

Definition chars := list ascii.

Inductive regex : Type :=
| Chr (c : ascii)
| Dot
| Class (neg : bool) (ranges : list (ascii * ascii))
| Seq (r1 r2 : regex)
| Alt (r1 r2 : regex)
| Rep (min : nat) (max : option nat) (r : regex)
| Group (i : nat) (r : regex)
| Eps
| Bol
| Eol.

Definition Star := Rep 0 None.
Definition Plus := Rep 1 None.
Definition Opt := Rep 0 (Some 1).

Fixpoint Lit (s : string) : regex :=
  match s with
  | EmptyString => Eps
  | String c EmptyString => Chr c
  | String c s' => Seq (Chr c) (Lit s')
  end.

Fixpoint Cat (rs : list regex) : regex :=
  match rs with
  | [] => Eps
  | [r] => r
  | r :: rs' => Seq r (Cat rs')
  end.

Definition LF : ascii := "010"%char.
Definition CR : ascii := "013"%char.

(** LineTerminator, within 8-bit code units. *)
Definition is_line_terminator (c : ascii) : bool :=
  Ascii.eqb c LF || Ascii.eqb c CR.

Definition in_range (c : ascii) (r : ascii * ascii) : bool :=
  (nat_of_ascii (fst r) <=? nat_of_ascii c) && (nat_of_ascii c <=? nat_of_ascii (snd r)).

Definition class_matches (neg : bool) (ranges : list (ascii * ascii)) (c : ascii) : bool :=
  xorb neg (existsb (in_range c) ranges).

(** Captures: group number to captured text; an absent group is
    [undefined]. *)
Definition captures := list (nat * chars).

Fixpoint cap_get (c : captures) (i : nat) : option chars :=
  match c with
  | [] => None
  | (j, v) :: c' => if j =? i then Some v else cap_get c' i
  end.

Definition cap_set (c : captures) (i : nat) (v : chars) : captures :=
  (i, v) :: List.filter (fun p => negb (fst p =? i)) c.

Fixpoint groups_of (r : regex) : list nat :=
  match r with
  | Seq r1 r2 | Alt r1 r2 => groups_of r1 ++ groups_of r2
  | Rep _ _ r' => groups_of r'
  | Group i r' => i :: groups_of r'
  | _ => []
  end.

Definition cap_clear (gs : list nat) (c : captures) : captures :=
  List.filter (fun p => negb (existsb (Nat.eqb (fst p)) gs)) c.

Definition result := (chars * captures)%type.
Definition cont := chars -> captures -> option result.

Definition dec_max (mx : option nat) : option nat :=
  match mx with
  | Some n => Some (pred n)
  | None => None
  end.

Definition max_is_zero (mx : option nat) : bool :=
  match mx with
  | Some 0 => true
  | _ => false
  end.

Section Matcher.

(** The whole subject string and the multiline flag; the state of a
    match is the suffix of [input] still to be read. *)
Variable input : chars.
Variable multiline : bool.

Definition at_bol (s : chars) : bool :=
  let pos := length input - length s in
  match pos with
  | 0 => true
  | S p => multiline && match nth_error input p with
                        | Some c => is_line_terminator c
                        | None => false
                        end
  end.

Definition at_eol (s : chars) : bool :=
  match s with
  | [] => true
  | c :: _ => multiline && is_line_terminator c
  end.

(** A quantified atom, after RepeatMatcher of the ECMAScript pattern
    semantics: [body] matches the atom, [gs] are its groups, which are
    reset on each iteration; the quantifier is greedy, and an iteration
    after the minimum is exhausted must consume input.  [fuel] bounds the
    number of iterations: [mn + length s] is enough, since each iteration
    lowers the minimum or consumes input. *)
Fixpoint rep_loop (body : chars -> captures -> cont -> option result) (gs : list nat)
    (k : cont) (fuel mn : nat) (mx : option nat) (s : chars) (cs : captures)
    {struct fuel} : option result :=
  match fuel with
  | 0 => k s cs
  | S fuel' =>
      if max_is_zero mx then k s cs
      else
        let d := fun s' cs' =>
          if (mn =? 0) && (length s' =? length s) then None
          else rep_loop body gs k fuel' (pred mn) (dec_max mx) s' cs' in
        match body s (cap_clear gs cs) d with
        | Some z => Some z
        | None => if mn =? 0 then k s cs else None
        end
  end.

(** Backtracking matcher in continuation-passing style, after the
    ECMAScript pattern semantics. *)
Fixpoint run (r : regex) {struct r} : chars -> captures -> cont -> option result :=
  match r with
  | Chr c => fun s cs k =>
      match s with
      | x :: s' => if Ascii.eqb x c then k s' cs else None
      | [] => None
      end
  | Dot => fun s cs k =>
      match s with
      | x :: s' => if is_line_terminator x then None else k s' cs
      | [] => None
      end
  | Class neg ranges => fun s cs k =>
      match s with
      | x :: s' => if class_matches neg ranges x then k s' cs else None
      | [] => None
      end
  | Seq r1 r2 => fun s cs k => run r1 s cs (fun s' cs' => run r2 s' cs' k)
  | Alt r1 r2 => fun s cs k =>
      match run r1 s cs k with
      | Some z => Some z
      | None => run r2 s cs k
      end
  | Rep mn mx r' => fun s cs k =>
      rep_loop (run r') (groups_of r') k (mn + length s) mn mx s cs
  | Group i r' => fun s cs k =>
      run r' s cs (fun s' cs' => k s' (cap_set cs' i (firstn (length s - length s') s)))
  | Eps => fun s cs k => k s cs
  | Bol => fun s cs k => if at_bol s then k s cs else None
  | Eol => fun s cs k => if at_eol s then k s cs else None
  end.

Definition match_here (r : regex) (s : chars) : option result :=
  run r s [] (fun s' cs' => Some (s', cs')).

End Matcher.

(** The array returned by [exec]: [m.index], [m[0]] and the groups. *)
Record MatchResult : Type := mkMatch {
  index : nat;
  whole : chars;
  groups : captures;
  endIndex : nat
}.

(** Leftmost match starting at or after the position of [s]. *)
Fixpoint search (input : chars) (multiline : bool) (r : regex) (s : chars) : option MatchResult :=
  match match_here input multiline r s with
  | Some (s', cs) =>
      let i := length input - length s in
      Some (mkMatch i (firstn (length s - length s') s) cs (length input - length s'))
  | None =>
      match s with
      | [] => None
      | _ :: s' => search input multiline r s'
      end
  end.

(** A RegExp object: its pattern and its [m] flag.  The mutable
    [lastIndex] of an expression with the [g] flag is passed explicitly. *)
Record RegExpObj : Type := mkRegExp {
  pattern : regex;
  flag_m : bool
}.

(** [regexp.exec(string)] for an expression with the [g] flag and
    [regexp.lastIndex = lastIndex]: the match (or [null]) and the new
    value of [lastIndex]. *)
Definition exec (re : RegExpObj) (str : chars) (lastIndex : nat) : option MatchResult * nat :=
  if length str <? lastIndex then (None, 0)
  else
    match search str (flag_m re) (pattern re) (skipn lastIndex str) with
    | Some mr => (Some mr, endIndex mr)
    | None => (None, 0)
    end.

(** [regexp.exec(string)] for an expression without the [g] flag:
    [lastIndex] is neither read nor written. *)
Definition exec_first (re : RegExpObj) (str : chars) : option MatchResult :=
  search str (flag_m re) (pattern re) str.

(** [m[i]] for [i >= 1]. *)
Definition group (mr : MatchResult) (i : nat) : JsVal :=
  match cap_get (groups mr) i with
  | Some v => JsString (string_of_list_ascii v)
  | None => JsUndefined
  end.

End RegExp.

(** ** Properties of the matcher *)

Module RegExpFacts.
Import RegExp.

(** A successful match hands a suffix of its input to its continuation. *)
Lemma run_suffix input ml r :
  forall s cs k z,
    run input ml r s cs k = Some z ->
    exists s' cs' p, s = p ++ s' /\ k s' cs' = Some z.
Proof.
  induction r as [c| |neg rs|r1 IH1 r2 IH2|r1 IH1 r2 IH2|mn mx r IH|i r IH| | |];
    intros s cs k z H; simpl in H.
  - destruct s as [|x s']; [discriminate|].
    destruct (Ascii.eqb x c); [|discriminate].
    exists s', cs, [x]; auto.
  - destruct s as [|x s']; [discriminate|].
    destruct (is_line_terminator x); [discriminate|].
    exists s', cs, [x]; auto.
  - destruct s as [|x s']; [discriminate|].
    destruct (class_matches neg rs x); [|discriminate].
    exists s', cs, [x]; auto.
  - apply IH1 in H as (s1 & cs1 & p1 & -> & H).
    apply IH2 in H as (s2 & cs2 & p2 & -> & H).
    exists s2, cs2, (p1 ++ p2). rewrite <- app_assoc. auto.
  - destruct (run input ml r1 s cs k) eqn:E.
    + injection H as ->. eauto.
    + eauto.
  - remember (mn + length s) as fuel eqn:Hf. clear Hf.
    revert mn mx s cs H.
    induction fuel as [|fuel IHf]; intros mn mx s cs H; cbn [rep_loop] in H.
    + exists s, cs, []. auto.
    + destruct (max_is_zero mx).
      { exists s, cs, []. auto. }
      match type of H with
      | match ?e with _ => _ end = _ => destruct e eqn:E
      end.
      * injection H as ->.
        apply IH in E as (s1 & cs1 & p1 & -> & E).
        destruct ((mn =? 0) && (length s1 =? length (p1 ++ s1))); [discriminate|].
        apply IHf in E as (s2 & cs2 & p2 & -> & E).
        exists s2, cs2, (p1 ++ p2). rewrite <- app_assoc. auto.
      * destruct (mn =? 0); [|discriminate].
        exists s, cs, []. auto.
  - apply IH in H as (s1 & cs1 & p1 & -> & H). eauto.
  - exists s, cs, []. auto.
  - destruct (at_bol _ _ _); [|discriminate]. exists s, cs, []. auto.
  - destruct (at_eol _ _); [|discriminate]. exists s, cs, []. auto.
Qed.

Lemma match_here_suffix input ml r s s' cs :
  match_here input ml r s = Some (s', cs) -> exists p, s = p ++ s'.
Proof.
  unfold match_here. intros H.
  apply run_suffix in H as (s1 & cs1 & p & -> & H).
  injection H as -> ->. eauto.
Qed.

Lemma search_eq input ml r s :
  search input ml r s =
  match match_here input ml r s with
  | Some (s', cs) =>
      Some (mkMatch (length input - length s) (firstn (length s - length s') s) cs
              (length input - length s'))
  | None => match s with
            | [] => None
            | _ :: s' => search input ml r s'
            end
  end.
Proof. destruct s; reflexivity. Qed.

(** What [search] returns: the first position, from the one it starts
    at, where the pattern matches. *)
Lemma search_inv input ml r s mr :
  search input ml r s = Some mr ->
  exists p t w s' cs,
    s = p ++ t /\ t = w ++ s'
    /\ match_here input ml r t = Some (s', cs)
    /\ mr = mkMatch (length input - length t) w cs (length input - length s').
Proof.
  assert (Hhere : forall t s' cs,
             match_here input ml r t = Some (s', cs) ->
             exists w, t = w ++ s'
               /\ mkMatch (length input - length t) (firstn (length t - length s') t) cs
                    (length input - length s')
                  = mkMatch (length input - length t) w cs (length input - length s')).
  { intros t s' cs E.
    pose proof (match_here_suffix _ _ _ _ _ _ E) as [w ->].
    exists w. split; [reflexivity|].
    rewrite length_app, Nat.add_sub, firstn_app, Nat.sub_diag, firstn_all.
    simpl. rewrite app_nil_r. reflexivity. }
  induction s as [|x s IH]; intros H; rewrite search_eq in H.
  - destruct (match_here input ml r []) as [[s' cs]|] eqn:E; [|discriminate].
    destruct (Hhere _ _ _ E) as (w & Hw & Heq). rewrite Heq in H.
    exists [], [], w, s', cs. repeat split; auto. congruence.
  - remember (x :: s) as t eqn:Ht.
    destruct (match_here input ml r t) as [[s' cs]|] eqn:E.
    + destruct (Hhere _ _ _ E) as (w & Hw & Heq). rewrite Heq in H.
      exists [], t, w, s', cs. repeat split; auto. congruence.
    + subst t. apply IH in H as (p & t & w & s' & cs & -> & Ht & Hm & ->).
      exists (x :: p), t, w, s', cs. repeat split; auto.
Qed.

(** [search] returns the leftmost match: the pattern does not match at
    any position before it. *)
Lemma search_leftmost input ml r s mr :
  search input ml r s = Some mr ->
  exists p w s',
    s = p ++ w ++ s'
    /\ match_here input ml r (w ++ s') = Some (s', groups mr)
    /\ index mr = length input - length (w ++ s')
    /\ whole mr = w
    /\ endIndex mr = length input - length s'
    /\ forall p1 p2, p = p1 ++ p2 -> p2 <> [] ->
                     match_here input ml r (p2 ++ w ++ s') = None.
Proof.
  induction s as [|x s IH]; intros H; rewrite search_eq in H.
  - destruct (match_here input ml r []) as [[s' cs]|] eqn:E; [|discriminate].
    pose proof (match_here_suffix _ _ _ _ _ _ E) as [w Hw].
    destruct w; [|discriminate]. simpl in Hw. subst s'.
    injection H as <-. exists [], [], []. cbn.
    repeat split; auto. intros p1 p2 Hp Hne. destruct p1; destruct p2; try discriminate.
    contradiction.
  - remember (x :: s) as t eqn:Ht.
    destruct (match_here input ml r t) as [[s' cs]|] eqn:E.
    + pose proof (match_here_suffix _ _ _ _ _ _ E) as [w Hw].
      injection H as <-. exists [], w, s'. cbn [index whole groups endIndex app].
      rewrite <- Hw. repeat split; auto.
      * rewrite Hw at 2. rewrite Hw, length_app, Nat.add_sub, firstn_app, Nat.sub_diag,
          firstn_all. simpl. apply app_nil_r.
      * intros p1 p2 Hp Hne. destruct p1; destruct p2; try discriminate. contradiction.
    + subst t. apply IH in H as (p & w & s' & -> & Hm & Hi & Hw & He & Hleft).
      exists (x :: p), w, s'. repeat split; auto.
      intros p1 p2 Hp Hne. destruct p1 as [|y p1]; cbn in Hp.
      * subst p2. exact E.
      * injection Hp as -> ->. apply (Hleft p1 p2); auto.
Qed.

(** When [search] fails, the pattern matches nowhere in the text it
    scanned. *)
Lemma search_None input ml r s :
  search input ml r s = None ->
  forall p t, s = p ++ t -> match_here input ml r t = None.
Proof.
  induction s as [|x s IH]; intros H p t Hs; rewrite search_eq in H.
  - destruct p; [|discriminate]. cbn in Hs. subst t.
    destruct (match_here input ml r []) as [[s' cs]|]; [discriminate|reflexivity].
  - destruct (match_here input ml r (x :: s)) as [[s' cs]|] eqn:E; [discriminate|].
    destruct p as [|y p]; cbn in Hs.
    + subst t. exact E.
    + injection Hs as _ ->. eapply IH; eauto.
Qed.

(** What [search] finds lies inside the part it was asked to scan. *)
Lemma search_bounds input ml r s mr :
  length s <= length input ->
  search input ml r s = Some mr ->
  length input - length s <= index mr /\ index mr <= endIndex mr
  /\ endIndex mr <= length input.
Proof.
  intros Hl H. apply search_inv in H as (p & t & w & s' & cs & -> & -> & _ & ->).
  simpl. rewrite !length_app in *. lia.
Qed.

(** The match of [exec] starts at or after [lastIndex] and the new
    [lastIndex] is its end. *)
Lemma exec_bounds re str li mr li' :
  exec re str li = (Some mr, li') ->
  li <= index mr /\ index mr <= li' /\ li' = endIndex mr /\ li' <= length str.
Proof.
  unfold exec. intros H.
  destruct (length str <? li) eqn:El; [discriminate|].
  apply Nat.ltb_ge in El.
  destruct (search str (flag_m re) (pattern re) (skipn li str)) eqn:Es; [|discriminate].
  injection H as <- <-.
  apply search_bounds in Es; rewrite length_skipn in *; lia.
Qed.

(** The text of the match is as long as the distance between its
    ends. *)
Lemma search_whole input ml r s mr :
  length s <= length input ->
  search input ml r s = Some mr ->
  length (whole mr) = endIndex mr - index mr.
Proof.
  intros Hl H. apply search_inv in H as (p & t & w & s' & cs & -> & -> & _ & ->).
  simpl. rewrite !length_app in *. lia.
Qed.

Lemma exec_whole re str li mr li' :
  exec re str li = (Some mr, li') ->
  length (whole mr) = li' - index mr.
Proof.
  unfold exec. intros H.
  destruct (length str <? li) eqn:El; [discriminate|].
  destruct (search str (flag_m re) (pattern re) (skipn li str)) eqn:Es; [|discriminate].
  injection H as <- <-.
  apply search_whole in Es; [exact Es|]. rewrite length_skipn. lia.
Qed.

Lemma exec_null re str li li' :
  exec re str li = (None, li') -> li' = 0.
Proof.
  unfold exec. intros H.
  destruct (length str <? li); [congruence|].
  destruct (search _ _ _ _); congruence.
Qed.

End RegExpFacts.

Import RegExp.

(** ** Image reference extraction (index.js, lines 10-11 and 100-122) *)

Definition DQ : ascii := "034"%char.
Definition SQ : ascii := "039"%char.

Definition NotChr (c : ascii) : regex := Class true [(c, c)].

(** [mdImgRegex] (line 10, flags gm): an exclamation mark, a bracketed
    run of characters other than the closing bracket, and a parenthesised
    run of characters other than the closing parenthesis, which is
    group 1. *)
Definition mdImgRegex : RegExpObj :=
  mkRegExp
    (Cat [Lit "!["; Star (NotChr "]"%char); Lit "]("; Group 1 (Star (NotChr ")"%char));
          Chr ")"%char])
    true.

(** [htmlImgRegex] (line 11, flags gm): the text <img, any run of
    characters of the line (greedy), the text src= and a value in double
    quotes (group 1) or in single quotes (group 2). *)
Definition htmlImgRegex : RegExpObj :=
  mkRegExp
    (Cat [Lit "<img"; Star Dot; Lit "src=";
          Alt (Cat [Chr DQ; Group 1 (Star (NotChr DQ)); Chr DQ])
              (Cat [Chr SQ; Group 2 (Star (NotChr SQ)); Chr SQ])])
    true.

(** The loop of [getMatches]: [regexp.lastIndex] is [lastIndex] on
    entry; the result is the array of matches and the value of
    [regexp.lastIndex] when the loop ends. *)
Equations? getMatches_loop (str : chars) (regexp : RegExpObj) (lastIndex : nat)
    (matches : list JsVal) : list JsVal * nat
    by wf (S (length str) - lastIndex) lt :=
  getMatches_loop str regexp lastIndex matches
    with inspect (exec regexp str lastIndex) := {
    | exist _ (None, lastIndex') _ => (matches, lastIndex')
    | exist _ (Some m, lastIndex') _ =>
        getMatches_loop str regexp
          (if index m =? lastIndex' then S lastIndex' else lastIndex')
          (matches ++ [js_or (group m 1) (group m 2)])
    }.
Proof.
  apply RegExpFacts.exec_bounds in e.
  destruct (Nat.eqb_spec (index m) lastIndex'); lia.
Qed.

Definition getMatches (str : string) (regexp : RegExpObj) (lastIndex : nat) : list JsVal * nat :=
  getMatches_loop (list_ascii_of_string str) regexp lastIndex [].

(** Both expressions are module-level objects; their [lastIndex] is 0
    when the module is loaded and [getMatches] leaves it at 0 (lemma
    [getMatches_lastIndex]), so every call starts at 0. *)
Definition extractImageUrls (content : string) : list JsVal :=
  fst (getMatches content mdImgRegex 0) ++ fst (getMatches content htmlImgRegex 0).

(** ** String and array primitives of the JavaScript library *)

Definition str_chars := list_ascii_of_string.
Definition chars_str := string_of_list_ascii.

(** Conversion of a value inside a template literal. *)
Definition to_string (v : JsVal) : string :=
  match v with
  | JsUndefined => "undefined"
  | JsString s => s
  end.

(** [string.split(sep)] for a one-character separator. *)
Fixpoint split (sep : ascii) (s : string) : list string :=
  match s with
  | EmptyString => [EmptyString]
  | String c s' =>
      if Ascii.eqb c sep then EmptyString :: split sep s'
      else match split sep s' with
           | x :: xs => String c x :: xs
           | [] => [String c EmptyString]
           end
  end.

(** [array.indexOf(x)] on an array of strings; [None] stands for -1. *)
Fixpoint indexOf (l : list string) (x : string) : option nat :=
  match l with
  | [] => None
  | y :: l' => if String.eqb y x then Some 0
               else match indexOf l' x with
                    | Some i => Some (S i)
                    | None => None
                    end
  end.

(** [array.slice(0, n)] *)
Definition slice0 {A} (n : nat) (l : list A) : list A := firstn n l.

(** If [p] is a prefix of [s], what follows it. *)
Fixpoint strip_prefix (p s : chars) : option chars :=
  match p, s with
  | [], _ => Some s
  | a :: p', b :: s' => if Ascii.eqb a b then strip_prefix p' s' else None
  | _ :: _, [] => None
  end.

(** First occurrence of [p] in [s]: the text before it and the text
    after it. *)
Fixpoint find_first (p s : chars) : option (chars * chars) :=
  match strip_prefix p s with
  | Some rest => Some ([], rest)
  | None =>
      match s with
      | [] => None
      | c :: s' =>
          match find_first p s' with
          | Some (before, rest) => Some (c :: before, rest)
          | None => None
          end
      end
  end.

(** GetSubstitution for a match without groups (every pattern replaced
    in the script is either a string or an expression without groups):
    the dollar patterns of the replacement text are expanded, a dollar
    followed by anything else stands for itself. *)
Fixpoint GetSubstitution (matched before after : chars) (replacement : chars) : chars :=
  match replacement with
  | [] => []
  | c :: r =>
      if Ascii.eqb c "$" then
        match r with
        | d :: r' =>
            if Ascii.eqb d "$" then "$"%char :: GetSubstitution matched before after r'
            else if Ascii.eqb d "&" then matched ++ GetSubstitution matched before after r'
            else if Ascii.eqb d "`" then before ++ GetSubstitution matched before after r'
            else if Ascii.eqb d "'" then after ++ GetSubstitution matched before after r'
            else c :: GetSubstitution matched before after r
        | [] => [c]
        end
      else c :: GetSubstitution matched before after r
  end.

(** [string.replace(searchString, replaceValue)] with a string pattern:
    only the first occurrence is replaced. *)
Definition replace_string (s pat repl : string) : string :=
  match find_first (str_chars pat) (str_chars s) with
  | None => s
  | Some (before, after) =>
      chars_str (before ++ GetSubstitution (str_chars pat) before after (str_chars repl) ++ after)
  end.

(** The matches collected by [string.replace(regexp, replaceValue)] for
    an expression with the [g] flag: [lastIndex] is advanced by hand
    after an empty match. *)
Equations? replace_matches (str : chars) (regexp : RegExpObj) (lastIndex : nat)
    : list MatchResult by wf (S (length str) - lastIndex) lt :=
  replace_matches str regexp lastIndex
    with inspect (exec regexp str lastIndex) := {
    | exist _ (None, _) _ => []
    | exist _ (Some r, lastIndex') _ =>
        r :: replace_matches str regexp
               (match whole r with [] => S lastIndex' | _ => lastIndex' end)
    }.
Proof.
  pose proof (RegExpFacts.exec_whole _ _ _ _ _ e) as Hw.
  apply RegExpFacts.exec_bounds in e.
  destruct (whole r); simpl in Hw; lia.
Qed.

(** The text built from the matches. *)
Fixpoint replace_build (str : chars) (repl : chars) (results : list MatchResult)
    (nextSourcePosition : nat) (accumulated : chars) : chars :=
  match results with
  | [] => accumulated ++ skipn nextSourcePosition str
  | r :: rs =>
      let position := Nat.min (index r) (length str) in
      if nextSourcePosition <=? position then
        replace_build str repl rs (position + length (whole r))
          (accumulated
             ++ firstn (position - nextSourcePosition) (skipn nextSourcePosition str)
             ++ GetSubstitution (whole r) (firstn position str)
                  (skipn (position + length (whole r)) str) repl)
      else replace_build str repl rs nextSourcePosition accumulated
  end.

(** [string.replace(regexp, replaceValue)], expression with the [g]
    flag (a literal, so [lastIndex] starts at 0). *)
Definition replace_all (s : string) (regexp : RegExpObj) (repl : string) : string :=
  let str := str_chars s in
  chars_str (replace_build str (str_chars repl) (replace_matches str regexp 0) 0 []).

(** [string.replace(regexp, replaceValue)], expression without the [g]
    flag. *)
Definition replace_first (s : string) (regexp : RegExpObj) (repl : string) : string :=
  let str := str_chars s in
  match exec_first regexp str with
  | None => s
  | Some r => chars_str (replace_build str (str_chars repl) [r] 0 [])
  end.

(** [string.toLowerCase()], on 8-bit code units: the letters A-Z and
    the capital letters of Latin-1 (192-222 but 215). *)
Definition lower_char (c : ascii) : ascii :=
  let n := nat_of_ascii c in
  if ((65 <=? n) && (n <=? 90)) || ((192 <=? n) && (n <=? 222) && negb (n =? 215))
  then ascii_of_nat (n + 32) else c.

Definition toLowerCase (s : string) : string :=
  chars_str (map lower_char (str_chars s)).

(** [path.basename(p)] (POSIX): the last portion of the path, trailing
    separators ignored. *)
Fixpoint drop_trailing_slashes (rev_p : chars) : chars :=
  match rev_p with
  | c :: r => if Ascii.eqb c "/" then drop_trailing_slashes r else rev_p
  | [] => []
  end.

Fixpoint take_until_slash (rev_p : chars) : chars :=
  match rev_p with
  | c :: r => if Ascii.eqb c "/" then [] else c :: take_until_slash r
  | [] => []
  end.

Definition basename (p : string) : string :=
  chars_str (rev (take_until_slash (drop_trailing_slashes (rev (str_chars p))))).

(** ** The constants of the script (lines 12-15) *)

Definition digit : regex := Class false [("0", "9")%char].
Definition space : regex := Chr " ".

(** [fileDateNameRegex] (line 12, no flag): group 1 is a date, 20YY-M-D
    with one or two digits for month and day, group 2 the title, then a
    dot and an extension of lower-case letters at the end of the text. *)
Definition fileDateNameRegex : RegExpObj :=
  mkRegExp
    (Cat [Group 1 (Cat [Lit "20"; Rep 2 (Some 2) digit; Chr "-";
                        Rep 1 (Some 2) digit; Chr "-"; Rep 1 (Some 2) digit]);
          Chr "-"; Group 2 (Star Dot); Chr ".";
          Plus (Class false [("a", "z")%char]); Eol])
    false.

Definition s3BaseUrl : string := "https://s3.amazonaws.com".
Definition mediumApiUrl : string := "https://api.medium.com/v1".
Definition devseedUrl : string := "https://developmentseed.org".

(** ** Content transformer stages (lines 234-307) *)

(** Front-matter, as [yamlFront.safeLoadFront] returns it.  The
    recognised keys hold a string or are absent; [published] holds a
    boolean or is absent; [date] holds a Date object, a string or is
    absent. *)
Inductive JsDate : Type :=
| InvalidDate
| ValidDate (fullYear month date : nat) (iso : string).

Inductive FrontDate : Type :=
| DateAbsent
| DateObject (d : JsDate)
| DateText (s : string).

Record Card : Type := mkCard { url : JsVal }.
Record Media : Type := mkMedia { card : option Card }.

Record Post : Type := mkPost {
  title : JsVal;
  date : FrontDate;
  permalink : JsVal;
  author : JsVal;
  published : option bool;
  media : option Media;
  __content : string
}.

(** [post.media && post.media.card && post.media.card.url] *)
Definition card_url (post : Post) : JsVal :=
  match media post with
  | None => JsUndefined
  | Some md =>
      match card md with
      | None => JsUndefined
      | Some c => url c
      end
  end.

Definition NL : string := String LF EmptyString.

Definition handlePostAuthors (post : Post) (content : string) : string :=
  if truthy (author post)
  then "By: " +:+ to_string (author post) +:+ NL +:+ NL +:+ content
  else content.

Definition moveCardImageToContent (post : Post) (content : string) : string :=
  if truthy (card_url post)
  then "![](" +:+ to_string (card_url post) +:+ ")" +:+ NL +:+ NL +:+ content
  else content.

(** Line 268: the text {: then a space, any character, one or more of
    a-z 0-9 - _, an optional space and a closing brace. *)
Definition liquidClassRegex : RegExpObj :=
  mkRegExp
    (Cat [Lit "{: "; Dot;
          Plus (Class false [("a", "z"); ("0", "9"); ("-", "-"); ("_", "_")]%char);
          Opt space; Chr "}"])
    true.

Definition handleLiquidClasses (content : string) : string :=
  replace_all content liquidClassRegex "".

(** Lines 281-282. *)
Definition highlightRegex : RegExpObj :=
  mkRegExp
    (Cat [Lit "{%"; Opt space; Lit "highlight"; Opt space; Star Dot; Opt space; Lit "%}"])
    true.

Definition endhighlightRegex : RegExpObj :=
  mkRegExp (Cat [Lit "{%"; Opt space; Lit "endhighlight"; Opt space; Lit "%}"]) true.

Definition handleCodeBlocks (content : string) : string :=
  replace_all (replace_all content highlightRegex "```") endhighlightRegex "```".

(** Line 294: three or more line feeds. *)
Definition lineBreaksRegex : RegExpObj :=
  mkRegExp (Rep 3 None (Class false [(LF, LF)])) true.

Definition handleLineBreaks (content : string) : string :=
  replace_all content lineBreaksRegex (NL +:+ NL).

(** Line 306: the dot of site.baseurl is not escaped. *)
Definition siteUrlRegex : RegExpObj :=
  mkRegExp (Cat [Lit "{{"; Opt space; Lit "site"; Dot; Lit "baseurl"; Opt space; Lit "}}"])
    true.

Definition handleSiteUrl (content : string) : string :=
  replace_all content siteUrlRegex "".

(** The stages of [main] before the image pass (lines 453-465). *)
Definition transform (post : Post) : string :=
  let content := __content post in
  let content := moveCardImageToContent post content in
  let content := handleSiteUrl content in
  let content := handlePostAuthors post content in
  let content := handleLiquidClasses content in
  let content := handleCodeBlocks content in
  let content := handleLineBreaks content in
  content.

(** ** Image classification (lines 132-137) *)

Inductive JsError : Type :=
| TypeError
| RangeError
| FsError (path : string)
| YamlError
| S3Error
| FetchError.

(** [url.parse] throws a TypeError on a value that is not a string; on a
    string, [hostname] is what the library reports as the host name
    ([JsUndefined] stands for its null). *)
Definition filter_step (hostname : string -> JsVal) (i : JsVal) : JsError + bool :=
  match i with
  | JsUndefined => inl TypeError
  | JsString s =>
      let u_hostname := hostname s in
      inr (negb (truthy u_hostname)
           || match u_hostname with
              | JsString h => String.eqb h "developmentseed.org"
              | JsUndefined => false
              end)
  end.

Fixpoint filterUploadableImages (hostname : string -> JsVal) (images : list JsVal)
    : JsError + list JsVal :=
  match images with
  | [] => inr []
  | i :: rest =>
      match filter_step hostname i with
      | inl e => inl e
      | inr keep =>
          match filterUploadableImages hostname rest with
          | inl e => inl e
          | inr kept => inr (if keep then i :: kept else kept)
          end
      end
  end.

(** ** The process, its surroundings and its effects *)

Record S3Params : Type := mkS3Params { Body : string; Bucket : string; Key : string }.

Record MediumPost : Type := mkMediumPost {
  mp_title : JsVal;
  contentFormat : string;
  publishedAt : string;
  mp_content : string
}.

(** The JSON body of a response of the platform: [errors] is the array
    of messages when there is one, [data] the payload when there is
    one. *)
Record Response (A : Type) : Type := mkResponse {
  errors : option (list string);
  data : option A
}.
Arguments mkResponse {A}.
Arguments errors {A}.
Arguments data {A}.

(** [None]: the request or the decoding of its body failed. *)
Definition Fetched (A : Type) : Type := option (Response A).

Record UserData : Type := mkUser { user_id : string }.
Record Publication : Type := mkPublication { pub_name : string; pub_id : string }.
Record PostData : Type := mkPostData { post_url : JsVal }.

(** What the run does to the outside world, in order.  [EvHandling] is
    the line the loop prints when it starts on a file (line 445); the
    rest of the console output is not recorded. *)
Inductive Event : Type :=
| EvHandling (file : string)
| EvS3Put (params : S3Params)
| EvMediumGet (endpoint : string)
| EvMediumPost (endpoint : string) (post : MediumPost).

Definition is_network_write (e : Event) : bool :=
  match e with
  | EvS3Put _ | EvMediumPost _ _ => true
  | _ => false
  end.

(** Everything the script reads but does not own: command line,
    environment variables, the libraries it calls and the answers of the
    remote services (which may depend on what happened before). *)
Record Env : Type := mkEnv {
  argv : list string;
  MEDIUM_TOKEN : JsVal;
  AWS_ACCESS_KEY_ID : JsVal;
  AWS_SECRET_ACCESS_KEY : JsVal;
  AWS_S3_BUCKET : JsVal;
  MEDIUM_PUB_ID : JsVal;
  url_parse_hostname : string -> JsVal;
  url_resolve : string -> string -> string;
  glob_sync : string -> list string;
  safeLoadFront : string -> option Post;
  Date_new : string -> JsDate;
  JSON_stringify : string -> string;
  posts_images : string -> string;
  s3_putObject : list Event -> S3Params -> bool;
  medium_me : list Event -> Fetched UserData;
  medium_publications : list Event -> string -> Fetched (list Publication);
  medium_posts : list Event -> MediumPost -> Fetched PostData
}.

(** [process.argv[i]] for [i >= 2]. *)
Definition process_argv (E : Env) (i : nat) : JsVal :=
  match nth_error (argv E) (i - 2) with
  | Some s => JsString s
  | None => JsUndefined
  end.

Definition is_dryrun (E : Env) : bool :=
  match process_argv E 2 with
  | JsString s => String.eqb s "--dryrun"
  | JsUndefined => false
  end.

Record World : Type := mkWorld {
  fs : gmap string string;
  trace : list Event
}.

Inductive Outcome (A : Type) : Type :=
| Ok (a : A) (w : World)
| Exited (code : nat) (w : World)
| Thrown (e : JsError) (w : World).
Arguments Ok {A}.
Arguments Exited {A}.
Arguments Thrown {A}.

Definition M (A : Type) : Type := World -> Outcome A.

#[global] Instance M_ret : MRet M := fun A a w => Ok a w.

#[global] Instance M_bind : MBind M := fun A B k c w =>
  match c w with
  | Ok a w' => k a w'
  | Exited code w' => Exited code w'
  | Thrown e w' => Thrown e w'
  end.

Definition throw {A} (e : JsError) : M A := fun w => Thrown e w.
Definition process_exit {A} (code : nat) : M A := fun w => Exited code w.
Definition emit (e : Event) : M unit :=
  fun w => Ok tt (mkWorld (fs w) (trace w ++ [e])).
Definition get_trace : M (list Event) := fun w => Ok (trace w) w.

Definition final_world {A} (o : Outcome A) : World :=
  match o with
  | Ok _ w | Exited _ w | Thrown _ w => w
  end.

(** [fs.readFileSync(path, 'utf8')] inside [try/catch]. *)
Definition try_readFileSync (path : string) : M (option string) :=
  fun w => Ok (fs w !! path) w.

Definition readFileSync (path : string) : M string :=
  fun w =>
    match fs w !! path with
    | Some c => Ok c w
    | None => Thrown (FsError path) w
    end.

Definition writeFileSync (path content : string) : M unit :=
  fun w => Ok tt (mkWorld (<[path := content]> (fs w)) (trace w)).

(** The file system after an append: the file is created when it does
    not exist. *)
Definition fs_append (path content : string) (files : gmap string string)
    : gmap string string :=
  <[path := default EmptyString (files !! path) +:+ content]> files.

Definition appendFileSync (path content : string) : M unit :=
  fun w => Ok tt (mkWorld (fs_append path content (fs w)) (trace w)).

Definition unlinkSync (path : string) : M unit :=
  fun w =>
    match fs w !! path with
    | Some _ => Ok tt (mkWorld (delete path (fs w)) (trace w))
    | None => Thrown (FsError path) w
    end.

(** ** Dates and original URLs (lines 146-198) *)

Definition pad2 (n : nat) : string :=
  if n <? 10 then "0" +:+ pretty n else pretty n.

(** The three parts, as [join] prints them. *)
Definition getDateParts (d : JsDate) : list string :=
  match d with
  | InvalidDate => ["NaN"; "NaN"; "NaN"]
  | ValidDate y mo da _ => [pretty y; pad2 (mo + 1); pad2 da]
  end.

Definition is_valid (d : JsDate) : bool :=
  match d with
  | InvalidDate => false
  | ValidDate _ _ _ _ => true
  end.

(** [file.match(fileDateNameRegex)[i]] *)
Definition file_match (file : string) (i : nat) : JsError + string :=
  match exec_first fileDateNameRegex (str_chars file) with
  | None => inl TypeError
  | Some pieces => inr (to_string (group pieces i))
  end.

Definition date_from_file (E : Env) (file : string) : JsError + JsDate :=
  match file_match file 1 with
  | inl e => inl e
  | inr piece => inr (Date_new E piece)
  end.

Definition getPostDate (E : Env) (file : string) (post : Post) : JsError + JsDate :=
  match date post with
  | DateObject d => if is_valid d then inr d else date_from_file E file
  | DateText s =>
      if truthy (JsString s) && is_valid (Date_new E s) then inr (Date_new E s)
      else date_from_file E file
  | DateAbsent => date_from_file E file
  end.

Fixpoint join (sep : string) (l : list string) : string :=
  match l with
  | [] => EmptyString
  | [x] => x
  | x :: l' => x +:+ sep +:+ join sep l'
  end.

Definition getOriginalURL (E : Env) (file : string) (post : Post) : JsError + string :=
  if truthy (permalink post) then inr (url_resolve E devseedUrl (to_string (permalink post)))
  else
    match file_match file 2 with
    | inl e => inl e
    | inr postTitle =>
        match getPostDate E file post with
        | inl e => inl e
        | inr d =>
            inr (devseedUrl +:+ "/blog/" +:+ join "/" (getDateParts d) +:+ "/" +:+ postTitle)
        end
    end.

Definition toISOString (d : JsDate) : JsError + string :=
  match d with
  | InvalidDate => inl RangeError
  | ValidDate _ _ _ iso => inr iso
  end.

Definition lift {A} (r : JsError + A) : M A :=
  fun w =>
    match r with
    | inl e => Thrown e w
    | inr a => Ok a w
    end.

(** ** Uploads (lines 49-56 and 317-376) *)

Definition putS3Object (E : Env) (params : S3Params) : M unit :=
  tr ← get_trace;
  emit (EvS3Put params);;
  if s3_putObject E tr params then mret tt else throw S3Error.

(** Line 318: at the start of the text, http or https, ://developmentseed,
    any character, org. *)
Definition ownDomainRegex : RegExpObj :=
  mkRegExp (Cat [Bol; Lit "http"; Opt (Chr "s"); Lit "://developmentseed"; Dot; Lit "org"])
    false.

Definition uploadImage (E : Env) (img : string) : M string :=
  let img := replace_first img ownDomainRegex "" in
  let imgKey := "images/" +:+ basename img in
  if is_dryrun E then mret ("http://localhost/test/" +:+ imgKey)
  else
    body ← readFileSync (posts_images E img);
    putS3Object E (mkS3Params body (to_string (AWS_S3_BUCKET E)) imgKey);;
    mret (s3BaseUrl +:+ "/" +:+ to_string (AWS_S3_BUCKET E) +:+ "/" +:+ imgKey).

(** [response.errors] is truthy as soon as it is an array, also an
    empty one. *)
Definition handleMediumErrors {A} (response : Response A) : M unit :=
  match errors response with
  | Some _ => process_exit 1
  | None => mret tt
  end.

Definition fetched {A} (r : Fetched A) : M (Response A) :=
  match r with
  | Some content => mret content
  | None => throw FetchError
  end.

Definition uploadPost (E : Env) (post : MediumPost) : M (option PostData) :=
  if is_dryrun E then
    match mp_title post with
    | JsUndefined => throw TypeError
    | JsString t =>
        mret (Some (mkPostData
                      (JsString ("http://localhost/post/"
                                 +:+ replace_string (toLowerCase t) " " "-"))))
    end
  else
    tr ← get_trace;
    emit (EvMediumPost (mediumApiUrl +:+ "/publications/" +:+ to_string (MEDIUM_PUB_ID E)
                        +:+ "/posts") post);;
    content ← fetched (medium_posts E tr post);
    handleMediumErrors content;;
    mret (data content).

Definition getMediumUserId (E : Env) : M string :=
  tr ← get_trace;
  emit (EvMediumGet (mediumApiUrl +:+ "/me/"));;
  content ← fetched (medium_me E tr);
  handleMediumErrors content;;
  match data content with
  | Some d => mret (user_id d)
  | None => throw TypeError
  end.

Definition getMediumPublicationId (E : Env) (userId pub : string) : M string :=
  tr ← get_trace;
  emit (EvMediumGet (mediumApiUrl +:+ "/users/" +:+ userId +:+ "/publications"));;
  content ← fetched (medium_publications E tr userId);
  handleMediumErrors content;;
  match data content with
  | Some pubs =>
      match find (fun p => String.eqb (pub_name p) pub) pubs with
      | Some p => mret (pub_id p)
      | None => throw TypeError
      end
  | None => throw TypeError
  end.

(** ** The image pass (lines 211-222) *)

Fixpoint upload_and_replace (E : Env) (imgsToUpload : list JsVal) (content : string)
    : M string :=
  match imgsToUpload with
  | [] => mret content
  | img :: rest =>
      newURL ← uploadImage E (to_string img);
      upload_and_replace E rest (replace_string content (to_string img) newURL)
  end.

Definition handlePostContentImages (E : Env) (content : string) : M string :=
  imgsToUpload ← lift (filterUploadableImages (url_parse_hostname E) (extractImageUrls content));
  upload_and_replace E imgsToUpload content.

(** ** The ledger and the orchestrator (lines 386-505) *)

Definition not_completed (completed : list string) (f : string) : bool :=
  match indexOf completed f with
  | None => true
  | Some _ => false
  end.

Definition getPostsFilesToProcess (E : Env) (fileCompleted : string) : M (list string) :=
  if is_dryrun E && truthy (process_argv E 3)
  then mret (glob_sync E (to_string (process_argv E 3)))
  else
    done ← try_readFileSync fileCompleted;
    let completed :=
      match done with
      | Some d => split LF d
      | None => []
      end in
    mret (slice0 5 (List.filter (not_completed completed) (glob_sync E "posts/blog-2018/*.*"))).

(** [JSON.stringify({ from: originalUrl, to: uploadResult.url })]: a key
    whose value is undefined is left out. *)
Definition stringify_redirect (E : Env) (from : string) (to : JsVal) : string :=
  match to with
  | JsString t =>
      "{" +:+ JSON_stringify E "from" +:+ ":" +:+ JSON_stringify E from +:+ ","
          +:+ JSON_stringify E "to" +:+ ":" +:+ JSON_stringify E t +:+ "}"
  | JsUndefined => "{" +:+ JSON_stringify E "from" +:+ ":" +:+ JSON_stringify E from +:+ "}"
  end.

Definition is_unpublished (post : Post) : bool :=
  match published post with
  | Some false => true
  | _ => false
  end.

(** One iteration of the loop of [main] (lines 445-492). *)
Definition process_file (E : Env) (fileRedirect fileCompleted file : string) : M unit :=
  emit (EvHandling file);;
  raw ← readFileSync file;
  post ← match safeLoadFront E raw with
         | Some p => mret p
         | None => throw YamlError
         end;
  if is_unpublished post then mret tt
  else
    content ← handlePostContentImages E (transform post);
    originalUrl ← lift (getOriginalURL E file post);
    postDate ← lift (getPostDate E file post);
    published_at ← lift (toISOString postDate);
    uploadResult ← uploadPost E (mkMediumPost (title post) "markdown" published_at content);
    match uploadResult with
    | None => throw TypeError
    | Some res =>
        appendFileSync fileRedirect (stringify_redirect E originalUrl (post_url res) +:+ NL);;
        appendFileSync fileCompleted (file +:+ NL)
    end.

Fixpoint for_each (files : list string) (body : string -> M unit) : M unit :=
  match files with
  | [] => mret tt
  | file :: rest => body file;; for_each rest body
  end.

Definition is_publication_query (E : Env) : bool :=
  match process_argv E 2 with
  | JsString s => String.eqb s "-p" && truthy (process_argv E 3)
  | JsUndefined => false
  end.

(** Lines 420-439: the names of the two ledger files; a dry run seeds
    its own pair with the content of the live ones. *)
Definition ledger_files (E : Env) : M (string * string) :=
  if is_dryrun E then
    fileRedirectContent ← try_readFileSync "redirects.json";
    fileCompletedContent ← try_readFileSync "upload-complete.csv";
    writeFileSync "dryrun-redirects.json" (default EmptyString fileRedirectContent);;
    writeFileSync "dryrun-upload-complete.csv" (default EmptyString fileCompletedContent);;
    mret ("dryrun-redirects.json", "dryrun-upload-complete.csv")
  else mret ("redirects.json", "upload-complete.csv").

Definition main (E : Env) : M unit :=
  if is_publication_query E then
    userId ← getMediumUserId E;
    _ ← getMediumPublicationId E userId (to_string (process_argv E 3));
    process_exit 0
  else if negb (truthy (MEDIUM_PUB_ID E)) then process_exit 1
  else
    names ← ledger_files E;
    let fileRedirect := fst names in
    let fileCompleted := snd names in
    files ← getPostsFilesToProcess E fileCompleted;
    for_each files (process_file E fileRedirect fileCompleted);;
    if is_dryrun E then
      readFileSync fileRedirect;;
      readFileSync fileCompleted;;
      unlinkSync fileRedirect;;
      unlinkSync fileCompleted
    else mret tt.

(** The module body: the checks of lines 25-38, then [main()]. *)
Definition program (E : Env) : M unit :=
  if negb (truthy (MEDIUM_TOKEN E)) then process_exit 1
  else if negb (truthy (AWS_ACCESS_KEY_ID E)) || negb (truthy (AWS_SECRET_ACCESS_KEY E))
  then process_exit 1
  else if negb (truthy (AWS_S3_BUCKET E)) then process_exit 1
  else main E.

(** ** Sample surroundings for the examples *)

Module Sample.

(** A stand-in for [url.parse(i).hostname] on the plain references of
    the examples: the text between http:// or https:// and the next
    slash, nothing for a reference without scheme. *)
Definition until_slash (s : chars) : chars :=
  (fix go (s : chars) : chars :=
     match s with
     | c :: s' => if Ascii.eqb c "/" then [] else c :: go s'
     | [] => []
     end) s.

Definition hostname (s : string) : JsVal :=
  match strip_prefix (str_chars "http://") (str_chars s) with
  | Some rest => JsString (chars_str (until_slash rest))
  | None =>
      match strip_prefix (str_chars "https://") (str_chars s) with
      | Some rest => JsString (chars_str (until_slash rest))
      | None => JsUndefined
      end
  end.

Definition quote (s : string) : string := String DQ s +:+ String DQ EmptyString.

Definition a_date : JsDate := ValidDate 2018 0 2 "2018-01-02T00:00:00.000Z".

(** Front-matter of the sample posts: the raw text is the body, the
    title is fixed. *)
Definition load (raw : string) : option Post :=
  Some (mkPost (JsString "A Post") DateAbsent JsUndefined JsUndefined None None raw).

Definition ok_post : Fetched PostData :=
  Some (mkResponse None (Some (mkPostData (JsString "https://medium.com/p/1")))).

Definition env (args : list string) (candidates : list string)
    (platform : list Event -> MediumPost -> Fetched PostData) : Env :=
  mkEnv args (JsString "token") (JsString "key") (JsString "secret") (JsString "bucket")
    (JsString "pub") hostname (fun base rel => base +:+ rel) (fun _ => candidates) load
    (fun _ => a_date) quote (fun img => "posts_images" +:+ img) (fun _ _ => true)
    (fun _ => None) (fun _ _ => None) platform.

Definition file (n : string) : string := "posts/blog-2018/2018-01-02-" +:+ n +:+ ".md".

Definition world (files : list (string * string)) : World :=
  mkWorld (list_to_map files) [].

End Sample.

(** * Vocabulary of the properties *)

(** ** C1: the pending files *)

(** The completed set, as the specification words it: the lines of the
    ledger file, a missing file counting as empty. *)
Definition completedSet (ledger : option string) : list string :=
  match ledger with
  | Some done => split LF done
  | None => []
  end.

(** The pending files, as the specification words them: the candidates
    that are not in the completed set, in candidate order. *)
Definition pendingFiles (allCandidates completed : list string) : list string :=
  filter (fun f => f ∉ completed) allCandidates.

Definition six_candidates : list string :=
  map Sample.file ["a"; "b"; "c"; "d"; "e"; "f"].

(** ** C4: card image and byline *)

Definition jane_post : Post :=
  mkPost JsUndefined DateAbsent JsUndefined (JsString "Jane") None
    (Some (mkMedia (Some (mkCard (JsString "/img/a.jpg"))))) "Hello".

(** ** C7: which references are uploaded *)

(** The references to upload, as the specification words them: those
    without a host component and those of the site's own domain. *)
Definition uploadable (hostname : string -> JsVal) (u : string) : Prop :=
  truthy (hostname u) = false \/ hostname u = JsString "developmentseed.org".

#[global] Instance uploadable_dec hostname u : Decision (uploadable hostname u).
Proof. unfold uploadable. apply or_dec; solve_decision. Defined.

(** ** C5: the same reference twice *)

Definition twice_content : string :=
  "![](/images/a.png)" +:+ NL +:+ "![](/images/a.png)".

(** What C5 promises for [twice_content] in a dry run: each of the two
    occurrences replaced by the uploaded URL. *)
Definition twice_expected : string :=
  "![](http://localhost/test/images/a.png)" +:+ NL
  +:+ "![](http://localhost/test/images/a.png)".

(** ** C6: the order of the extracted references *)

(** The value [getMatches] pushes for a match. *)
Definition pushed (m : MatchResult) : JsVal := js_or (group m 1) (group m 2).

(** The matches of an expression in a text, each with the position
    where it starts. *)
Definition located (str : string) (regexp : RegExpObj) : list (nat * JsVal) :=
  map (fun m => (index m, pushed m)) (replace_matches (str_chars str) regexp 0).



(** [m] is a match of the expression in the text: the pattern matches
    at position [index m], up to position [endIndex m], with the groups
    of [m]. *)
Definition is_match_of (regexp : RegExpObj) (str : chars) (m : MatchResult) : Prop :=
  match_here str (flag_m regexp) (pattern regexp) (skipn (index m) str)
  = Some (skipn (endIndex m) str, groups m).


(** ** What one iteration of the loop does *)

Definition is_put (e : Event) : Prop := exists params, e = EvS3Put params.
Definition only_puts (evs : list Event) : Prop := Forall is_put evs.

Definition no_exit {A} (o : Outcome A) : Prop :=
  match o with
  | Exited _ _ => False
  | _ => True
  end.

(** A step that happens before the publish request: it does not end the
    process, leaves the files alone and at most puts objects in storage
    (nothing at all in a dry run). *)
Definition quiet (E : Env) {A} (c : M A) : Prop :=
  forall w,
    no_exit (c w)
    /\ fs (final_world (c w)) = fs w
    /\ exists puts, trace (final_world (c w)) = trace w ++ puts
                    /\ only_puts puts /\ (is_dryrun E = true -> puts = []).

(** The part of an iteration before the publish request: [None] for a
    post that is skipped, otherwise the original URL and the post to
    send. *)
Definition prepare (E : Env) (file : string) : M (option (string * MediumPost)) :=
  raw ← readFileSync file;
  post ← match safeLoadFront E raw with
         | Some p => mret p
         | None => throw YamlError
         end;
  if is_unpublished post then mret None
  else
    content ← handlePostContentImages E (transform post);
    originalUrl ← lift (getOriginalURL E file post);
    postDate ← lift (getPostDate E file post);
    published_at ← lift (toISOString postDate);
    mret (Some (originalUrl, mkMediumPost (title post) "markdown" published_at content)).

(** The part of an iteration after the publish request. *)
Definition record (E : Env) (fileRedirect fileCompleted file originalUrl : string)
    (uploadResult : option PostData) : M unit :=
  match uploadResult with
  | None => throw TypeError
  | Some res =>
      appendFileSync fileRedirect (stringify_redirect E originalUrl (post_url res) +:+ NL);;
      appendFileSync fileCompleted (file +:+ NL)
  end.

Definition posts_endpoint (E : Env) : string :=
  mediumApiUrl +:+ "/publications/" +:+ to_string (MEDIUM_PUB_ID E) +:+ "/posts".

(** The files after the two records of a migrated post are appended. *)
Definition recorded (E : Env) (fr fc file originalUrl : string) (res : PostData)
    (files : gmap string string) : gmap string string :=
  fs_append fc (file +:+ NL)
    (fs_append fr (stringify_redirect E originalUrl (post_url res) +:+ NL) files).

(** How an iteration ends once the platform has answered. *)
Definition respond (E : Env) (fr fc file originalUrl : string)
    (files : gmap string string) (tr : list Event) (r : Fetched PostData) : Outcome unit :=
  match r with
  | None => Thrown FetchError (mkWorld files tr)
  | Some content =>
      match errors content with
      | Some _ => Exited 1 (mkWorld files tr)
      | None =>
          match data content with
          | None => Thrown TypeError (mkWorld files tr)
          | Some res => Ok tt (mkWorld (recorded E fr fc file originalUrl res files) tr)
          end
      end
  end.

(** The ways an iteration of the loop can end. *)
Inductive file_outcome (E : Env) (fr fc file : string) (w : World) : Outcome unit -> Prop :=
| fo_thrown e puts :
    only_puts puts -> (is_dryrun E = true -> puts = []) ->
    file_outcome E fr fc file w
      (Thrown e (mkWorld (fs w) (trace w ++ EvHandling file :: puts)))
| fo_skipped :
    file_outcome E fr fc file w (Ok tt (mkWorld (fs w) (trace w ++ [EvHandling file])))
| fo_dry originalUrl res :
    is_dryrun E = true ->
    file_outcome E fr fc file w
      (Ok tt (mkWorld (recorded E fr fc file originalUrl res (fs w))
                      (trace w ++ [EvHandling file])))
| fo_request puts originalUrl post :
    is_dryrun E = false -> only_puts puts ->
    file_outcome E fr fc file w
      (respond E fr fc file originalUrl (fs w)
         (trace w ++ EvHandling file :: puts ++ [EvMediumPost (posts_endpoint E) post])
         (medium_posts E (trace w ++ EvHandling file :: puts) post)).

(** ** The loop *)

Definition is_request (e : Event) : Prop :=
  match e with
  | EvMediumPost _ _ => True
  | _ => False
  end.

(** ** C3: an error list from the platform ends the run *)

(** A platform that accepts the first post and rejects the next ones. *)
Definition rejects_after_first (tr : list Event) (post : MediumPost) : Fetched PostData :=
  if existsb is_network_write tr
  then Some (mkResponse (Some ["Post rejected."]) None)
  else Sample.ok_post.

Definition three_posts : World :=
  Sample.world [(Sample.file "a", "Hello"); (Sample.file "b", "World");
                (Sample.file "c", "Again")].

(** ** C9: a dry run *)

Definition dry_redirects : string := "dryrun-redirects.json".
Definition dry_completed : string := "dryrun-upload-complete.csv".


(** The end of a dry run (lines 496-504). *)
Definition cleanup : M unit :=
  readFileSync dry_redirects;;
  readFileSync dry_completed;;
  unlinkSync dry_redirects;;
  unlinkSync dry_completed.


(** ** C2: the completion ledger *)

(** The text appended to the completion ledger for a list of paths. *)
Fixpoint ledger_lines (paths : list string) : string :=
  match paths with
  | [] => EmptyString
  | path :: rest => (path +:+ NL) +:+ ledger_lines rest
  end.


Definition content_of (files : gmap string string) (path : string) : string :=
  default EmptyString (files !! path).

(** What the loop leaves behind: the new events handle files of the
    list only, and the completion ledger grows by one line per file
    whose record was written, which in a live run is a file the platform
    has published. *)
Definition no_handling (evs : list Event) : Prop := forall g, EvHandling g ∉ evs.

(** A step that only reads: the files keep their content and no file is
    handled. *)
Definition reads_only {A} (c : M A) : Prop :=
  forall w,
    fs (final_world (c w)) = fs w
    /\ exists evs, trace (final_world (c w)) = trace w ++ evs /\ no_handling evs.

Definition live_completed : string := "upload-complete.csv".


(** ** C8: idempotence of the transformer stages *)

(** *** How a global replacement proceeds *)

(** A replacement text without pattern stands for itself. *)
Definition plain (repl : chars) : Prop :=
  forall matched before after, GetSubstitution matched before after repl = repl.

(** *** Line breaks *)

Definition is_LF (c : ascii) : bool := Ascii.eqb c LF.

(** Number of line feeds the text starts with. *)
Fixpoint run_len (s : chars) : nat :=
  match s with
  | c :: s' => if is_LF c then S (run_len s') else 0
  | [] => 0
  end.

Definition starts_with_two (s : chars) : bool :=
  match s with
  | a :: b :: _ => is_LF a && is_LF b
  | _ => false
  end.

(** Runs of three line feeds or more cut down to two: a line feed that
    two more follow is dropped. *)
Fixpoint collapse (s : chars) : chars :=
  match s with
  | c :: s' => if is_LF c && starts_with_two s' then collapse s' else c :: collapse s'
  | [] => []
  end.

Definition starts_with_LF (s : chars) : bool :=
  match s with
  | c :: _ => is_LF c
  | [] => false
  end.

(** *** Stages that remove a pattern *)

(** The content holds no match of the expression. *)
Definition no_match (regexp : RegExpObj) (content : string) : Prop :=
  replace_matches (str_chars content) regexp 0 = [].

(** *** The texts an expression matches *)

(** The character test of an atom that matches one character. *)
Definition atom (r : regex) : option (ascii -> bool) :=
  match r with
  | Chr c => Some (fun x => Ascii.eqb x c)
  | Dot => Some (fun x => negb (is_line_terminator x))
  | Class neg ranges => Some (class_matches neg ranges)
  | _ => None
  end.

Definition within (mx : option nat) (n : nat) : Prop :=
  match mx with
  | Some M => n <= M
  | None => True
  end.

(** Expressions without group or anchor whose quantifiers bear on
    one-character atoms, with a sensible range. *)
Fixpoint simple (r : regex) : Prop :=
  match r with
  | Chr _ | Dot | Class _ _ | Eps => True
  | Seq r1 r2 | Alt r1 r2 => simple r1 /\ simple r2
  | Rep mn mx r' => atom r' <> None /\ within mx mn
  | Group _ _ | Bol | Eol => False
  end.

(** The texts a simple expression matches. *)
Fixpoint lang (r : regex) (w : chars) : Prop :=
  match r with
  | Chr c => w = [c]
  | Dot => exists x, w = [x] /\ is_line_terminator x = false
  | Class neg ranges => exists x, w = [x] /\ class_matches neg ranges x = true
  | Seq r1 r2 => exists w1 w2, w = w1 ++ w2 /\ lang r1 w1 /\ lang r2 w2
  | Alt r1 r2 => lang r1 w \/ lang r2 w
  | Rep mn mx r' =>
      exists P, atom r' = Some P /\ forallb P w = true /\ mn <= length w
                /\ within mx (length w)
  | Eps => w = []
  | Group _ _ | Bol | Eol => False
  end.

(** A text starts with a text of the language. *)
Definition has_prefix_in (L : chars -> Prop) (t : chars) : Prop :=
  exists w s', t = w ++ s' /\ L w.

(** *** The shape of a global replacement *)

(** [out] is [t] where the leftmost matches, found one after the other,
    are replaced by [repl]. *)
Inductive rewrites (L : chars -> Prop) (repl : chars) : chars -> chars -> Prop :=
| rw_none t :
    (forall p t', t = p ++ t' -> ~ has_prefix_in L t') ->
    rewrites L repl t t
| rw_match p w s' out :
    L w ->
    (forall p1 p2, p = p1 ++ p2 -> p2 <> [] -> ~ has_prefix_in L (p2 ++ w ++ s')) ->
    rewrites L repl s' out ->
    rewrites L repl (p ++ w ++ s') (p ++ repl ++ out).

(** *** Code fences *)

Definition skip_space (t : chars) : chars :=
  match t with
  | c :: t' => if Ascii.eqb c " " then t' else t
  | [] => []
  end.

Definition not_terminator (x : ascii) : bool := negb (is_line_terminator x).

Definition starts_with (c : ascii) (t : chars) : bool :=
  match t with
  | y :: _ => Ascii.eqb y c
  | [] => false
  end.

(** The text holds a closing %} before the end of its first line. *)
Fixpoint closes (t : chars) : bool :=
  match t with
  | [] => false
  | x :: t' =>
      if Ascii.eqb x "%" && starts_with "}" t' then true
      else if is_line_terminator x then false
      else closes t'
  end.

(** The tail of [highlightRegex], after the word highlight. *)
Definition highlight_tail : regex := Cat [Opt space; Star Dot; Opt space; Lit "%}"].

Definition lit_then (lit : chars) (g : chars -> bool) (t : chars) : bool :=
  match strip_prefix lit t with
  | Some t' => g t'
  | None => false
  end.

Definition opt_space_then (g : chars -> bool) (t : chars) : bool := g (skip_space t).

(** A text starts with an opening highlight tag that is closed on its
    line. *)
Definition starts_highlight : chars -> bool :=
  lit_then (str_chars "{%") (opt_space_then (lit_then (str_chars "highlight") closes)).

(** A text starts with a closing highlight tag. *)
Definition starts_endhighlight : chars -> bool :=
  lit_then (str_chars "{%")
    (opt_space_then
       (lit_then (str_chars "endhighlight")
          (opt_space_then (lit_then (str_chars "%}") (fun _ => true))))).

Definition BT : ascii := "`"%char.

(** A test that looks at the text up to a backtick only: what it accepts
    before a backtick it accepts before [B]. *)
Definition transfers (g : chars -> bool) (Y B : chars) : Prop :=
  forall p, g (p ++ BT :: Y) = true -> g (p ++ B) = true.

(** What replaces a tag: a text that is closed on its line and does not
    start with a space. *)
Definition tag_like (B : chars) : Prop := closes B = true /\ skip_space B = B.

(** No position of the text passes the test. *)
Definition clean (test : chars -> bool) (t : chars) : Prop :=
  forall p t', t = p ++ t' -> test t' = false.

(** ** Further properties of the code *)

(** The character does not occur in the text. *)
Definition absent (c : ascii) (content : string) : Prop := c ∉ str_chars content.

(** The value pushed for a captured text that may be empty: an empty
    capture is falsy. *)
Definition or_undefined (u : string) : JsVal :=
  match u with
  | EmptyString => JsUndefined
  | _ => JsString u
  end.

(** The text holds no line terminator. *)
Definition one_line (s : string) : Prop :=
  forallb (fun x => negb (is_line_terminator x)) (str_chars s) = true.

(** Every event a step adds to the trace passes the test. *)
Definition emits (P : Event -> Prop) {A} (c : M A) : Prop :=
  forall w, exists evs, trace (final_world (c w)) = trace w ++ evs /\ Forall P evs.

(** What the events of a run look like: a publication query sends read
    requests only; otherwise objects are stored under the configured
    bucket with a key made of images/ and a name without directory, and
    posts are sent to the posts endpoint of the configured publication,
    outside a dry run. *)
Definition well_formed (E : Env) (e : Event) : Prop :=
  match e with
  | EvHandling _ => is_publication_query E = false
  | EvS3Put params =>
      is_publication_query E = false /\ is_dryrun E = false
      /\ Bucket params = to_string (AWS_S3_BUCKET E)
      /\ exists name, Key params = "images/" +:+ name /\ absent "/" name
  | EvMediumGet _ => is_publication_query E = true
  | EvMediumPost endpoint post =>
      is_publication_query E = false /\ is_dryrun E = false
      /\ truthy (MEDIUM_PUB_ID E) = true
      /\ endpoint = posts_endpoint E /\ contentFormat post = "markdown"
  end.

Definition is_get (e : Event) : Prop :=
  match e with
  | EvMediumGet _ => True
  | _ => False
  end.


(** The files a trace handles, in order. *)
Fixpoint handled (tr : list Event) : list string :=
  match tr with
  | [] => []
  | EvHandling file :: tr' => file :: handled tr'
  | _ :: tr' => handled tr'
  end.

(** The number of publish requests of a trace. *)
Fixpoint requests (tr : list Event) : nat :=
  match tr with
  | [] => 0
  | EvMediumPost _ _ :: tr' => S (requests tr')
  | _ :: tr' => requests tr'
  end.

(** A post whose two records were written. *)
Record Migrated : Type := mkMigrated {
  m_file : string;
  m_from : string;
  m_to : PostData
}.

(** The files after the records of a list of posts are written, one
    post after the other. *)
Definition record_all (E : Env) (fr fc : string) (recs : list Migrated)
    (files : gmap string string) : gmap string string :=
  foldl (fun acc r => recorded E fr fc (m_file r) (m_from r) (m_to r) acc) files recs.


Definition live_redirects : string := "redirects.json".

(** The completed set a run reads at startup: a dry run reads the copy
    it has just made of the live ledger, which is empty when there is no
    live ledger. *)
Definition startup_completed (E : Env) (w : World) : list string :=
  if is_dryrun E then split LF (content_of (fs w) live_completed)
  else completedSet (fs w !! live_completed).

Definition six_posts : World :=
  Sample.world (map (fun n => (Sample.file n, "Hello")) ["a"; "b"; "c"; "d"; "e"; "f"]).

(** A ledger to which a line can be appended: it is empty or ends with
    a line feed. *)
Definition well_terminated (s : string) : Prop :=
  s = EmptyString \/ exists s0, s = s0 +:+ NL.

(** The text starts with three line feeds. *)
Definition starts_with_three (s : chars) : bool :=
  match s with
  | c :: s' => is_LF c && starts_with_two s'
  | [] => false
  end.

(** The characters of the text that are not line feeds. *)
Definition without_LF (s : chars) : chars := List.filter (fun c => negb (is_LF c)) s.

(** The reference is a string whose host is another site. *)
Definition remote (hostname : string -> JsVal) (i : JsVal) : Prop :=
  exists s h, i = JsString s /\ hostname s = JsString h
              /\ h <> EmptyString /\ h <> "developmentseed.org".

(** All that the script requires of its environment is set. *)
Definition configured (E : Env) : Prop :=
  truthy (MEDIUM_TOKEN E) = true /\ truthy (AWS_ACCESS_KEY_ID E) = true
  /\ truthy (AWS_SECRET_ACCESS_KEY E) = true /\ truthy (AWS_S3_BUCKET E) = true
  /\ truthy (MEDIUM_PUB_ID E) = true.

(** The file holds a post that the front-matter marks as unpublished. *)
Definition holds_unpublished (E : Env) (files : gmap string string) (file : string) : Prop :=
  exists raw post,
    files !! file = Some raw /\ safeLoadFront E raw = Some post
    /\ published post = Some false.

(** Front-matter of a draft. *)
Definition load_draft (raw : string) : option Post :=
  Some (mkPost (JsString "A Draft") DateAbsent JsUndefined JsUndefined (Some false) None raw).

Definition draft_env (candidates : list string) : Env :=
  mkEnv [] (JsString "token") (JsString "key") (JsString "secret") (JsString "bucket")
    (JsString "pub") Sample.hostname (fun base rel => base +:+ rel) (fun _ => candidates)
    load_draft (fun _ => Sample.a_date) Sample.quote (fun img => img) (fun _ _ => true)
    (fun _ => None) (fun _ _ => None) (fun _ _ => Sample.ok_post).

(** The date part of a file name (group 1 of [fileDateNameRegex]): 20
    and two digits, then a month and a day of one or two digits, with
    dashes in between. *)
Definition fileDate : regex :=
  Cat [Lit "20"; Rep 2 (Some 2) digit; Chr "-"; Rep 1 (Some 2) digit; Chr "-";
       Rep 1 (Some 2) digit].

(** The text is made of the letters a to z. *)
Definition lower_case (s : string) : Prop :=
  forallb (class_matches false [("a", "z")%char]) (str_chars s) = true.

(** Surroundings where no text is a date. *)
Definition no_calendar_env : Env :=
  mkEnv [] (JsString "token") (JsString "key") (JsString "secret") (JsString "bucket")
    (JsString "pub") Sample.hostname (fun base rel => base +:+ rel) (fun _ => [])
    Sample.load (fun _ => InvalidDate) Sample.quote (fun img => img) (fun _ _ => true)
    (fun _ => None) (fun _ _ => None) (fun _ _ => Sample.ok_post).

(** A line terminator stands in the text at a position from [p1] on and
    before [p2]. *)
Definition line_break_between (str : list ascii) (p1 p2 : nat) : Prop :=
  exists k c, p1 <= k < p2 /\ str !! k = Some c /\ is_line_terminator c = true.

(** What follows the run of characters in [htmlImgRegex]: the text src=
    and the quoted value. *)
Definition htmlImgTail : regex :=
  Seq (Lit "src=")
    (Alt (Cat [Chr DQ; Group 1 (Star (NotChr DQ)); Chr DQ])
         (Cat [Chr SQ; Group 2 (Star (NotChr SQ)); Chr SQ])).

(** The object [uploadImage] stores for a reference, given the content
    of its file. *)
Definition image_key (img : string) : string :=
  "images/" +:+ basename (replace_first img ownDomainRegex "").

Definition image_path (E : Env) (img : string) : string :=
  posts_images E (replace_first img ownDomainRegex "").

(** The surroundings with another command line. *)
Definition with_argv (E : Env) (args : list string) : Env :=
  mkEnv args (MEDIUM_TOKEN E) (AWS_ACCESS_KEY_ID E) (AWS_SECRET_ACCESS_KEY E)
    (AWS_S3_BUCKET E) (MEDIUM_PUB_ID E) (url_parse_hostname E) (url_resolve E)
    (glob_sync E) (safeLoadFront E) (Date_new E) (JSON_stringify E) (posts_images E)
    (s3_putObject E) (medium_me E) (medium_publications E) (medium_posts E).

(** * Properties *)

(** ** Sequencing *)

Lemma bind_eq {A B} (c : M A) (k : A -> M B) (w : World) :
  (c ≫= k) w
  = match c w with
    | Ok a w' => k a w'
    | Exited code w' => Exited code w'
    | Thrown e w' => Thrown e w'
    end.
Proof. reflexivity. Qed.

Lemma ret_eq {A} (a : A) (w : World) : mret (M := M) a w = Ok a w.
Proof. reflexivity. Qed.

Lemma Ok_inj {A} (a b : A) (w w' : World) : Ok a w = Ok b w' -> a = b /\ w = w'.
Proof. intros H. split; congruence. Qed.

(** ** Lists and ledger lines *)

Lemma indexOf_None l x : indexOf l x = None <-> x ∉ l.
Proof.
  induction l as [|y l IH]; simpl.
  - split; [intros _; apply not_elem_of_nil | reflexivity].
  - destruct (String.eqb_spec y x) as [->|Hne].
    + split; [discriminate|]. intros H. exfalso. apply H. left.
    + destruct (indexOf l x) eqn:E.
      * split; [discriminate|]. intros H. exfalso.
        apply not_elem_of_cons in H as [_ H]. apply IH in H. discriminate.
      * split; [|reflexivity]. intros _. apply not_elem_of_cons. split; [congruence|].
        apply IH. reflexivity.
Qed.

Lemma List_filter_Prop {A} (f : A -> bool) (P : A -> Prop) `{!forall x, Decision (P x)} l :
  (forall x, f x = true <-> P x) ->
  List.filter f l = filter P l.
Proof.
  intros Hf. induction l as [|x l IH]; [reflexivity|].
  simpl. rewrite filter_cons, IH.
  destruct (decide (P x)) as [HP|HP].
  - apply Hf in HP. rewrite HP. reflexivity.
  - destruct (f x) eqn:E; [|reflexivity]. apply Hf in E. contradiction.
Qed.

Lemma split_nonempty sep s : split sep s <> [].
Proof.
  destruct s as [|c s]; simpl; [discriminate|].
  destruct (Ascii.eqb c sep); [discriminate|].
  destruct (split sep s); discriminate.
Qed.

(** Joining the lines of a text with the separator gives the text
    back. *)
Lemma join_split s : join NL (split LF s) = s.
Proof.
  induction s as [|c s IH]; [reflexivity|].
  simpl split. destruct (Ascii.eqb_spec c LF) as [->|Hne].
  - pose proof (split_nonempty LF s) as Hn.
    destruct (split LF s) as [|x xs] eqn:E; [contradiction|].
    change (join NL (EmptyString :: x :: xs)) with (String LF (join NL (x :: xs))).
    rewrite IH. reflexivity.
  - pose proof (split_nonempty LF s) as Hn.
    destruct (split LF s) as [|x xs] eqn:E; [contradiction|].
    rewrite <- IH. destruct xs; reflexivity.
Qed.

(** No line contains the separator. *)
Lemma split_lines_no_LF s l :
  l ∈ split LF s -> LF ∉ str_chars l.
Proof.
  revert l. induction s as [|c s IH]; intros l; simpl split.
  - intros ->%list_elem_of_singleton. apply not_elem_of_nil.
  - destruct (Ascii.eqb_spec c LF) as [->|Hne].
    + intros [->|H]%elem_of_cons; [apply not_elem_of_nil | auto].
    + pose proof (split_nonempty LF s) as Hn.
      destruct (split LF s) as [|x xs] eqn:E; [contradiction|].
      intros [->|H]%elem_of_cons.
      * simpl. apply not_elem_of_cons. split; [congruence|]. apply IH. left.
      * apply IH. right. exact H.
Qed.

(** ** C1: the pending files *)


Lemma filter_not_completed (completed candidates : list string) :
  List.filter (not_completed completed) candidates = pendingFiles candidates completed.
Proof.
  apply List_filter_Prop. intros f. unfold not_completed.
  rewrite <- indexOf_None. destruct (indexOf completed f); split; congruence.
Qed.



(** ** C10: an image with an empty URL *)

(** C10: for the body "![]()" [extractImageUrls] returns the single
    element [undefined] (group 1 is the empty text, which is falsy, and
    there is no group 2), and [filterUploadableImages] throws on it for
    lack of a string to parse, whatever [url.parse] does on strings. *)
Theorem C10_empty_url_gives_undefined :
  extractImageUrls "![]()" = [JsUndefined]
  /\ forall hostname : string -> JsVal,
       filterUploadableImages hostname (extractImageUrls "![]()") = inl TypeError.
Proof.
  assert (H : extractImageUrls "![]()" = [JsUndefined]) by (vm_compute; reflexivity).
  split; [exact H|]. intros hostname. rewrite H. reflexivity.
Qed.

(** ** C4: card image and byline *)

(** C4, as stated, fails: the content does not begin with the card
    image. *)
Lemma C4_counterexample :
  transform jane_post
  <> "![](/img/a.jpg)" +:+ NL +:+ NL +:+ "By: Jane" +:+ NL +:+ NL +:+ "Hello".
Proof. vm_compute. intros H. discriminate H. Qed.

(** C4 (amended): the byline is prepended after the card image, so the
    content begins with the byline, followed by the card image and the
    body. *)
Theorem C4_byline_then_card_image :
  transform jane_post
  = "By: Jane" +:+ NL +:+ NL +:+ "![](/img/a.jpg)" +:+ NL +:+ NL +:+ "Hello".
Proof. vm_compute. reflexivity. Qed.

(** ** C7: which references are uploaded *)


(** ** C5: the same reference twice *)

(** C5 fails on the code: the uploaded URL ends with the reference
    itself, so the second replacement hits the URL written by the first
    one; the second occurrence keeps its original text. *)
Theorem C5_second_occurrence_not_replaced (E : Env) (w : World) :
  is_dryrun E = true ->
  truthy (url_parse_hostname E "/images/a.png") = false ->
  handlePostContentImages E twice_content w
  = Ok ("![](http://localhost/testhttp://localhost/test/images/a.png)" +:+ NL
        +:+ "![](/images/a.png)") w
  /\ handlePostContentImages E twice_content w <> Ok twice_expected w.
Proof.
  intros Hdry Hhost.
  assert (Hx : extractImageUrls twice_content
               = [JsString "/images/a.png"; JsString "/images/a.png"])
    by (vm_compute; reflexivity).
  assert (Hup : forall w', uploadImage E "/images/a.png" w'
                           = Ok "http://localhost/test/images/a.png" w').
  { intros w'. unfold uploadImage. rewrite Hdry. vm_compute. reflexivity. }
  assert (Hrun : handlePostContentImages E twice_content w
                 = Ok ("![](http://localhost/testhttp://localhost/test/images/a.png)" +:+ NL
                       +:+ "![](/images/a.png)") w).
  { unfold handlePostContentImages. rewrite Hx.
    cbn [filterUploadableImages filter_step]. rewrite Hhost.
    cbn [negb orb]. rewrite bind_eq. cbn [lift upload_and_replace to_string].
    rewrite bind_eq, Hup, bind_eq, Hup, ret_eq. f_equal. }
  split; [exact Hrun|]. rewrite Hrun. vm_compute. intros H. discriminate H.
Qed.

(** The same happens in a live run, where the image is put in storage
    once per occurrence. *)
Example twice_live :
  let E := Sample.env [] [] (fun _ _ => Sample.ok_post) in
  let w := Sample.world [("posts_images/images/a.png", "PNG")] in
  let params := mkS3Params "PNG" "bucket" "images/a.png" in
  handlePostContentImages E twice_content w
  = Ok ("![](https://s3.amazonaws.com/buckethttps://s3.amazonaws.com/bucket/images/a.png)"
        +:+ NL +:+ "![](/images/a.png)")
       (mkWorld (fs w) [EvS3Put params; EvS3Put params]).
Proof. vm_compute. reflexivity. Qed.

Lemma C5_witness :
  let E := Sample.env ["--dryrun"] [] (fun _ _ => Sample.ok_post) in
  let w := Sample.world [] in
  is_dryrun E = true
  /\ truthy (url_parse_hostname E "/images/a.png") = false
  /\ handlePostContentImages E twice_content w <> Ok twice_expected w.
Proof.
  intros E w. split; [reflexivity|]. split; [reflexivity|].
  apply (C5_second_occurrence_not_replaced E w); reflexivity.
Defined.

(** ** C6: the order of the extracted references *)

Lemma whole_nil_iff re str li m li' :
  exec re str li = (Some m, li') ->
  (index m =? li') = match whole m with [] => true | _ => false end.
Proof.
  intros H. pose proof (RegExpFacts.exec_whole _ _ _ _ _ H) as Hw.
  apply RegExpFacts.exec_bounds in H.
  destruct (whole m); simpl in Hw; destruct (Nat.eqb_spec (index m) li'); auto; lia.
Qed.

(** One turn of the loop of [getMatches]. *)
Lemma getMatches_loop_step str re li acc :
  getMatches_loop str re li acc
  = match exec re str li with
    | (None, li') => (acc, li')
    | (Some m, li') =>
        getMatches_loop str re (if index m =? li' then S li' else li')
          (acc ++ [js_or (group m 1) (group m 2)])
    end.
Proof.
  simp getMatches_loop.
  destruct (inspect (exec re str li)) as [[[m|] li'] Heq]; simpl; rewrite Heq; reflexivity.
Qed.

Lemma replace_matches_step str re li :
  replace_matches str re li
  = match exec re str li with
    | (None, _) => []
    | (Some r, li') =>
        r :: replace_matches str re (match whole r with [] => S li' | _ => li' end)
    end.
Proof.
  simp replace_matches.
  destruct (inspect (exec re str li)) as [[[m|] li'] Heq]; simpl; rewrite Heq; reflexivity.
Qed.

(** [getMatches] pushes the value of each match of the scan, and leaves
    [lastIndex] at 0. *)
Lemma getMatches_loop_spec str re li acc :
  getMatches_loop str re li acc = (acc ++ map pushed (replace_matches str re li), 0).
Proof.
  revert acc. funelim (replace_matches str re li); intros acc;
    rewrite getMatches_loop_step, e.
  - rewrite (whole_nil_iff _ _ _ _ _ e).
    destruct (whole r) eqn:Ew; rewrite H; simpl; rewrite <- app_assoc; reflexivity.
  - rewrite (RegExpFacts.exec_null _ _ _ _ e). simpl. rewrite app_nil_r. reflexivity.
Qed.

Lemma getMatches_lastIndex str re : snd (getMatches str re 0) = 0.
Proof. unfold getMatches. rewrite getMatches_loop_spec. reflexivity. Qed.


Lemma skipn_suffix {A} (pre t : list A) : skipn (length (pre ++ t) - length t) (pre ++ t) = t.
Proof.
  rewrite length_app, Nat.add_sub.
  rewrite skipn_app, Nat.sub_diag, skipn_all. reflexivity.
Qed.

Lemma exec_is_match re str li m li' :
  exec re str li = (Some m, li') -> is_match_of re str m.
Proof.
  unfold exec, is_match_of. intros H.
  destruct (length str <? li) eqn:El; [discriminate|].
  destruct (search str (flag_m re) (pattern re) (skipn li str)) eqn:Es; [|discriminate].
  injection H as <- <-.
  apply RegExpFacts.search_inv in Es as (p & t & w & s' & cs & Hs & Ht & Hm & ->).
  cbn [index endIndex groups].
  assert (Hstr : str = (firstn li str ++ p) ++ w ++ s').
  { rewrite <- Ht, <- app_assoc, <- Hs. symmetry. apply firstn_skipn. }
  clear Hs El. revert Hstr. generalize (firstn li str ++ p). intros pre ->. subst t.
  rewrite skipn_suffix.
  replace (skipn _ (pre ++ w ++ s')) with s'; [exact Hm|].
  rewrite (app_assoc pre w s'). symmetry. apply skipn_suffix.
Qed.

Lemma replace_matches_are_matches str re li :
  Forall (is_match_of re str) (replace_matches str re li).
Proof.
  funelim (replace_matches str re li); [|constructor].
  constructor; [|exact H]. eapply exec_is_match. exact e.
Qed.



(** ** What one iteration of the loop does *)

Ltac quiet_nothing :=
  repeat split; auto; exists []; rewrite app_nil_r; repeat split; auto; constructor.

Lemma quiet_ret E {A} (a : A) : quiet E (mret a).
Proof. intros w. quiet_nothing. Qed.

Lemma quiet_throw E {A} e : quiet E (@throw A e).
Proof. intros w. quiet_nothing. Qed.

Lemma quiet_lift E {A} (r : JsError + A) : quiet E (lift r).
Proof. intros w. unfold lift. destruct r; quiet_nothing. Qed.

Lemma quiet_bind E {A B} (c : M A) (k : A -> M B) :
  quiet E c -> (forall a, quiet E (k a)) -> quiet E (c ≫= k).
Proof.
  intros Hc Hk w. rewrite bind_eq.
  destruct (Hc w) as (Hne & Hfs & puts & Htr & Hp & Hd).
  destruct (c w) as [a w1|code w1|e w1]; simpl in *; [|contradiction|].
  - destruct (Hk a w1) as (Hne' & Hfs' & puts' & Htr' & Hp' & Hd').
    split; [exact Hne'|]. split; [congruence|].
    exists (puts ++ puts'). rewrite Htr', Htr, app_assoc.
    repeat split; [apply Forall_app; split; assumption|].
    intros Hdry. rewrite Hd, Hd'; auto.
  - repeat split; [exact Hfs|]. exists puts. auto.
Qed.

Lemma quiet_readFileSync E path : quiet E (readFileSync path).
Proof.
  intros w. unfold readFileSync. destruct (fs w !! path); quiet_nothing.
Qed.

Lemma quiet_uploadImage E img : quiet E (uploadImage E img).
Proof.
  unfold uploadImage. destruct (is_dryrun E) eqn:Hdry; [apply quiet_ret|].
  apply quiet_bind; [apply quiet_readFileSync|]. intros body.
  apply quiet_bind; [|intros; apply quiet_ret].
  intros w. unfold putS3Object. rewrite !bind_eq. simpl.
  set (params := mkS3Params _ _ _).
  assert (Hput : only_puts [EvS3Put params]) by (repeat constructor; eexists; reflexivity).
  destruct (s3_putObject E (trace w) params); simpl;
    (split; [exact I|]); (split; [reflexivity|]);
    exists [EvS3Put params]; (split; [reflexivity|]); (split; [exact Hput|]);
    congruence.
Qed.

Lemma quiet_upload_and_replace E imgs content : quiet E (upload_and_replace E imgs content).
Proof.
  revert content. induction imgs as [|img imgs IH]; intros content; simpl.
  - apply quiet_ret.
  - apply quiet_bind; [apply quiet_uploadImage|]. intros newURL. apply IH.
Qed.

Lemma quiet_handlePostContentImages E content : quiet E (handlePostContentImages E content).
Proof.
  unfold handlePostContentImages.
  apply quiet_bind; [apply quiet_lift|]. intros imgs. apply quiet_upload_and_replace.
Qed.

Lemma bind_assoc {A B C} (c : M A) (f : A -> M B) (g : B -> M C) w :
  ((c ≫= f) ≫= g) w = (c ≫= fun a => f a ≫= g) w.
Proof. rewrite !bind_eq. destruct (c w); reflexivity. Qed.

Lemma bind_ext {A B} (c : M A) (f g : A -> M B) w :
  (forall a w', f a w' = g a w') -> (c ≫= f) w = (c ≫= g) w.
Proof. intros H. rewrite !bind_eq. destruct (c w); auto. Qed.

Lemma ret_bind {A B} (a : A) (f : A -> M B) w : (mret a ≫= f) w = f a w.
Proof. reflexivity. Qed.

Ltac push_bind :=
  etransitivity; [|symmetry; apply bind_assoc]; apply bind_ext; intros ? ?.

Lemma process_file_eq E fr fc file w :
  process_file E fr fc file w
  = (emit (EvHandling file);;
     prepared ← prepare E file;
     match prepared with
     | None => mret tt
     | Some (originalUrl, mediumPost) =>
         uploadResult ← uploadPost E mediumPost;
         record E fr fc file originalUrl uploadResult
     end) w.
Proof.
  unfold process_file, prepare, record.
  apply bind_ext. intros _ w0.
  push_bind. push_bind.
  destruct (is_unpublished _); [reflexivity|].
  do 4 push_bind. reflexivity.
Qed.

Lemma quiet_prepare E file : quiet E (prepare E file).
Proof.
  unfold prepare.
  apply quiet_bind; [apply quiet_readFileSync|]. intros raw.
  apply quiet_bind.
  { destruct (safeLoadFront E raw); [apply quiet_ret | apply quiet_throw]. }
  intros post. destruct (is_unpublished post); [apply quiet_ret|].
  apply quiet_bind; [apply quiet_handlePostContentImages|]. intros content.
  do 3 (apply quiet_bind; [apply quiet_lift|]; intros ?).
  apply quiet_ret.
Qed.

(** A skipped post costs nothing. *)
Lemma prepare_skip E file w w1 : prepare E file w = Ok None w1 -> w1 = w.
Proof.
  unfold prepare, readFileSync. rewrite bind_eq.
  destruct (fs w !! file) as [raw|]; [|discriminate].
  rewrite bind_eq.
  destruct (safeLoadFront E raw) as [post|]; [|discriminate].
  rewrite ret_eq.
  destruct (is_unpublished post); [rewrite ret_eq; congruence|].
  rewrite bind_eq. destruct (handlePostContentImages E _ w); [|discriminate..].
  rewrite bind_eq. destruct (lift (getOriginalURL E file post) _); [|discriminate..].
  rewrite bind_eq. destruct (lift (getPostDate E file post) _); [|discriminate..].
  rewrite bind_eq. destruct (lift (toISOString _) _); [|discriminate..].
  rewrite ret_eq. discriminate.
Qed.

Lemma process_file_outcome E fr fc file w :
  file_outcome E fr fc file w (process_file E fr fc file w).
Proof.
  rewrite process_file_eq. rewrite bind_eq. cbn [emit]. rewrite bind_eq.
  set (w0 := mkWorld (fs w) (trace w ++ [EvHandling file])).
  destruct (quiet_prepare E file w0) as (Hne & Hfs & puts & Htr & Hp & Hd).
  destruct (prepare E file w0) as [[[originalUrl post]|] w1|code w1|e w1] eqn:Eprep;
    simpl in Hne, Hfs, Htr; [| | contradiction |].
  - (* the post is sent *)
    destruct w1 as [files1 tr1]. simpl in Hfs, Htr. subst files1 tr1.
    rewrite <- app_assoc. simpl app.
    rewrite bind_eq. unfold uploadPost.
    destruct (is_dryrun E) eqn:Hdry.
    + assert (puts = []) as -> by auto.
      destruct (mp_title post).
      * apply (fo_thrown _ _ _ _ _ _ []); [constructor | reflexivity].
      * rewrite ret_eq. exact (fo_dry E fr fc file w originalUrl _ Hdry).
    + rewrite !bind_eq. cbn [get_trace emit trace fs].
      pose proof (fo_request E fr fc file w puts originalUrl post Hdry Hp) as Hreq.
      fold (posts_endpoint E).
      rewrite (bind_eq (emit _)). cbn [emit trace fs].
      rewrite <- app_assoc. simpl app.
      unfold respond in Hreq.
      destruct (medium_posts E (trace w ++ EvHandling file :: puts) post) as [content|];
        [|exact Hreq].
      destruct content as [[msgs|] [res|]]; exact Hreq.
  - (* the post is skipped *)
    apply prepare_skip in Eprep as ->. rewrite ret_eq. apply fo_skipped.
  - (* an exception before the request *)
    destruct w1 as [files1 tr1]. simpl in Hfs, Htr. subst files1 tr1.
    rewrite <- app_assoc. apply fo_thrown; assumption.
Qed.

(** ** The loop *)

Lemma for_each_app pre rest body w :
  for_each (pre ++ rest) body w
  = match for_each pre body w with
    | Ok _ w1 => for_each rest body w1
    | Exited code w1 => Exited code w1
    | Thrown e w1 => Thrown e w1
    end.
Proof.
  revert w. induction pre as [|f pre IH]; intros w; [reflexivity|].
  simpl. rewrite !bind_eq. destruct (body f w); auto.
Qed.

Lemma put_not_request e : is_put e -> ~ is_request e.
Proof. intros [params ->] []. Qed.

(** A request that closes a list of events without requests is the only
    request of the list. *)
Lemma last_request (l : list Event) x a y b :
  l ++ [x] = a ++ y :: b ->
  Forall (fun e => ~ is_request e) l -> is_request y ->
  a = l /\ y = x /\ b = [].
Proof.
  revert a. induction l as [|e l IH]; intros a Heq Hl Hy.
  - destruct a as [|e' a]; simpl in Heq.
    + injection Heq as -> <-. auto.
    + injection Heq as _ Heq. destruct a; discriminate.
  - destruct a as [|e' a]; simpl in Heq.
    + injection Heq as -> _. apply Forall_cons in Hl as [Hl _]. contradiction.
    + injection Heq as -> Heq. apply Forall_cons in Hl as [_ Hl].
      destruct (IH a Heq Hl Hy) as (-> & -> & ->). auto.
Qed.

Lemma respond_trace E fr fc file originalUrl files tr r :
  trace (final_world (respond E fr fc file originalUrl files tr r)) = tr.
Proof.
  unfold respond. destruct r as [[[msgs|] [res|]]|]; reflexivity.
Qed.

Lemma handling_puts_no_request file puts :
  only_puts puts -> Forall (fun e => ~ is_request e) (EvHandling file :: puts).
Proof.
  intros Hp. constructor; [intros []|].
  eapply Forall_impl; [exact Hp|]. intros e. apply put_not_request.
Qed.

(** ** C3: an error list from the platform ends the run *)

Lemma handleMediumErrors_exit {A} (response : Response A) msgs w :
  errors response = Some msgs -> handleMediumErrors response w = Exited 1 w.
Proof. unfold handleMediumErrors. intros ->. reflexivity. Qed.

(** C3: when the platform answers the publish request of a file with an
    errors array, the loop ends there with exit code 1: the files after
    it are not processed (the last event of the run is that request), and
    the ledger files are as the files before it left them. *)
Theorem C3_errors_end_the_run (E : Env) (fr fc : string) (pre rest : list string)
    (file : string) (w w1 : World) (tr1 tr2 : list Event) (ep : string) (p : MediumPost)
    (r : Response PostData) (msgs : list string) :
  for_each pre (process_file E fr fc) w = Ok tt w1 ->
  trace (final_world (process_file E fr fc file w1))
    = trace w1 ++ tr1 ++ EvMediumPost ep p :: tr2 ->
  medium_posts E (trace w1 ++ tr1) p = Some r ->
  errors r = Some msgs ->
  exists w2,
    for_each (pre ++ file :: rest) (process_file E fr fc) w = Exited 1 w2
    /\ fs w2 = fs w1
    /\ trace w2 = trace w1 ++ tr1 ++ [EvMediumPost ep p].
Proof.
  intros Hpre Htr Hresp Herr.
  rewrite for_each_app, Hpre. cbn [for_each]. rewrite bind_eq.
  destruct (process_file_outcome E fr fc file w1)
    as [e puts Hp Hd| |originalUrl res Hdry|puts originalUrl post Hdry Hp].
  - exfalso. simpl in Htr. apply app_inv_head in Htr.
    pose proof (handling_puts_no_request file puts Hp) as Hno.
    rewrite Htr in Hno. apply Forall_app in Hno as [_ Hno].
    apply Forall_cons in Hno as [Hno _]. apply Hno. exact I.
  - exfalso. simpl in Htr. apply app_inv_head in Htr.
    pose proof (handling_puts_no_request file [] ltac:(constructor)) as Hno.
    rewrite Htr in Hno. apply Forall_app in Hno as [_ Hno].
    apply Forall_cons in Hno as [Hno _]. apply Hno. exact I.
  - exfalso. simpl in Htr. apply app_inv_head in Htr.
    pose proof (handling_puts_no_request file [] ltac:(constructor)) as Hno.
    rewrite Htr in Hno. apply Forall_app in Hno as [_ Hno].
    apply Forall_cons in Hno as [Hno _]. apply Hno. exact I.
  - rewrite respond_trace in Htr. apply app_inv_head in Htr.
    change (EvHandling file :: puts ++ [EvMediumPost (posts_endpoint E) post])
      with ((EvHandling file :: puts) ++ [EvMediumPost (posts_endpoint E) post]) in Htr.
    apply last_request in Htr as (-> & Hev & ->);
      [|apply handling_puts_no_request; exact Hp|exact I].
    injection Hev as -> ->.
    change (trace w1 ++ EvHandling file :: puts)
      with (trace w1 ++ (EvHandling file :: puts)).
    rewrite Hresp. unfold respond. rewrite Herr.
    eexists. split; [reflexivity|]. split; reflexivity.
Qed.

Lemma C3_witness :
  let E := Sample.env [] (map Sample.file ["a"; "b"; "c"]) rejects_after_first in
  let body := process_file E "redirects.json" "upload-complete.csv" in
  let w1 := final_world (for_each [Sample.file "a"] body three_posts) in
  let p := mkMediumPost (JsString "A Post") "markdown" "2018-01-02T00:00:00.000Z" "World" in
  fs w1 !! "upload-complete.csv" = Some (Sample.file "a" +:+ NL)
  /\ exists w2,
       for_each ([Sample.file "a"] ++ Sample.file "b" :: [Sample.file "c"]) body three_posts
       = Exited 1 w2
       /\ fs w2 = fs w1
       /\ trace w2 = trace w1 ++ [EvHandling (Sample.file "b")]
                       ++ [EvMediumPost (posts_endpoint E) p].
Proof.
  intros E body w1 p. split; [vm_compute; reflexivity|].
  apply (C3_errors_end_the_run E "redirects.json" "upload-complete.csv"
           [Sample.file "a"] [Sample.file "c"] (Sample.file "b") three_posts w1
           [EvHandling (Sample.file "b")] [] (posts_endpoint E) p
           (mkResponse (Some ["Post rejected."]) None) ["Post rejected."]).
  - vm_compute. reflexivity.
  - vm_compute. reflexivity.
  - vm_compute. reflexivity.
  - reflexivity.
Defined.

(** ** C9: a dry run *)



Lemma fs_append_other path content files p :
  p <> path -> fs_append path content files !! p = files !! p.
Proof. intros H. unfold fs_append. apply lookup_insert_ne. congruence. Qed.





Lemma dryrun_not_query E : is_dryrun E = true -> is_publication_query E = false.
Proof.
  unfold is_dryrun, is_publication_query.
  destruct (process_argv E 2) as [|s]; [reflexivity|].
  intros ->%String.eqb_eq. reflexivity.
Qed.







(** ** C2: the completion ledger *)

Lemma string_app_assoc (a b c : string) : (a +:+ b) +:+ c = a +:+ b +:+ c.
Proof.
  induction a as [|x a IH]; [reflexivity|].
  change (String x ((a +:+ b) +:+ c) = String x (a +:+ b +:+ c)).
  rewrite IH. reflexivity.
Qed.

Lemma string_app_nil_r (a : string) : a +:+ EmptyString = a.
Proof.
  induction a as [|x a IH]; [reflexivity|].
  change (String x (a +:+ EmptyString) = String x a).
  rewrite IH. reflexivity.
Qed.


Lemma content_of_append_same path content files :
  content_of (fs_append path content files) path = content_of files path +:+ content.
Proof. unfold content_of, fs_append. rewrite lookup_insert_eq. reflexivity. Qed.

Lemma content_of_append_other path content files p :
  p <> path -> content_of (fs_append path content files) p = content_of files p.
Proof. intros H. unfold content_of. rewrite fs_append_other; auto. Qed.




Lemma no_handling_nil : no_handling [].
Proof. intros g Hg. apply elem_of_nil in Hg as []. Qed.

Lemma no_handling_app evs1 evs2 :
  no_handling evs1 -> no_handling evs2 -> no_handling (evs1 ++ evs2).
Proof. intros H1 H2 g [Hg|Hg]%elem_of_app; [exact (H1 g Hg)|exact (H2 g Hg)]. Qed.

Lemma reads_only_same {A} (c : M A) :
  (forall w, final_world (c w) = w) -> reads_only c.
Proof.
  intros H w. rewrite H. split; [reflexivity|].
  exists []. rewrite app_nil_r. split; [reflexivity|apply no_handling_nil].
Qed.

Lemma reads_only_bind {A B} (c : M A) (k : A -> M B) :
  reads_only c -> (forall a, reads_only (k a)) -> reads_only (c ≫= k).
Proof.
  intros Hc Hk w. rewrite bind_eq.
  destruct (Hc w) as (Hfs & evs & Htr & Hn).
  destruct (c w) as [a w1|code w1|e w1]; cbn [final_world] in *;
    [|split; [exact Hfs|exists evs; auto]..].
  destruct (Hk a w1) as (Hfs' & evs' & Htr' & Hn').
  split; [congruence|]. exists (evs ++ evs').
  rewrite Htr', Htr, app_assoc. split; [reflexivity|apply no_handling_app; assumption].
Qed.

Lemma reads_only_get endpoint : reads_only (emit (EvMediumGet endpoint)).
Proof.
  intros w. cbn. split; [reflexivity|]. exists [EvMediumGet endpoint].
  split; [reflexivity|]. intros g Hg. apply list_elem_of_singleton in Hg. discriminate.
Qed.

Lemma reads_only_fetched {A} (r : Fetched A) : reads_only (fetched r).
Proof. apply reads_only_same. intros w. destruct r; reflexivity. Qed.

Lemma reads_only_handleMediumErrors {A} (r : Response A) :
  reads_only (handleMediumErrors r).
Proof.
  apply reads_only_same. intros w. unfold handleMediumErrors.
  destruct (errors r); reflexivity.
Qed.

Lemma reads_only_query E :
  reads_only (A := unit)
    (userId ← getMediumUserId E;
     _ ← getMediumPublicationId E userId (to_string (process_argv E 3));
     process_exit 0).
Proof.
  apply reads_only_bind.
  { unfold getMediumUserId.
    apply reads_only_bind; [apply reads_only_same; reflexivity|]. intros tr.
    apply reads_only_bind; [apply reads_only_get|]. intros _.
    apply reads_only_bind; [apply reads_only_fetched|]. intros content.
    apply reads_only_bind; [apply reads_only_handleMediumErrors|]. intros _.
    apply reads_only_same. intros w. destruct (data content); reflexivity. }
  intros userId. apply reads_only_bind; [|intros; apply reads_only_same; reflexivity].
  unfold getMediumPublicationId.
  apply reads_only_bind; [apply reads_only_same; reflexivity|]. intros tr.
  apply reads_only_bind; [apply reads_only_get|]. intros _.
  apply reads_only_bind; [apply reads_only_fetched|]. intros content.
  apply reads_only_bind; [apply reads_only_handleMediumErrors|]. intros _.
  apply reads_only_same. intros w.
  destruct (data content) as [pubs|]; [|reflexivity].
  destruct (find _ pubs); reflexivity.
Qed.

Lemma cleanup_trace w : trace (final_world (cleanup w)) = trace w.
Proof.
  destruct w as [files tr]. unfold cleanup, readFileSync, unlinkSync.
  rewrite !bind_eq. cbn [fs trace].
  destruct (files !! dry_redirects) eqn:E1; [|reflexivity].
  rewrite !bind_eq. cbn [fs trace].
  destruct (files !! dry_completed) eqn:E2; [|reflexivity].
  rewrite !bind_eq. cbn [fs trace]. rewrite E1. cbn [fs trace].
  rewrite lookup_delete_ne, E2 by discriminate. reflexivity.
Qed.

Lemma final_world_then_ret (c : M unit) w :
  final_world ((c;; mret tt) w) = final_world (c w).
Proof. rewrite bind_eq. destruct (c w); reflexivity. Qed.







(** ** C8: idempotence of the transformer stages *)

(** *** How a global replacement proceeds *)

Lemma chars_str_chars s : chars_str (str_chars s) = s.
Proof. apply string_of_list_ascii_of_string. Qed.

Lemma str_chars_str l : str_chars (chars_str l) = l.
Proof. apply list_ascii_of_string_of_list_ascii. Qed.

(** An [exec] that finds a match splits the text after [lastIndex] into
    a part without match, the match and the rest. *)
Lemma exec_Some_inv re str li m li' :
  exec re str li = (Some m, li') ->
  exists p s',
    skipn li str = p ++ whole m ++ s'
    /\ skipn li' str = s'
    /\ li <= length str
    /\ index m = li + length p
    /\ li' = li + length p + length (whole m)
    /\ match_here str (flag_m re) (pattern re) (whole m ++ s') = Some (s', groups m)
    /\ forall p1 p2, p = p1 ++ p2 -> p2 <> [] ->
         match_here str (flag_m re) (pattern re) (p2 ++ whole m ++ s') = None.
Proof.
  unfold exec. intros H.
  destruct (length str <? li) eqn:El; [discriminate|]. apply Nat.ltb_ge in El.
  destruct (search str (flag_m re) (pattern re) (skipn li str)) as [mr|] eqn:Es;
    [|discriminate].
  injection H as <- <-.
  apply RegExpFacts.search_leftmost in Es as (p & w & s' & Hs & Hm & Hi & Hw & He & Hleft).
  subst w. exists p, s'.
  assert (Hlen : length str = li + (length p + (length (whole mr) + length s'))).
  { rewrite <- (firstn_skipn li str) at 1. rewrite Hs, !length_app, length_firstn. lia. }
  split; [exact Hs|]. split.
  { replace (endIndex mr) with (li + (length p + length (whole mr)))
      by (rewrite He; lia).
    rewrite <- drop_drop. change (drop li str) with (skipn li str). rewrite Hs.
    rewrite app_assoc, <- length_app. apply drop_app_length. }
  split; [exact El|]. split; [rewrite Hi, length_app; lia|].
  split; [rewrite He; lia|]. split; assumption.
Qed.

Lemma exec_None_inv re str li li' :
  exec re str li = (None, li') -> li <= length str ->
  forall p t, skipn li str = p ++ t ->
              match_here str (flag_m re) (pattern re) t = None.
Proof.
  unfold exec. intros H Hli.
  destruct (length str <? li) eqn:El; [apply Nat.ltb_lt in El; lia|].
  destruct (search str (flag_m re) (pattern re) (skipn li str)) eqn:Es; [discriminate|].
  apply RegExpFacts.search_None. exact Es.
Qed.

Lemma plain_no_dollar repl : "$"%char ∉ repl -> plain repl.
Proof.
  intros Hno matched before after. induction repl as [|c r IH]; [reflexivity|].
  apply not_elem_of_cons in Hno as [Hc Hr]. cbn [GetSubstitution].
  destruct (Ascii.eqb_spec c "$"); [congruence|]. rewrite IH; auto.
Qed.

(** One match of an expression that never matches the empty text: the
    text before it is copied, the replacement follows, and the scan goes
    on after the match. *)
Lemma replace_build_step str repl m rest li li' p s' acc :
  plain repl ->
  skipn li str = p ++ whole m ++ s' ->
  li <= length str ->
  index m = li + length p ->
  li' = li + length p + length (whole m) ->
  replace_build str repl (m :: rest) li acc
  = replace_build str repl rest li' (acc ++ p ++ repl).
Proof.
  intros Hplain Hs Hli Hi Hli'.
  assert (Hlen : length str = li + (length p + (length (whole m) + length s'))).
  { rewrite <- (firstn_skipn li str) at 1. rewrite Hs, !length_app, length_firstn. lia. }
  cbn [replace_build]. cbv zeta.
  rewrite Nat.min_l by lia.
  destruct (Nat.leb_spec li (index m)) as [_|Hlt]; [|lia].
  rewrite Hplain, Hs, Hi.
  replace (li + length p - li) with (length p) by lia.
  rewrite take_app_length. subst li'. reflexivity.
Qed.

(** *** Line breaks *)

Lemma cap_clear_nil cs : cap_clear [] cs = cs.
Proof.
  unfold cap_clear. induction cs as [|x cs IH]; [reflexivity|].
  change (x :: List.filter (fun p => negb (existsb (Nat.eqb (fst p)) [])) cs = x :: cs).
  rewrite IH. reflexivity.
Qed.

Lemma class_LF x : class_matches false [(LF, LF)] x = is_LF x.
Proof.
  unfold class_matches, in_range, is_LF. cbn [existsb fst snd xorb].
  rewrite orb_false_r.
  destruct (Ascii.eqb_spec x LF) as [->|Hne].
  - rewrite Nat.leb_refl. reflexivity.
  - destruct (Nat.leb_spec (nat_of_ascii LF) (nat_of_ascii x)) as [H1|H1]; [|reflexivity].
    destruct (Nat.leb_spec (nat_of_ascii x) (nat_of_ascii LF)) as [H2|H2]; [|reflexivity].
    exfalso. apply Hne. rewrite <- (ascii_nat_embedding x), <- (ascii_nat_embedding LF).
    f_equal. lia.
Qed.

(** The quantifier of [lineBreaksRegex] takes the whole run of line
    feeds, provided it is long enough. *)
Lemma rep_LF input ml fuel mn s cs :
  mn + length s <= fuel ->
  rep_loop (run input ml (Class false [(LF, LF)])) [] (fun s' cs' => Some (s', cs'))
    fuel mn None s cs
  = if mn <=? run_len s then Some (skipn (run_len s) s, cs) else None.
Proof.
  revert mn s cs. induction fuel as [|fuel IH]; intros mn s cs Hf.
  - assert (mn = 0) as -> by lia. destruct s; [reflexivity|simpl in Hf; lia].
  - cbn [rep_loop max_is_zero dec_max]. rewrite cap_clear_nil. cbn [run].
    destruct s as [|x s].
    + cbn [run_len]. destruct mn; reflexivity.
    + rewrite class_LF. cbn [run_len]. destruct (is_LF x) eqn:Ex.
      * replace (length s =? length (x :: s)) with false
          by (symmetry; apply Nat.eqb_neq; simpl; lia).
        rewrite andb_false_r. rewrite IH by (simpl in Hf; lia).
        destruct mn as [|mn]; cbn [pred Nat.leb Nat.eqb skipn].
        -- reflexivity.
        -- destruct (mn <=? run_len s); reflexivity.
      * destruct mn; reflexivity.
Qed.

Lemma match_here_lineBreaks input t :
  match_here input (flag_m lineBreaksRegex) (pattern lineBreaksRegex) t
  = if 3 <=? run_len t then Some (skipn (run_len t) t, []) else None.
Proof.
  exact (rep_LF input true (3 + length t) 3 t [] (le_n _)).
Qed.

Lemma run_len_whole t w s' :
  skipn (run_len t) t = s' -> t = w ++ s' -> length w = run_len t.
Proof.
  intros Hs Ht. apply (f_equal (@length ascii)) in Hs.
  rewrite length_skipn in Hs. apply (f_equal (@length ascii)) in Ht.
  rewrite length_app in Ht.
  assert (run_len t <= length t).
  { clear. induction t as [|x t IH]; cbn; [lia|]. destruct (is_LF x); cbn; lia. }
  lia.
Qed.

(** A stretch of text without a run of three line feeds is left as it
    is. *)
Lemma collapse_no_run p t :
  (forall p1 p2, p = p1 ++ p2 -> p2 <> [] -> run_len (p2 ++ t) < 3) ->
  collapse (p ++ t) = p ++ collapse t.
Proof.
  induction p as [|x p IH]; intros Hno; [reflexivity|].
  cbn [app collapse].
  assert (Hx : is_LF x && starts_with_two (p ++ t) = false).
  { specialize (Hno [] (x :: p) eq_refl ltac:(discriminate)).
    cbn [app run_len] in Hno. destruct (is_LF x); [|reflexivity].
    destruct (p ++ t) as [|a [|b l]]; [reflexivity..|].
    cbn [run_len starts_with_two andb] in *.
    destruct (is_LF a); [|reflexivity]. destruct (is_LF b); [lia|reflexivity]. }
  rewrite Hx. f_equal. apply IH.
  intros p1 p2 -> Hne. apply (Hno (x :: p1) p2); auto.
Qed.

(** A run of three line feeds or more becomes two. *)
Lemma collapse_run t :
  3 <= run_len t -> collapse t = LF :: LF :: collapse (skipn (run_len t) t).
Proof.
  induction t as [|x t IH]; cbn [run_len]; [lia|].
  destruct (is_LF x) eqn:Ex; [|lia]. intros Hrun.
  apply Ascii.eqb_eq in Ex as ->. cbn [skipn collapse].
  change (is_LF LF) with true. cbn [andb].
  destruct t as [|a [|b t]]; cbn [run_len] in Hrun.
  - lia.
  - destruct (is_LF a); lia.
  - cbn [starts_with_two].
    destruct (is_LF a) eqn:Ea; [|lia]. destruct (is_LF b) eqn:Eb; [|lia].
    cbn [andb]. apply Ascii.eqb_eq in Ea as ->. apply Ascii.eqb_eq in Eb as ->.
    destruct (Nat.le_gt_cases 3 (run_len (LF :: LF :: t))) as [H3|H3].
    + apply IH. exact H3.
    + (* exactly three *)
      cbn [run_len] in H3. change (is_LF LF) with true in H3. cbn iota in H3.
      assert (Ht : run_len t = 0) by lia.
      cbn [run_len]. change (is_LF LF) with true. cbn iota. rewrite Ht.
      cbn [skipn collapse]. change (is_LF LF) with true. cbn [andb].
      destruct t as [|c t']; [reflexivity|].
      cbn [run_len] in Ht. destruct (is_LF c) eqn:Ec; [lia|].
      cbn [starts_with_two]. rewrite Ec. cbn [andb].
      destruct t'; reflexivity.
Qed.

Lemma plain_two_LF : plain [LF; LF].
Proof.
  apply plain_no_dollar. intros H.
  repeat (apply elem_of_cons in H as [H|H]; [discriminate|]).
  apply elem_of_nil in H as [].
Qed.

Lemma lineBreaks_build str li acc :
  li <= length str ->
  replace_build str [LF; LF] (replace_matches str lineBreaksRegex li) li acc
  = acc ++ collapse (skipn li str).
Proof.
  remember (length str - li) as n eqn:Hn. revert li acc Hn.
  induction n as [n IH] using lt_wf_ind. intros li acc Hn Hli.
  rewrite replace_matches_step.
  destruct (exec lineBreaksRegex str li) as [[m|] li'] eqn:Hexec.
  - destruct (exec_Some_inv _ _ _ _ _ Hexec) as (p & s' & Hs & Hs' & _ & Hi & Hli' & Hm & Hleft).
    pose proof (RegExpFacts.exec_bounds _ _ _ _ _ Hexec) as (_ & _ & _ & Hend).
    rewrite match_here_lineBreaks in Hm.
    destruct (Nat.leb_spec 3 (run_len (whole m ++ s'))) as [Hrun|_]; [|discriminate].
    injection Hm as Hm _.
    pose proof (run_len_whole _ _ _ Hm eq_refl) as Hw.
    assert (Hne : exists c w, whole m = c :: w).
    { destruct (whole m) as [|c w]; [cbn in Hw, Hrun; lia|eauto]. }
    destruct Hne as (c & w & Hcw). rewrite Hcw at 1.
    rewrite (replace_build_step str [LF; LF] m _ li li' p s' acc plain_two_LF Hs Hli Hi Hli').
    rewrite (IH (length str - li')); [|lia|reflexivity|exact Hend].
    rewrite Hs', Hs. rewrite collapse_no_run.
    + rewrite (collapse_run (whole m ++ s') Hrun), Hm.
      rewrite <- !app_assoc. reflexivity.
    + intros p1 p2 Hp Hp2. specialize (Hleft p1 p2 Hp Hp2).
      rewrite match_here_lineBreaks in Hleft.
      destruct (Nat.leb_spec 3 (run_len (p2 ++ whole m ++ s'))); [discriminate|assumption].
  - cbn [replace_build]. f_equal.
    rewrite <- (app_nil_r (skipn li str)) at 2.
    rewrite collapse_no_run; [symmetry; apply app_nil_r|].
    intros p1 p2 Hp Hp2. rewrite app_nil_r.
    pose proof (exec_None_inv _ _ _ _ Hexec Hli p1 p2 Hp) as Hnone.
    rewrite match_here_lineBreaks in Hnone.
    destruct (Nat.leb_spec 3 (run_len p2)); [discriminate|assumption].
Qed.

(** [handleLineBreaks] cuts the runs of line feeds down to two. *)
Lemma handleLineBreaks_collapse content :
  handleLineBreaks content = chars_str (collapse (str_chars content)).
Proof.
  unfold handleLineBreaks, replace_all.
  change (str_chars (NL +:+ NL)) with [LF; LF].
  rewrite lineBreaks_build by lia. reflexivity.
Qed.

Lemma starts_with_two_eq c s : starts_with_two (c :: s) = is_LF c && starts_with_LF s.
Proof. destruct s; cbn; [rewrite andb_false_r|]; reflexivity. Qed.

Lemma collapse_starts_with_LF s : starts_with_LF (collapse s) = starts_with_LF s.
Proof.
  induction s as [|c s IH]; [reflexivity|]. cbn [collapse].
  destruct (is_LF c && starts_with_two s) eqn:Ed; [|reflexivity].
  apply andb_prop in Ed as [Ec Es]. rewrite IH. cbn [starts_with_LF]. rewrite Ec.
  destruct s as [|a s]; [discriminate|]. rewrite starts_with_two_eq in Es.
  apply andb_prop in Es as [Ea _]. exact Ea.
Qed.

Lemma collapse_starts_with_two s : starts_with_two (collapse s) = starts_with_two s.
Proof.
  induction s as [|c s IH]; [reflexivity|]. cbn [collapse].
  destruct (is_LF c && starts_with_two s) eqn:Ed.
  - apply andb_prop in Ed as [Ec Es]. rewrite IH, Es.
    rewrite starts_with_two_eq, Ec.
    destruct s as [|a s]; [discriminate|]. rewrite starts_with_two_eq in Es.
    apply andb_prop in Es as [Ea _]. cbn. rewrite Ea. reflexivity.
  - rewrite !starts_with_two_eq, collapse_starts_with_LF. reflexivity.
Qed.

Lemma collapse_idempotent s : collapse (collapse s) = collapse s.
Proof.
  induction s as [|c s IH]; [reflexivity|]. cbn [collapse].
  destruct (is_LF c && starts_with_two s) eqn:Ed; [exact IH|].
  cbn [collapse]. rewrite collapse_starts_with_two, Ed, IH. reflexivity.
Qed.

Lemma handleLineBreaks_idempotent content :
  handleLineBreaks (handleLineBreaks content) = handleLineBreaks content.
Proof.
  rewrite !handleLineBreaks_collapse, str_chars_str, collapse_idempotent. reflexivity.
Qed.

(** *** Stages that remove a pattern *)

Lemma replace_all_clean content regexp repl :
  no_match regexp content -> replace_all content regexp repl = content.
Proof.
  unfold no_match, replace_all. intros ->. cbn [replace_build app skipn].
  apply chars_str_chars.
Qed.

(** *** Stages that prepend *)

Lemma string_app_length (a b : string) :
  String.length (a +:+ b) = String.length a + String.length b.
Proof.
  induction a as [|x a IH]; [reflexivity|].
  change (S (String.length (a +:+ b)) = S (String.length a + String.length b)).
  rewrite IH. reflexivity.
Qed.

Lemma prepend_twice (prefix content : string) :
  prefix +:+ prefix +:+ content = prefix +:+ content -> prefix = EmptyString.
Proof.
  intros H. apply (f_equal String.length) in H. rewrite !string_app_length in H.
  destruct prefix; [reflexivity|]. cbn in H. lia.
Qed.

Lemma moveCardImageToContent_idempotent_iff post :
  (forall content,
     moveCardImageToContent post (moveCardImageToContent post content)
     = moveCardImageToContent post content)
  <-> truthy (card_url post) = false.
Proof.
  unfold moveCardImageToContent. split.
  - intros H. destruct (truthy (card_url post)); [|reflexivity].
    specialize (H EmptyString).
    set (prefix := "![](" +:+ to_string (card_url post) +:+ ")" +:+ NL +:+ NL).
    assert (Hp : forall c, "![](" +:+ to_string (card_url post) +:+ ")" +:+ NL +:+ NL +:+ c
                           = prefix +:+ c).
    { intros c. unfold prefix. rewrite !string_app_assoc. reflexivity. }
    rewrite !Hp in H. apply prepend_twice in H. discriminate H.
  - intros ->. reflexivity.
Qed.

Lemma handlePostAuthors_idempotent_iff post :
  (forall content,
     handlePostAuthors post (handlePostAuthors post content)
     = handlePostAuthors post content)
  <-> truthy (author post) = false.
Proof.
  unfold handlePostAuthors. split.
  - intros H. destruct (truthy (author post)); [|reflexivity].
    specialize (H EmptyString).
    set (prefix := "By: " +:+ to_string (author post) +:+ NL +:+ NL).
    assert (Hp : forall c, "By: " +:+ to_string (author post) +:+ NL +:+ NL +:+ c
                           = prefix +:+ c).
    { intros c. unfold prefix. rewrite !string_app_assoc. reflexivity. }
    rewrite !Hp in H. apply prepend_twice in H. discriminate H.
  - intros ->. reflexivity.
Qed.

(** C8, as stated, fails for four of the six stages: the two stages that
    prepend do it again on a second application, and removing a liquid
    class or a site-URL token can bring the two halves of another one
    together. *)
Lemma C8_counterexample :
  handlePostAuthors jane_post (handlePostAuthors jane_post "Hello")
    <> handlePostAuthors jane_post "Hello"
  /\ moveCardImageToContent jane_post (moveCardImageToContent jane_post "Hello")
    <> moveCardImageToContent jane_post "Hello"
  /\ handleLiquidClasses (handleLiquidClasses "{: .{: .a}a}")
    <> handleLiquidClasses "{: .{: .a}a}"
  /\ handleSiteUrl (handleSiteUrl "{{ site.base{{ site.baseurl }}url }}")
    <> handleSiteUrl "{{ site.base{{ site.baseurl }}url }}".
Proof.
  repeat split; vm_compute; intros H; discriminate H.
Qed.

(** *** The texts an expression matches *)

Lemma atom_run input ml r P :
  atom r = Some P ->
  groups_of r = []
  /\ forall s cs k,
       run input ml r s cs k
       = match s with
         | x :: s' => if P x then k s' cs else None
         | [] => None
         end.
Proof.
  destruct r; try discriminate; intros [= <-]; (split; [reflexivity|]);
    intros [|x s] cs k; try reflexivity.
  cbn. destruct (is_line_terminator x); reflexivity.
Qed.

Section RepAtom.

Variable body : chars -> captures -> cont -> option result.
Variable P : ascii -> bool.
Hypothesis Hbody :
  forall s cs k,
    body s cs k = match s with
                  | x :: s' => if P x then k s' cs else None
                  | [] => None
                  end.

(** What a quantified one-character atom matches is a stretch of
    characters that pass the test, of a length in the range. *)
Lemma rep_atom_sound k fuel mn mx s cs z :
  mn + length s <= fuel -> within mx mn ->
  rep_loop body [] k fuel mn mx s cs = Some z ->
  exists w s', s = w ++ s' /\ forallb P w = true /\ mn <= length w
               /\ within mx (length w) /\ k s' cs = Some z.
Proof using Hbody.
  revert mn mx s cs. induction fuel as [|fuel IH]; intros mn mx s cs Hf Hw H.
  - cbn in H. exists [], s. assert (mn = 0) as -> by lia.
    repeat split; auto; destruct mx; cbn in *; lia.
  - cbn [rep_loop] in H. destruct (max_is_zero mx) eqn:Ez.
    { destruct mx as [[|M]|]; try discriminate. cbn in Hw.
      exists [], s. repeat split; auto; cbn; lia. }
    rewrite cap_clear_nil, Hbody in H.
    assert (Hstop : (if mn =? 0 then k s cs else None) = Some z ->
              exists w s', s = w ++ s' /\ forallb P w = true /\ mn <= length w
                           /\ within mx (length w) /\ k s' cs = Some z).
    { destruct (Nat.eqb_spec mn 0) as [->|]; [|discriminate]. intros Hk.
      exists [], s. repeat split; auto; destruct mx; cbn in *; lia. }
    destruct s as [|x s]; [exact (Hstop H)|].
    destruct (P x) eqn:Ex; [|exact (Hstop H)].
    replace (length s =? length (x :: s)) with false in H
      by (symmetry; apply Nat.eqb_neq; simpl; lia).
    rewrite andb_false_r in H.
    destruct (rep_loop body [] k fuel (pred mn) (dec_max mx) s cs) as [z'|] eqn:Erec;
      [|exact (Hstop H)].
    injection H as ->.
    apply IH in Erec as (w & s' & -> & Hall & Hmn & Hmx & Hk).
    + exists (x :: w), s'. cbn [app forallb length]. rewrite Ex, Hall.
      repeat split; auto; [lia|].
      destruct mx as [[|M]|]; cbn in *; try discriminate; auto; lia.
    + simpl in Hf. lia.
    + destruct mx as [[|M]|]; cbn in *; try discriminate; auto; lia.
Qed.

Lemma rep_atom_complete k fuel mn mx w s' cs :
  mn + length (w ++ s') <= fuel ->
  forallb P w = true -> mn <= length w -> within mx (length w) ->
  k s' cs <> None ->
  rep_loop body [] k fuel mn mx (w ++ s') cs <> None.
Proof using Hbody.
  revert mn mx w. induction fuel as [|fuel IH]; intros mn mx w Hf Hall Hmn Hmx Hk.
  - rewrite length_app in Hf. destruct w; [exact Hk|simpl in Hf; lia].
  - cbn [rep_loop]. destruct (max_is_zero mx) eqn:Ez.
    { destruct mx as [[|M]|]; try discriminate. cbn in Hmx.
      destruct w; [exact Hk|simpl in Hmx; lia]. }
    rewrite cap_clear_nil, Hbody.
    destruct w as [|x w]; cbn [app].
    + assert (mn = 0) as -> by (simpl in Hmn; lia). cbn [Nat.eqb].
      destruct s' as [|y s']; [exact Hk|].
      destruct (P y); [|exact Hk].
      match goal with |- match ?e with _ => _ end <> None => destruct e end;
        [discriminate|exact Hk].
    + cbn [forallb] in Hall. apply andb_prop in Hall as [Ex Hall]. rewrite Ex.
      replace (length (w ++ s') =? length (x :: w ++ s')) with false
        by (symmetry; apply Nat.eqb_neq; simpl; lia).
      rewrite andb_false_r.
      assert (Hrec : rep_loop body [] k fuel (pred mn) (dec_max mx) (w ++ s') cs <> None).
      { apply IH; auto.
        - simpl in Hf. lia.
        - simpl in Hmn. lia.
        - destruct mx as [[|M]|]; cbn in *; try discriminate; auto; lia. }
      destruct (rep_loop body [] k fuel (pred mn) (dec_max mx) (w ++ s') cs);
        [discriminate|contradiction].
Qed.

End RepAtom.

(** The matcher succeeds on a simple expression exactly on the texts
    that start with a text of its language, with a continuation that
    succeeds on what follows. *)
Lemma run_sound input ml r :
  simple r ->
  forall s cs k z,
    run input ml r s cs k = Some z ->
    exists w s', s = w ++ s' /\ lang r w /\ k s' cs = Some z.
Proof.
  induction r as [c| |neg rs|r1 IH1 r2 IH2|r1 IH1 r2 IH2|mn mx r IH|i r IH| | |];
    intros Hs s cs k z H; cbn [simple] in Hs; try contradiction.
  - cbn in H. destruct s as [|x s]; [discriminate|].
    destruct (Ascii.eqb_spec x c) as [->|]; [|discriminate].
    exists [c], s. repeat split; auto.
  - cbn in H. destruct s as [|x s]; [discriminate|].
    destruct (is_line_terminator x) eqn:Ex; [discriminate|].
    exists [x], s. repeat split; eauto. cbn. eauto.
  - cbn in H. destruct s as [|x s]; [discriminate|].
    destruct (class_matches neg rs x) eqn:Ex; [|discriminate].
    exists [x], s. repeat split; eauto. cbn. eauto.
  - destruct Hs as [Hs1 Hs2]. cbn [run] in H.
    apply (IH1 Hs1) in H as (w1 & s1 & -> & Hl1 & H).
    apply (IH2 Hs2) in H as (w2 & s2 & -> & Hl2 & H).
    exists (w1 ++ w2), s2. rewrite <- app_assoc. repeat split; auto.
    cbn. eauto.
  - destruct Hs as [Hs1 Hs2]. cbn [run] in H.
    destruct (run input ml r1 s cs k) eqn:E1.
    + injection H as ->. apply (IH1 Hs1) in E1 as (w & s' & -> & Hl & Hk).
      exists w, s'. repeat split; auto. cbn. auto.
    + apply (IH2 Hs2) in H as (w & s' & -> & Hl & Hk).
      exists w, s'. repeat split; auto. cbn. auto.
  - destruct Hs as [Ha Hw]. destruct (atom r) as [P|] eqn:Eatom; [|contradiction].
    destruct (atom_run input ml r P Eatom) as [Hg Hbody].
    cbn [run] in H. rewrite Hg in H.
    apply (rep_atom_sound _ P Hbody) in H as (w & s' & -> & Hall & Hmn & Hmx & Hk);
      [|lia|exact Hw].
    exists w, s'. repeat split; auto. cbn. exists P. auto.
  - cbn in H. exists [], s. repeat split; auto.
Qed.

Lemma run_complete input ml r :
  simple r ->
  forall w s' cs k,
    lang r w -> k s' cs <> None -> run input ml r (w ++ s') cs k <> None.
Proof.
  induction r as [c| |neg rs|r1 IH1 r2 IH2|r1 IH1 r2 IH2|mn mx r IH|i r IH| | |];
    intros Hs w s' cs k Hl Hk; cbn [simple] in Hs; cbn [lang] in Hl; try contradiction.
  - subst w. cbn. rewrite Ascii.eqb_refl. exact Hk.
  - destruct Hl as (x & -> & Hx). cbn. rewrite Hx. exact Hk.
  - destruct Hl as (x & -> & Hx). cbn. rewrite Hx. exact Hk.
  - destruct Hs as [Hs1 Hs2]. destruct Hl as (w1 & w2 & -> & Hl1 & Hl2).
    cbn [run]. rewrite <- app_assoc. apply (IH1 Hs1); [exact Hl1|].
    apply (IH2 Hs2); assumption.
  - destruct Hs as [Hs1 Hs2]. cbn [run].
    destruct (run input ml r1 (w ++ s') cs k) eqn:E1; [discriminate|].
    destruct Hl as [Hl|Hl].
    + exfalso. apply (IH1 Hs1 w s' cs k Hl Hk). exact E1.
    + apply (IH2 Hs2); assumption.
  - destruct Hs as [Ha Hw]. destruct Hl as (P & Eatom & Hall & Hmn & Hmx).
    destruct (atom_run input ml r P Eatom) as [Hg Hbody].
    cbn [run]. rewrite Hg.
    apply (rep_atom_complete _ P Hbody); auto.
  - subst w. exact Hk.
Qed.

Lemma match_here_sound input ml r t s' cs :
  simple r -> match_here input ml r t = Some (s', cs) ->
  exists w, t = w ++ s' /\ lang r w.
Proof.
  intros Hs H. apply (run_sound _ _ _ Hs) in H as (w & s1 & -> & Hl & Hk).
  injection Hk as -> _. eauto.
Qed.

Lemma match_here_None input ml r t :
  simple r -> match_here input ml r t = None -> ~ has_prefix_in (lang r) t.
Proof.
  intros Hs H (w & s' & -> & Hl).
  apply (run_complete input ml r Hs w s' [] (fun s1 cs1 => Some (s1, cs1)) Hl);
    [discriminate|exact H].
Qed.

Lemma match_here_Some input ml r t :
  simple r -> has_prefix_in (lang r) t -> match_here input ml r t <> None.
Proof.
  intros Hs Hp H. exact (match_here_None _ _ _ _ Hs H Hp).
Qed.

(** *** The shape of a global replacement *)

Lemma replace_build_rewrites re str repl li acc :
  simple (pattern re) -> ~ lang (pattern re) [] -> plain repl ->
  li <= length str ->
  exists out,
    replace_build str repl (replace_matches str re li) li acc = acc ++ out
    /\ rewrites (lang (pattern re)) repl (skipn li str) out.
Proof.
  intros Hsimple Hne Hplain.
  remember (length str - li) as n eqn:Hn. revert li acc Hn.
  induction n as [n IH] using lt_wf_ind. intros li acc Hn Hli.
  rewrite replace_matches_step.
  destruct (exec re str li) as [[m|] li'] eqn:Hexec.
  - destruct (exec_Some_inv _ _ _ _ _ Hexec) as (p & s' & Hs & Hs' & _ & Hi & Hli' & Hm & Hleft).
    pose proof (RegExpFacts.exec_bounds _ _ _ _ _ Hexec) as (_ & _ & _ & Hend).
    destruct (match_here_sound _ _ _ _ _ _ Hsimple Hm) as (w & Hw & Hlang).
    apply app_inv_tail in Hw. subst w.
    destruct (whole m) as [|c w] eqn:Hcw; [contradiction|]. rewrite <- Hcw in *.
    assert (Hlen : 0 < length (whole m)) by (rewrite Hcw; simpl; lia).
    rewrite (replace_build_step str repl m _ li li' p s' acc Hplain Hs Hli Hi Hli').
    destruct (IH (length str - li') ltac:(lia) li' (acc ++ p ++ repl) eq_refl Hend)
      as (out & Hbuild & Hrw).
    exists (p ++ repl ++ out). split.
    + rewrite Hbuild, <- !app_assoc. reflexivity.
    + rewrite Hs. rewrite Hs' in Hrw. apply rw_match; auto.
      intros p1 p2 Hp Hp2. apply (match_here_None str (flag_m re)); eauto.
  - exists (skipn li str). split; [reflexivity|].
    apply rw_none. intros p t' Ht. apply (match_here_None str (flag_m re)); auto.
    eapply exec_None_inv; eauto.
Qed.

Lemma replace_all_rewrites content re repl :
  simple (pattern re) -> ~ lang (pattern re) [] -> plain (str_chars repl) ->
  rewrites (lang (pattern re)) (str_chars repl) (str_chars content)
    (str_chars (replace_all content re repl)).
Proof.
  intros Hsimple Hne Hplain. unfold replace_all.
  destruct (replace_build_rewrites re (str_chars content) (str_chars repl) 0 []
              Hsimple Hne Hplain ltac:(lia)) as (out & -> & Hrw).
  rewrite str_chars_str. exact Hrw.
Qed.

Lemma search_None_intro input ml r s :
  (forall p t, s = p ++ t -> match_here input ml r t = None) ->
  search input ml r s = None.
Proof.
  induction s as [|x s IH]; intros H; rewrite RegExpFacts.search_eq.
  - rewrite (H [] [] eq_refl). reflexivity.
  - rewrite (H [] (x :: s) eq_refl). apply IH.
    intros p t ->. apply (H (x :: p)). reflexivity.
Qed.

(** A content without a text of the language at any position is left as
    it is. *)
Lemma replace_all_without_match content re repl :
  simple (pattern re) ->
  (forall p t, str_chars content = p ++ t -> ~ has_prefix_in (lang (pattern re)) t) ->
  replace_all content re repl = content.
Proof.
  intros Hsimple Hclean. apply replace_all_clean. unfold no_match.
  rewrite replace_matches_step. unfold exec. cbn [Nat.ltb Nat.leb skipn].
  rewrite search_None_intro; [reflexivity|].
  intros p t Ht.
  destruct (match_here (str_chars content) (flag_m re) (pattern re) t) as [[s' cs]|] eqn:E;
    [|reflexivity].
  exfalso. apply (Hclean p t Ht).
  destruct (match_here_sound _ _ _ _ _ _ Hsimple E) as (w & -> & Hl).
  exists w, s'. auto.
Qed.

(** *** Code fences *)

Lemma strip_prefix_spec lit t t' : strip_prefix lit t = Some t' <-> t = lit ++ t'.
Proof.
  revert t. induction lit as [|a lit IH]; intros t; cbn [strip_prefix app].
  - split; congruence.
  - destruct t as [|b t]; [split; discriminate|].
    destruct (Ascii.eqb_spec a b) as [->|Hne].
    + rewrite IH. split; congruence.
    + split; [discriminate|]. intros [= -> _]. contradiction.
Qed.

Lemma lang_Lit s w : lang (Lit s) w <-> w = str_chars s.
Proof.
  revert w. induction s as [|c s IH]; intros w; [reflexivity|].
  destruct s as [|c' s]; [reflexivity|].
  change (Lit (String c (String c' s))) with (Seq (Chr c) (Lit (String c' s))).
  cbn [lang]. split.
  - intros (w1 & w2 & -> & -> & Hw2). apply IH in Hw2 as ->. reflexivity.
  - intros ->. exists [c], (str_chars (String c' s)). repeat split. apply IH. reflexivity.
Qed.

Lemma has_prefix_Seq_Lit s r t :
  has_prefix_in (lang (Seq (Lit s) r)) t
  <-> exists t', strip_prefix (str_chars s) t = Some t' /\ has_prefix_in (lang r) t'.
Proof.
  split.
  - intros (w & s' & -> & w1 & w2 & -> & Hw1 & Hw2). apply lang_Lit in Hw1 as ->.
    exists (w2 ++ s'). split; [apply strip_prefix_spec; apply app_assoc_reverse_deprecated|].
    exists w2, s'. auto.
  - intros (t' & Hstrip & w2 & s' & -> & Hw2). apply strip_prefix_spec in Hstrip as ->.
    exists (str_chars s ++ w2), s'. rewrite <- app_assoc. split; [reflexivity|].
    exists (str_chars s), w2. repeat split; auto. apply lang_Lit. reflexivity.
Qed.

Lemma has_prefix_Lit s t :
  has_prefix_in (lang (Lit s)) t <-> exists t', strip_prefix (str_chars s) t = Some t'.
Proof.
  split.
  - intros (w & s' & -> & Hw). apply lang_Lit in Hw as ->.
    exists s'. apply strip_prefix_spec. reflexivity.
  - intros (t' & Hstrip). apply strip_prefix_spec in Hstrip as ->.
    exists (str_chars s), t'. split; [reflexivity|]. apply lang_Lit. reflexivity.
Qed.

Lemma lang_Opt_space a : lang (Opt space) a <-> a = [] \/ a = [" "%char].
Proof.
  cbn. split.
  - intros (P & [= <-] & Hall & _ & Hlen).
    destruct a as [|x [|y a]]; [auto| |simpl in Hlen; lia].
    cbn in Hall. rewrite andb_true_r in Hall. apply Ascii.eqb_eq in Hall as ->. auto.
  - intros [->| ->]; eexists; (split; [reflexivity|]); cbn; repeat split; lia.
Qed.

(** An optional space before an expression whose texts do not start with
    a space. *)
Lemma has_prefix_Seq_Opt_space r t :
  (forall w, lang r w -> exists c w', w = c :: w' /\ c <> " "%char) ->
  has_prefix_in (lang (Seq (Opt space) r)) t <-> has_prefix_in (lang r) (skip_space t).
Proof.
  intros Hr. split.
  - intros (w & s' & -> & a & w2 & -> & Ha & Hw2).
    destruct (Hr w2 Hw2) as (c & w' & -> & Hc).
    apply lang_Opt_space in Ha as [->| ->]; cbn [app skip_space].
    + destruct (Ascii.eqb_spec c " "); [contradiction|]. exists (c :: w'), s'. auto.
    + exists (c :: w'), s'. auto.
  - intros (w2 & s' & Ht & Hw2). destruct (Hr w2 Hw2) as (c & w' & -> & Hc).
    destruct t as [|x t]; [discriminate|]. cbn [skip_space] in Ht.
    destruct (Ascii.eqb_spec x " ") as [->|Hx].
    + exists (" "%char :: c :: w'), s'. rewrite Ht. split; [reflexivity|].
      exists [" "%char], (c :: w'). repeat split; auto. apply lang_Opt_space. auto.
    + exists (c :: w'), s'. split; [exact Ht|].
      exists [], (c :: w'). repeat split; auto. apply lang_Opt_space. auto.
Qed.

Lemma closes_spec t :
  closes t = true
  <-> exists v rest, t = v ++ "%"%char :: "}"%char :: rest /\ forallb not_terminator v = true.
Proof.
  induction t as [|x t IH]; cbn [closes].
  - split; [discriminate|]. intros (v & rest & H & _). destruct v; discriminate.
  - destruct (Ascii.eqb x "%" && starts_with "}" t) eqn:Eh.
    + split; [|reflexivity]. intros _. apply andb_prop in Eh as [Ex Et].
      apply Ascii.eqb_eq in Ex as ->. destruct t as [|y t]; [discriminate|].
      cbn in Et. apply Ascii.eqb_eq in Et as ->. exists [], t. auto.
    + destruct (is_line_terminator x) eqn:El.
      * split; [discriminate|]. intros (v & rest & H & Hv).
        destruct v as [|y v]; cbn in H; injection H as -> H.
        -- discriminate.
        -- cbn in Hv. unfold not_terminator in Hv at 1. rewrite El in Hv. discriminate.
      * rewrite IH. split.
        -- intros (v & rest & -> & Hv). exists (x :: v), rest. split; [reflexivity|].
           cbn. unfold not_terminator at 1. rewrite El. exact Hv.
        -- intros (v & rest & H & Hv). destruct v as [|y v]; cbn in H; injection H as -> H.
           ++ subst t. cbn in Eh. discriminate.
           ++ exists v, rest. cbn in Hv. apply andb_prop in Hv as [_ Hv]. auto.
Qed.

Lemma has_prefix_highlight_tail t :
  has_prefix_in (lang highlight_tail) t <-> closes t = true.
Proof.
  rewrite closes_spec. split.
  - intros (w & s' & -> & a & w1 & -> & Ha & u & w2 & -> & Hu & c & w3 & -> & Hc & Hw3).
    apply (lang_Lit "%}") in Hw3 as ->.
    destruct Hu as (P & [= <-] & Hu & _).
    exists (a ++ u ++ c), s'. split; [rewrite <- !app_assoc; reflexivity|].
    change (forallb not_terminator u = true) in Hu. rewrite !forallb_app, Hu.
    apply lang_Opt_space in Ha as [->| ->]; apply lang_Opt_space in Hc as [->| ->];
      reflexivity.
  - intros (v & rest & -> & Hv).
    exists (v ++ ["%"; "}"]%char), rest. rewrite <- app_assoc. split; [reflexivity|].
    exists [], (v ++ ["%"; "}"]%char). split; [reflexivity|].
    split; [apply lang_Opt_space; auto|].
    exists v, ["%"; "}"]%char. split; [reflexivity|]. split.
    { exists not_terminator. repeat split; auto. lia. }
    exists [], ["%"; "}"]%char. split; [reflexivity|].
    split; [apply lang_Opt_space; auto|]. apply (lang_Lit "%}"). reflexivity.
Qed.

Lemma lit_then_true lit g t :
  lit_then lit g t = true <-> exists t', strip_prefix lit t = Some t' /\ g t' = true.
Proof.
  unfold lit_then. destruct (strip_prefix lit t) as [t'|].
  - split; [eauto|]. intros (t'' & [= <-] & H). exact H.
  - split; [discriminate|]. intros (t'' & H & _). discriminate.
Qed.

Lemma lang_Seq_Lit_head c s r w :
  lang (Seq (Lit (String c s)) r) w -> exists w', w = c :: w'.
Proof.
  intros (w1 & w2 & -> & Hw1 & _). apply lang_Lit in Hw1 as ->. cbn. eauto.
Qed.

Lemma has_prefix_highlight t :
  has_prefix_in (lang (pattern highlightRegex)) t <-> starts_highlight t = true.
Proof.
  change (pattern highlightRegex)
    with (Seq (Lit "{%") (Seq (Opt space) (Seq (Lit "highlight") highlight_tail))).
  unfold starts_highlight. rewrite has_prefix_Seq_Lit, lit_then_true.
  split; intros (t1 & Hs & H); exists t1; (split; [exact Hs|]); revert H;
    unfold opt_space_then;
    (rewrite has_prefix_Seq_Opt_space;
     [|intros w Hw; apply lang_Seq_Lit_head in Hw as [w' ->]; eexists _, _;
       split; [reflexivity|discriminate]]);
    rewrite has_prefix_Seq_Lit, lit_then_true;
    intros (t2 & Hs2 & H); exists t2; (split; [exact Hs2|]);
    apply has_prefix_highlight_tail; exact H.
Qed.

Lemma has_prefix_endhighlight t :
  has_prefix_in (lang (pattern endhighlightRegex)) t <-> starts_endhighlight t = true.
Proof.
  change (pattern endhighlightRegex)
    with (Seq (Lit "{%") (Seq (Opt space) (Seq (Lit "endhighlight")
                                              (Seq (Opt space) (Lit "%}"))))).
  unfold starts_endhighlight. rewrite has_prefix_Seq_Lit, lit_then_true.
  split; intros (t1 & Hs & H); exists t1; (split; [exact Hs|]); revert H;
    unfold opt_space_then;
    (rewrite has_prefix_Seq_Opt_space;
     [|intros w Hw; apply lang_Seq_Lit_head in Hw as [w' ->]; eexists _, _;
       split; [reflexivity|discriminate]]);
    rewrite has_prefix_Seq_Lit, lit_then_true;
    intros (t2 & Hs2 & H); exists t2; (split; [exact Hs2|]); revert H;
    (rewrite has_prefix_Seq_Opt_space;
     [|intros w Hw; apply (lang_Lit "%}") in Hw as ->; eexists _, _;
       split; [reflexivity|discriminate]]);
    rewrite has_prefix_Lit, lit_then_true;
    intros (t3 & H); [exists t3; auto|destruct H as [H _]; eauto].
Qed.

Lemma transfers_true Y B : transfers (fun _ => true) Y B.
Proof. intros p _. reflexivity. Qed.

Lemma transfers_closes Y B : closes B = true -> transfers closes Y B.
Proof.
  intros HB p. induction p as [|x p IH]; cbn [app]; [intros _; exact HB|].
  cbn [closes]. destruct (Ascii.eqb x "%") eqn:Ex; cbn [andb].
  - destruct p as [|y p]; cbn [app starts_with].
    + change (Ascii.eqb BT "}") with false. cbv iota.
      destruct (is_line_terminator x); [discriminate|]. intros _.
      destruct (starts_with "}" B); [reflexivity|exact HB].
    + destruct (Ascii.eqb y "}"); [reflexivity|].
      destruct (is_line_terminator x); [discriminate|]. exact IH.
  - destruct (is_line_terminator x); [discriminate|]. exact IH.
Qed.

Lemma transfers_lit lit g Y B :
  BT ∉ lit -> transfers g Y B -> transfers (lit_then lit g) Y B.
Proof.
  intros Hlit Hg. unfold lit_then.
  induction lit as [|a lit IH]; intros p; cbn [strip_prefix]; [apply Hg|].
  apply not_elem_of_cons in Hlit as [Ha Hlit].
  destruct p as [|x p]; cbn [app].
  - destruct (Ascii.eqb_spec a BT); [congruence|discriminate].
  - destruct (Ascii.eqb a x); [apply IH; exact Hlit|discriminate].
Qed.

Lemma transfers_opt_space g Y B :
  skip_space B = B -> transfers g Y B -> transfers (opt_space_then g) Y B.
Proof.
  intros HB Hg p. unfold opt_space_then. destruct p as [|x p]; cbn [app skip_space].
  - change (Ascii.eqb BT " ") with false. cbv iota. rewrite HB. apply (Hg []).
  - destruct (Ascii.eqb x " "); [apply Hg|apply (Hg (x :: p))].
Qed.

Lemma not_in_literal (c : ascii) (lit : chars) :
  forallb (fun x => negb (Ascii.eqb x c)) lit = true -> c ∉ lit.
Proof.
  intros H Hin. rewrite forallb_forall in H.
  apply list_elem_of_In in Hin. apply H in Hin. rewrite Ascii.eqb_refl in Hin. discriminate.
Qed.

Lemma transfers_starts_highlight Y B :
  closes B = true -> skip_space B = B -> transfers starts_highlight Y B.
Proof.
  intros Hc Hs. unfold starts_highlight.
  apply transfers_lit; [apply not_in_literal; reflexivity|].
  apply transfers_opt_space; [exact Hs|].
  apply transfers_lit; [apply not_in_literal; reflexivity|].
  apply transfers_closes. exact Hc.
Qed.

Lemma transfers_starts_endhighlight Y B :
  skip_space B = B -> transfers starts_endhighlight Y B.
Proof.
  intros Hs. unfold starts_endhighlight.
  apply transfers_lit; [apply not_in_literal; reflexivity|].
  apply transfers_opt_space; [exact Hs|].
  apply transfers_lit; [apply not_in_literal; reflexivity|].
  apply transfers_opt_space; [exact Hs|].
  apply transfers_lit; [apply not_in_literal; reflexivity|].
  apply transfers_true.
Qed.

Lemma highlight_tag_like w s' : lang (pattern highlightRegex) w -> tag_like (w ++ s').
Proof.
  intros Hw.
  assert (H : starts_highlight (w ++ s') = true).
  { apply has_prefix_highlight. exists w, s'. auto. }
  unfold starts_highlight in H.
  apply lit_then_true in H as (t1 & H1 & H). apply strip_prefix_spec in H1.
  rewrite H1. unfold opt_space_then in H.
  apply lit_then_true in H as (t2 & H2 & H). apply strip_prefix_spec in H2.
  split; [|reflexivity].
  destruct t1 as [|x t1]; [discriminate|]. cbn [skip_space] in H2.
  destruct (Ascii.eqb_spec x " ") as [->|Hx].
  - rewrite H2. exact H.
  - rewrite H2. exact H.
Qed.

Lemma endhighlight_tag_like w s' : lang (pattern endhighlightRegex) w -> tag_like (w ++ s').
Proof.
  intros Hw.
  assert (H : starts_endhighlight (w ++ s') = true).
  { apply has_prefix_endhighlight. exists w, s'. auto. }
  unfold starts_endhighlight in H.
  apply lit_then_true in H as (t1 & H1 & H). apply strip_prefix_spec in H1.
  rewrite H1. unfold opt_space_then in H.
  apply lit_then_true in H as (t2 & H2 & H). apply strip_prefix_spec in H2.
  apply lit_then_true in H as (t3 & H3 & _). apply strip_prefix_spec in H3.
  split; [|reflexivity].
  assert (Hc : closes (str_chars "endhighlight" ++ t2) = true).
  { destruct t2 as [|y t2]; [discriminate|]. cbn [skip_space] in H3.
    destruct (Ascii.eqb_spec y " ") as [->|Hy]; rewrite H3; reflexivity. }
  destruct t1 as [|x t1]; [discriminate|]. cbn [skip_space] in H2.
  destruct (Ascii.eqb_spec x " ") as [->|Hx]; rewrite H2; exact Hc.
Qed.

Lemma clean_cons test x X : test (x :: X) = false -> clean test X -> clean test (x :: X).
Proof.
  intros Hx HX p t' Ht. destruct p as [|y p]; cbn in Ht.
  - subst t'. exact Hx.
  - injection Ht as _ Ht. exact (HX p t' Ht).
Qed.

Lemma clean_app test p X :
  clean test X ->
  (forall p1 p2, p = p1 ++ p2 -> p2 <> [] -> test (p2 ++ X) = false) ->
  clean test (p ++ X).
Proof.
  intros HX. induction p as [|x p IH]; intros Hp; [exact HX|].
  cbn [app]. apply clean_cons.
  - apply (Hp [] (x :: p)); [reflexivity|discriminate].
  - apply IH. intros p1 p2 -> Hne. apply (Hp (x :: p1) p2); auto.
Qed.

Lemma clean_suffix test p X : clean test (p ++ X) -> clean test X.
Proof. intros H q t' ->. apply (H (p ++ q)). apply app_assoc. Qed.

Section Fences.

Variable L : chars -> Prop.
Variable test : chars -> bool.
Hypothesis L_tag_like : forall w s', L w -> tag_like (w ++ s').
Hypothesis test_transfers : forall Y B, tag_like B -> transfers test Y B.
Hypothesis test_backtick : forall Y, test (BT :: Y) = false.

Lemma clean_fence p w s' out :
  L w -> clean test out ->
  (forall p1 p2, p = p1 ++ p2 -> p2 <> [] -> test (p2 ++ w ++ s') = false) ->
  clean test (p ++ [BT; BT; BT] ++ out).
Proof using L_tag_like test_transfers test_backtick.
  intros Hw Hout Hp. apply clean_app.
  - cbn [app]. repeat (apply clean_cons; [apply test_backtick|]). exact Hout.
  - intros p1 p2 Hp12 Hne. specialize (Hp p1 p2 Hp12 Hne).
    destruct (test (p2 ++ [BT; BT; BT] ++ out)) eqn:E; [|reflexivity].
    apply (test_transfers _ (w ++ s') (L_tag_like w s' Hw)) in E. congruence.
Qed.

(** Replacing the texts of [L] by a fence keeps a text clean for the
    test. *)
Lemma rewrites_keeps_clean t out :
  rewrites L [BT; BT; BT] t out -> clean test t -> clean test out.
Proof using L_tag_like test_transfers test_backtick.
  induction 1 as [t Hnone|p w s' out Hw Hleft Hrw IH]; intros Hclean; [exact Hclean|].
  apply (clean_fence p w s' out Hw).
  - apply IH. apply (clean_suffix test (p ++ w)). rewrite <- app_assoc. exact Hclean.
  - intros p1 p2 -> Hne. apply (Hclean p1). rewrite <- app_assoc. reflexivity.
Qed.

(** When the test recognises the texts of [L], the result of the
    replacement is clean. *)
Lemma rewrites_makes_clean t out :
  (forall t, has_prefix_in L t <-> test t = true) ->
  rewrites L [BT; BT; BT] t out -> clean test out.
Proof using L_tag_like test_transfers test_backtick.
  intros Hiff. induction 1 as [t Hnone|p w s' out Hw Hleft Hrw IH].
  - intros p t' Ht. specialize (Hnone p t' Ht). rewrite Hiff in Hnone.
    destruct (test t'); [contradiction|reflexivity].
  - apply (clean_fence p w s' out Hw IH).
    intros p1 p2 Hp Hne. specialize (Hleft p1 p2 Hp Hne). rewrite Hiff in Hleft.
    destruct (test (p2 ++ w ++ s')); [contradiction|reflexivity].
Qed.

End Fences.

Lemma simple_highlight : simple (pattern highlightRegex).
Proof. cbn. repeat split; try discriminate; lia. Qed.

Lemma simple_endhighlight : simple (pattern endhighlightRegex).
Proof. cbn. repeat split; try discriminate; lia. Qed.

Lemma highlight_nonempty : ~ lang (pattern highlightRegex) [].
Proof.
  intros H. apply (lang_Seq_Lit_head "{" "%") in H as [w' H]. discriminate.
Qed.

Lemma endhighlight_nonempty : ~ lang (pattern endhighlightRegex) [].
Proof.
  intros H. apply (lang_Seq_Lit_head "{" "%") in H as [w' H]. discriminate.
Qed.

Lemma plain_fence : plain (str_chars "```").
Proof. apply plain_no_dollar, not_in_literal. reflexivity. Qed.

(** [handleCodeBlocks] is idempotent: after it no opening tag closed on
    its line and no closing tag is left. *)
Lemma handleCodeBlocks_idempotent content :
  handleCodeBlocks (handleCodeBlocks content) = handleCodeBlocks content.
Proof.
  unfold handleCodeBlocks.
  set (d1 := replace_all content highlightRegex "```").
  set (d2 := replace_all d1 endhighlightRegex "```").
  pose proof (replace_all_rewrites content highlightRegex "```"
                simple_highlight highlight_nonempty plain_fence) as Hrw1.
  pose proof (replace_all_rewrites d1 endhighlightRegex "```"
                simple_endhighlight endhighlight_nonempty plain_fence) as Hrw2.
  fold d1 in Hrw1. fold d2 in Hrw2.
  assert (Hc1 : clean starts_highlight (str_chars d1)).
  { eapply rewrites_makes_clean; [| | |exact has_prefix_highlight|exact Hrw1].
    - exact highlight_tag_like.
    - intros Y B [Hc Hs]. apply transfers_starts_highlight; assumption.
    - reflexivity. }
  assert (Hc2 : clean starts_highlight (str_chars d2)).
  { eapply rewrites_keeps_clean; [| | |exact Hrw2|exact Hc1].
    - exact endhighlight_tag_like.
    - intros Y B [Hc Hs]. apply transfers_starts_highlight; assumption.
    - reflexivity. }
  assert (Hc3 : clean starts_endhighlight (str_chars d2)).
  { eapply rewrites_makes_clean; [| | |exact has_prefix_endhighlight|exact Hrw2].
    - exact endhighlight_tag_like.
    - intros Y B [Hc Hs]. apply transfers_starts_endhighlight; assumption.
    - reflexivity. }
  rewrite (replace_all_without_match d2 highlightRegex "```" simple_highlight).
  - apply (replace_all_without_match d2 endhighlightRegex "```" simple_endhighlight).
    intros p t Ht Hp. apply has_prefix_endhighlight in Hp.
    rewrite (Hc3 p t Ht) in Hp. discriminate.
  - intros p t Ht Hp. apply has_prefix_highlight in Hp.
    rewrite (Hc2 p t Ht) in Hp. discriminate.
Qed.

(** C8 (amended): newline collapsing and code-fence conversion are
    idempotent on every content; liquid-class stripping and site-base-URL
    removal leave a content without match of their pattern as it is; and
    card-image promotion and the author byline are idempotent exactly
    when the front-matter declares no card image, respectively no
    author. *)
Theorem C8_stage_idempotence :
  (forall content, handleLineBreaks (handleLineBreaks content) = handleLineBreaks content)
  /\ (forall content, handleCodeBlocks (handleCodeBlocks content) = handleCodeBlocks content)
  /\ (forall content, no_match liquidClassRegex content ->
                      handleLiquidClasses content = content)
  /\ (forall content, no_match siteUrlRegex content -> handleSiteUrl content = content)
  /\ (forall post,
        (forall content,
           moveCardImageToContent post (moveCardImageToContent post content)
           = moveCardImageToContent post content)
        <-> truthy (card_url post) = false)
  /\ (forall post,
        (forall content,
           handlePostAuthors post (handlePostAuthors post content)
           = handlePostAuthors post content)
        <-> truthy (author post) = false).
Proof.
  split; [exact handleLineBreaks_idempotent|].
  split; [exact handleCodeBlocks_idempotent|].
  split; [intros content; apply replace_all_clean|].
  split; [intros content; apply replace_all_clean|].
  split; [exact moveCardImageToContent_idempotent_iff|].
  exact handlePostAuthors_idempotent_iff.
Qed.

(** * Further properties of the code *)

(** ** The scan for image references (lines 100-122) *)

(** X1: whatever [lastIndex] the expression holds on entry, [getMatches]
    leaves it at 0, so that a later call on the same expression scans its
    text from the start and returns what a first call returns. *)
Theorem X1_getMatches_resets_lastIndex (content later : string) (regexp : RegExpObj)
    (lastIndex : nat) :
  snd (getMatches content regexp lastIndex) = 0
  /\ getMatches later regexp (snd (getMatches content regexp lastIndex))
     = getMatches later regexp 0.
Proof.
  assert (H : snd (getMatches content regexp lastIndex) = 0).
  { unfold getMatches. rewrite getMatches_loop_spec. reflexivity. }
  split; [exact H|]. rewrite H. reflexivity.
Qed.

Lemma absent_suffix c (l p t : chars) : c ∉ l -> l = p ++ t -> starts_with c t = false.
Proof.
  intros Hc -> . destruct t as [|x t]; [reflexivity|]. cbn.
  destruct (Ascii.eqb_spec x c) as [->|]; [|reflexivity].
  exfalso. apply Hc. apply elem_of_app. right. left.
Qed.

Lemma md_needs_bang input t :
  starts_with "!" t = false ->
  match_here input (flag_m mdImgRegex) (pattern mdImgRegex) t = None.
Proof.
  intros H. destruct t as [|x t]; [reflexivity|]. cbn in H.
  unfold match_here. cbn. rewrite H. reflexivity.
Qed.

Lemma html_needs_lt input t :
  starts_with "<" t = false ->
  match_here input (flag_m htmlImgRegex) (pattern htmlImgRegex) t = None.
Proof.
  intros H. destruct t as [|x t]; [reflexivity|]. cbn in H.
  unfold match_here. cbn. rewrite H. reflexivity.
Qed.

Lemma no_match_nothing_found content regexp lastIndex :
  (forall p t, str_chars content = p ++ t ->
               match_here (str_chars content) (flag_m regexp) (pattern regexp) t = None) ->
  fst (getMatches content regexp lastIndex) = [].
Proof.
  intros H. unfold getMatches. rewrite getMatches_loop_spec. cbn [fst app].
  rewrite replace_matches_step. unfold exec.
  destruct (_ <? _); [reflexivity|].
  rewrite search_None_intro; [reflexivity|].
  intros p t Ht. apply (H (firstn lastIndex (str_chars content) ++ p)).
  rewrite <- app_assoc, <- Ht. symmetry. apply firstn_skipn.
Qed.

(** X2: a content that holds neither an exclamation mark nor a
    less-than sign holds no image reference: [extractImageUrls] returns
    the empty array. *)
Theorem X2_no_image_syntax_no_reference (content : string) :
  absent "!" content -> absent "<" content -> extractImageUrls content = [].
Proof.
  intros Hbang Hlt. unfold extractImageUrls.
  rewrite !no_match_nothing_found; [reflexivity| |].
  - intros p t Ht. apply html_needs_lt. eapply absent_suffix; eauto.
  - intros p t Ht. apply md_needs_bang. eapply absent_suffix; eauto.
Qed.

Lemma X2_witness :
  absent "!" "Hello (world)" /\ absent "<" "Hello (world)"
  /\ extractImageUrls "Hello (world)" = [].
Proof.
  assert (H1 : absent "!" "Hello (world)") by (apply not_in_literal; reflexivity).
  assert (H2 : absent "<" "Hello (world)") by (apply not_in_literal; reflexivity).
  split; [exact H1|]. split; [exact H2|].
  apply (X2_no_image_syntax_no_reference "Hello (world)" H1 H2).
Defined.

Lemma pushed_of_scan content regexp v :
  v ∈ fst (getMatches content regexp 0) ->
  exists m, is_match_of regexp (str_chars content) m /\ v = pushed m.
Proof.
  unfold getMatches. rewrite getMatches_loop_spec. cbn [fst app].
  intros H. apply list_elem_of_fmap in H as (m & -> & Hm).
  exists m. split; [|reflexivity].
  pose proof (replace_matches_are_matches (str_chars content) regexp 0) as Hall.
  rewrite Forall_forall in Hall. apply Hall. exact Hm.
Qed.

Lemma class_not c x : class_matches true [(c, c)] x = negb (Ascii.eqb x c).
Proof.
  unfold class_matches, in_range. cbn [existsb fst snd]. rewrite orb_false_r.
  destruct (Ascii.eqb_spec x c) as [->|Hne].
  - rewrite Nat.leb_refl. reflexivity.
  - destruct (Nat.leb_spec (nat_of_ascii c) (nat_of_ascii x)) as [H1|H1]; [|reflexivity].
    destruct (Nat.leb_spec (nat_of_ascii x) (nat_of_ascii c)) as [H2|H2]; [|reflexivity].
    exfalso. apply Hne. rewrite <- (ascii_nat_embedding x), <- (ascii_nat_embedding c).
    f_equal. lia.
Qed.

Lemma lang_Star_NotChr c w : lang (Star (NotChr c)) w -> c ∉ w.
Proof.
  intros (P & [= <-] & Hall & _). apply not_in_literal.
  rewrite forallb_forall in *. intros x Hx. rewrite <- class_not. auto.
Qed.

Lemma firstn_prefix {A} (w s' : list A) : firstn (length (w ++ s') - length s') (w ++ s') = w.
Proof.
  rewrite length_app, Nat.add_sub, firstn_app, Nat.sub_diag, firstn_all. cbn.
  apply app_nil_r.
Qed.

(** What a captured run of characters other than [c], closed by [c],
    hands over: the run, under the number of the group. *)
Lemma run_captured input ml i c s cs k z :
  run input ml (Seq (Group i (Star (NotChr c))) (Chr c)) s cs k = Some z ->
  exists w s', s = w ++ (c :: s') /\ (c ∉ w) /\ k s' (cap_set cs i w) = Some z.
Proof.
  cbn [run]. intros H.
  apply (run_sound input ml (Star (NotChr c))) in H as (w & s1 & -> & Hl & H);
    [|split; [discriminate|exact I]].
  rewrite firstn_prefix in H.
  destruct s1 as [|x s']; [discriminate|].
  destruct (Ascii.eqb_spec x c) as [->|]; [|discriminate].
  exists w, s'. split; [reflexivity|]. split; [apply lang_Star_NotChr; exact Hl|exact H].
Qed.

Lemma run_Seq input ml r1 r2 s cs k :
  run input ml (Seq r1 r2) s cs k = run input ml r1 s cs (fun s' cs' => run input ml r2 s' cs' k).
Proof. reflexivity. Qed.

Lemma md_match_shape input t s' cs :
  match_here input true (pattern mdImgRegex) t = Some (s', cs) ->
  exists alt url,
    t = str_chars "![" ++ alt ++ str_chars "](" ++ url ++ ")"%char :: s'
    /\ (")"%char ∉ url) /\ cs = [(1, url)].
Proof.
  unfold match_here. cbn [pattern mdImgRegex Cat]. intros H.
  rewrite run_Seq in H.
  apply (run_sound input true (Lit "![")) in H as (w1 & t1 & -> & Hl1 & H);
    [|repeat split].
  apply lang_Lit in Hl1 as ->.
  rewrite run_Seq in H.
  apply (run_sound input true (Star (NotChr "]"))) in H as (alt & t2 & -> & _ & H);
    [|split; [discriminate|exact I]].
  rewrite run_Seq in H.
  apply (run_sound input true (Lit "](")) in H as (w3 & t3 & -> & Hl3 & H);
    [|repeat split].
  apply lang_Lit in Hl3 as ->.
  apply (run_captured input true 1 ")") in H as (url & t4 & -> & Hurl & H).
  injection H as <- <-.
  exists alt, url. repeat split; auto.
Qed.

Lemma chars_str_app a b : chars_str (a ++ b) = chars_str a +:+ chars_str b.
Proof. induction a as [|x a IH]; [reflexivity|]. cbn. rewrite IH. reflexivity. Qed.

Lemma or_undefined_chars url :
  js_or (JsString (chars_str url)) JsUndefined = or_undefined (chars_str url).
Proof. destruct url; reflexivity. Qed.

(** X3: every reference [getMatches] returns for the Markdown expression
    stands in the content between an opening "](" and the next ")", and
    holds no ")"; a reference that is empty there is returned as
    [undefined]. *)
Theorem X3_markdown_reference_shape (content : string) (v : JsVal) :
  v ∈ fst (getMatches content mdImgRegex 0) ->
  exists before url after,
    content = before +:+ "](" +:+ url +:+ ")" +:+ after
    /\ absent ")" url
    /\ v = or_undefined url.
Proof.
  intros Hv. apply pushed_of_scan in Hv as (m & Hm & ->).
  unfold is_match_of in Hm. cbn [flag_m mdImgRegex] in Hm.
  apply md_match_shape in Hm as (alt & url & Ht & Hurl & Hcs).
  exists (chars_str (firstn (index m) (str_chars content) ++ str_chars "![" ++ alt)),
    (chars_str url), (chars_str (skipn (endIndex m) (str_chars content))).
  split; [|split].
  - rewrite <- (chars_str_chars content) at 1.
    rewrite <- (firstn_skipn (index m) (str_chars content)) at 1. rewrite Ht.
    change ("](" +:+ chars_str url +:+ ")" +:+ chars_str (skipn (endIndex m) (str_chars content)))
      with (chars_str (str_chars "](") +:+ chars_str url +:+ chars_str [")"%char]
            +:+ chars_str (skipn (endIndex m) (str_chars content))).
    rewrite <- !chars_str_app. f_equal. rewrite <- !app_assoc. reflexivity.
  - unfold absent. rewrite str_chars_str. exact Hurl.
  - unfold pushed, group. rewrite Hcs. cbn [cap_get Nat.eqb]. apply or_undefined_chars.
Qed.

Lemma run_Alt input ml r1 r2 s cs k :
  run input ml (Alt r1 r2) s cs k
  = match run input ml r1 s cs k with
    | Some z => Some z
    | None => run input ml r2 s cs k
    end.
Proof. reflexivity. Qed.

(** A quoted value: the quote, a captured run of other characters, the
    quote. *)
Lemma run_quoted input ml q i s cs k z :
  run input ml (Cat [Chr q; Group i (Star (NotChr q)); Chr q]) s cs k = Some z ->
  exists w s', s = q :: w ++ (q :: s') /\ (q ∉ w) /\ k s' (cap_set cs i w) = Some z.
Proof.
  cbn [Cat]. rewrite run_Seq. intros H.
  destruct s as [|x s]; [discriminate|]. cbn [run] in H.
  destruct (Ascii.eqb_spec x q) as [->|]; [|discriminate].
  apply (run_captured input ml i q) in H as (w & s' & -> & Hw & H).
  exists w, s'. auto.
Qed.

Lemma html_match_shape input t s' cs :
  match_here input true (pattern htmlImgRegex) t = Some (s', cs) ->
  exists mid url,
    forallb (fun x => negb (is_line_terminator x)) mid = true
    /\ ((t = str_chars "<img" ++ mid ++ str_chars "src=" ++ DQ :: url ++ DQ :: s'
         /\ (DQ ∉ url) /\ cs = [(1, url)])
        \/ (t = str_chars "<img" ++ mid ++ str_chars "src=" ++ SQ :: url ++ SQ :: s'
            /\ (SQ ∉ url) /\ cs = [(2, url)])).
Proof.
  unfold match_here. cbn [pattern htmlImgRegex]. intros H.
  change (Cat (Lit "<img" :: Star Dot :: Lit "src=" :: ?a :: nil))
    with (Seq (Lit "<img") (Seq (Star Dot) (Seq (Lit "src=") a))) in H.
  rewrite run_Seq in H.
  apply (run_sound input true (Lit "<img")) in H as (w1 & t1 & -> & Hl1 & H);
    [|repeat split].
  apply lang_Lit in Hl1 as ->.
  rewrite run_Seq in H.
  apply (run_sound input true (Star Dot)) in H as (mid & t2 & -> & Hmid & H);
    [|split; [discriminate|exact I]].
  destruct Hmid as (P & [= <-] & Hmid & _).
  rewrite run_Seq in H.
  apply (run_sound input true (Lit "src=")) in H as (w3 & t3 & -> & Hl3 & H);
    [|repeat split].
  apply lang_Lit in Hl3 as ->.
  exists mid. rewrite run_Alt in H.
  destruct (run input true (Cat [Chr DQ; Group 1 (Star (NotChr DQ)); Chr DQ]) t3 [] _)
    as [z|] eqn:E1.
  - injection H as ->. apply run_quoted in E1 as (url & t4 & -> & Hurl & E1).
    injection E1 as <- <-. exists url. split; [exact Hmid|]. left. auto.
  - apply run_quoted in H as (url & t4 & -> & Hurl & H).
    injection H as <- <-. exists url. split; [exact Hmid|]. right. auto.
Qed.

(** X4: every reference [getMatches] returns for the HTML expression is
    the value of a src attribute that follows "<img" on the same line,
    without the quote that delimits it.  In double quotes an empty value
    is returned as [undefined]; in single quotes it is returned as the
    empty string. *)
Theorem X4_html_reference_shape (content : string) (v : JsVal) :
  v ∈ fst (getMatches content htmlImgRegex 0) ->
  exists before mid url after,
    one_line mid
    /\ ((content = before +:+ "<img" +:+ mid +:+ "src=" +:+ String DQ url +:+ String DQ after
         /\ absent DQ url /\ v = or_undefined url)
        \/ (content = before +:+ "<img" +:+ mid +:+ "src=" +:+ String SQ url
                      +:+ String SQ after
            /\ absent SQ url /\ v = JsString url)).
Proof.
  intros Hv. apply pushed_of_scan in Hv as (m & Hm & ->).
  unfold is_match_of in Hm. cbn [flag_m htmlImgRegex] in Hm.
  apply html_match_shape in Hm as (mid & url & Hmid & Hcase).
  exists (chars_str (firstn (index m) (str_chars content))), (chars_str mid),
    (chars_str url), (chars_str (skipn (endIndex m) (str_chars content))).
  split; [unfold one_line; rewrite str_chars_str; exact Hmid|].
  assert (Hsplit : forall q,
            skipn (index m) (str_chars content)
            = str_chars "<img" ++ mid ++ str_chars "src=" ++ q :: url
                ++ q :: skipn (endIndex m) (str_chars content) ->
            content
            = chars_str (firstn (index m) (str_chars content)) +:+ "<img" +:+ chars_str mid
              +:+ "src=" +:+ String q (chars_str url)
              +:+ String q (chars_str (skipn (endIndex m) (str_chars content)))).
  { intros q Ht. rewrite <- (chars_str_chars content) at 1.
    rewrite <- (firstn_skipn (index m) (str_chars content)) at 1. rewrite Ht.
    rewrite !chars_str_app. cbn [chars_str string_of_list_ascii].
    rewrite !chars_str_app. reflexivity. }
  destruct Hcase as [(Ht & Hurl & Hcs)|(Ht & Hurl & Hcs)]; [left|right];
    (split; [apply Hsplit; exact Ht|]);
    (split; [unfold absent; rewrite str_chars_str; exact Hurl|]);
    unfold pushed, group; rewrite Hcs; cbn [cap_get Nat.eqb].
  - apply or_undefined_chars.
  - reflexivity.
Qed.

(** ** The image pass (lines 132-137 and 211-222) *)

Lemma filter_undefined hostname images :
  JsUndefined ∈ images -> filterUploadableImages hostname images = inl TypeError.
Proof.
  induction images as [|i images IH]; intros H; [apply elem_of_nil in H as []|].
  cbn [filterUploadableImages]. destruct i as [|s]; [reflexivity|].
  cbn [filter_step]. rewrite IH; [reflexivity|].
  apply elem_of_cons in H as [H|H]; [discriminate|exact H].
Qed.

(** X5: when one of the references of a post is [undefined] (an image
    with an empty URL), the iteration ends with a TypeError before
    anything is uploaded or written: no object is put in storage, also
    for the references that come before it, no publish request is sent
    and both ledgers stay as they are. *)
Theorem X5_undefined_reference_blocks_post (E : Env) (fr fc file raw : string)
    (post : Post) (w : World) :
  fs w !! file = Some raw ->
  safeLoadFront E raw = Some post ->
  is_unpublished post = false ->
  JsUndefined ∈ extractImageUrls (transform post) ->
  process_file E fr fc file w
  = Thrown TypeError (mkWorld (fs w) (trace w ++ [EvHandling file])).
Proof.
  intros Hfile Hload Hpub Hundef.
  unfold process_file. rewrite bind_eq. cbn [emit].
  rewrite bind_eq. unfold readFileSync at 1. cbn [fs]. rewrite Hfile.
  rewrite bind_eq, Hload, ret_eq, Hpub.
  rewrite bind_eq. unfold handlePostContentImages. rewrite bind_eq.
  rewrite filter_undefined by exact Hundef. reflexivity.
Qed.

Lemma X5_witness :
  let E := Sample.env [] [Sample.file "a"] (fun _ _ => Sample.ok_post) in
  let body := "![one](/img/one.png) and ![]()" in
  let w := Sample.world [(Sample.file "a", body)] in
  process_file E "redirects.json" "upload-complete.csv" (Sample.file "a") w
  = Thrown TypeError (mkWorld (fs w) (trace w ++ [EvHandling (Sample.file "a")])).
Proof.
  intros E body w.
  apply (X5_undefined_reference_blocks_post E "redirects.json" "upload-complete.csv"
           (Sample.file "a") body
           (mkPost (JsString "A Post") DateAbsent JsUndefined JsUndefined None None body) w).
  - vm_compute. reflexivity.
  - reflexivity.
  - reflexivity.
  - assert (H : extractImageUrls
                  (transform (mkPost (JsString "A Post") DateAbsent JsUndefined JsUndefined
                                None None body))
                = [JsString "/img/one.png"; JsUndefined]) by (vm_compute; reflexivity).
    rewrite H. apply elem_of_cons. right. apply elem_of_cons. left. reflexivity.
Defined.

(** ** The events of a run *)

Lemma emits_nothing P {A} (c : M A) :
  (forall w, trace (final_world (c w)) = trace w) -> emits P c.
Proof. intros H w. exists []. rewrite app_nil_r. split; [apply H|constructor]. Qed.

Lemma emits_ret P {A} (a : A) : emits P (mret a).
Proof. apply emits_nothing. reflexivity. Qed.

Lemma emits_throw P {A} e : emits P (@throw A e).
Proof. apply emits_nothing. reflexivity. Qed.

Lemma emits_exit P {A} code : emits P (@process_exit A code).
Proof. apply emits_nothing. reflexivity. Qed.

Lemma emits_lift P {A} (r : JsError + A) : emits P (lift r).
Proof. apply emits_nothing. intros w. destruct r; reflexivity. Qed.

Lemma emits_get_trace P : emits P get_trace.
Proof. apply emits_nothing. reflexivity. Qed.

Lemma emits_fetched P {A} (r : Fetched A) : emits P (fetched r).
Proof. apply emits_nothing. intros w. destruct r; reflexivity. Qed.

Lemma emits_handleMediumErrors P {A} (r : Response A) : emits P (handleMediumErrors r).
Proof. apply emits_nothing. intros w. unfold handleMediumErrors. destruct (errors r); reflexivity. Qed.

Lemma emits_readFileSync P path : emits P (readFileSync path).
Proof. apply emits_nothing. intros w. unfold readFileSync. destruct (fs w !! path); reflexivity. Qed.

Lemma emits_try_readFileSync P path : emits P (try_readFileSync path).
Proof. apply emits_nothing. reflexivity. Qed.

Lemma emits_writeFileSync P path content : emits P (writeFileSync path content).
Proof. apply emits_nothing. reflexivity. Qed.

Lemma emits_appendFileSync P path content : emits P (appendFileSync path content).
Proof. apply emits_nothing. reflexivity. Qed.

Lemma emits_unlinkSync P path : emits P (unlinkSync path).
Proof. apply emits_nothing. intros w. unfold unlinkSync. destruct (fs w !! path); reflexivity. Qed.

Lemma emits_emit (P : Event -> Prop) e : P e -> emits P (emit e).
Proof. intros H w. exists [e]. split; [reflexivity|]. constructor; [exact H|constructor]. Qed.

Lemma emits_bind P {A B} (c : M A) (k : A -> M B) :
  emits P c -> (forall a, emits P (k a)) -> emits P (c ≫= k).
Proof.
  intros Hc Hk w. rewrite bind_eq.
  destruct (Hc w) as (evs & Htr & Hall).
  destruct (c w) as [a w1|code w1|e w1]; cbn [final_world] in *; [|eauto..].
  destruct (Hk a w1) as (evs2 & Htr2 & Hall2).
  exists (evs ++ evs2). rewrite Htr2, Htr, app_assoc. split; [reflexivity|].
  apply Forall_app. auto.
Qed.

Ltac emits_steps :=
  repeat first
    [ apply emits_ret | apply emits_throw | apply emits_exit | apply emits_lift
    | apply emits_get_trace | apply emits_fetched | apply emits_handleMediumErrors
    | apply emits_readFileSync | apply emits_try_readFileSync | apply emits_writeFileSync
    | apply emits_appendFileSync | apply emits_unlinkSync
    | (apply emits_bind; [|intros ?]) ].

Lemma take_until_slash_no_slash l : "/"%char ∉ take_until_slash l.
Proof.
  induction l as [|c l IH]; [apply not_elem_of_nil|]. cbn.
  destruct (Ascii.eqb_spec c "/") as [->|Hne]; [apply not_elem_of_nil|].
  intros H. apply elem_of_cons in H as [H|H]; [congruence|auto].
Qed.

(** The name [path.basename] returns holds no separator. *)
Lemma basename_no_slash p : absent "/" (basename p).
Proof.
  unfold absent, basename. rewrite str_chars_str. intros H.
  apply list_elem_of_In, in_rev, list_elem_of_In in H.
  exact (take_until_slash_no_slash _ H).
Qed.

Lemma emits_uploadImage E img :
  is_publication_query E = false -> emits (well_formed E) (uploadImage E img).
Proof.
  intros Hq. unfold uploadImage. destruct (is_dryrun E) eqn:Hdry; [apply emits_ret|].
  unfold putS3Object. emits_steps.
  - apply emits_emit. cbn. repeat split; auto.
    eexists. split; [reflexivity|apply basename_no_slash].
  - destruct (s3_putObject _ _ _); emits_steps.
Qed.

Lemma emits_handlePostContentImages E content :
  is_publication_query E = false -> emits (well_formed E) (handlePostContentImages E content).
Proof.
  intros Hq. unfold handlePostContentImages. emits_steps.
  revert content. induction a as [|img rest IH]; intros content; cbn [upload_and_replace].
  - apply emits_ret.
  - apply emits_bind; [apply emits_uploadImage; exact Hq|]. intros newURL. apply IH.
Qed.

Lemma emits_uploadPost E post :
  is_publication_query E = false -> truthy (MEDIUM_PUB_ID E) = true ->
  contentFormat post = "markdown" ->
  emits (well_formed E) (uploadPost E post).
Proof.
  intros Hq Hpub Hfmt. unfold uploadPost. destruct (is_dryrun E) eqn:Hdry.
  - destruct (mp_title post); emits_steps.
  - emits_steps. apply emits_emit. cbn. auto.
Qed.

Lemma emits_process_file E fr fc file :
  is_publication_query E = false -> truthy (MEDIUM_PUB_ID E) = true ->
  emits (well_formed E) (process_file E fr fc file).
Proof.
  intros Hq Hpub. unfold process_file.
  apply emits_bind; [apply emits_emit; exact Hq|]. intros _.
  apply emits_bind; [apply emits_readFileSync|]. intros raw.
  apply emits_bind; [destruct (safeLoadFront E raw); emits_steps|]. intros post.
  destruct (is_unpublished post); [apply emits_ret|].
  apply emits_bind; [apply emits_handlePostContentImages; exact Hq|]. intros content.
  do 3 (apply emits_bind; [apply emits_lift|]; intros ?).
  apply emits_bind; [apply emits_uploadPost; auto|]. intros [res|]; emits_steps.
Qed.

Lemma emits_for_each P files body :
  (forall file, emits P (body file)) -> emits P (for_each files body).
Proof.
  intros H. induction files as [|file files IH]; cbn [for_each]; [apply emits_ret|].
  apply emits_bind; [apply H|]. intros _. exact IH.
Qed.

(** Every event of a run is well formed. *)
Lemma emits_program E : emits (well_formed E) (program E).
Proof.
  unfold program.
  destruct (negb (truthy (MEDIUM_TOKEN E))); [apply emits_exit|].
  destruct (_ || _); [apply emits_exit|].
  destruct (negb (truthy (AWS_S3_BUCKET E))); [apply emits_exit|].
  unfold main. destruct (is_publication_query E) eqn:Hq.
  - apply emits_bind.
    { unfold getMediumUserId. emits_steps; [apply emits_emit; exact Hq|].
      destruct (data _); emits_steps. }
    intros userId. apply emits_bind; [|intros _; apply emits_exit].
    unfold getMediumPublicationId. emits_steps; [apply emits_emit; exact Hq|].
    destruct (data _) as [pubs|]; emits_steps.
    destruct (find _ pubs); emits_steps.
  - destruct (truthy (MEDIUM_PUB_ID E)) eqn:Hpub; [|apply emits_exit]. cbn [negb].
    apply emits_bind.
    { unfold ledger_files. destruct (is_dryrun E); emits_steps. }
    intros names. apply emits_bind.
    { unfold getPostsFilesToProcess. destruct (_ && _); emits_steps. }
    intros files. apply emits_bind.
    { apply emits_for_each. intros file. apply emits_process_file; auto. }
    intros _. destruct (is_dryrun E); emits_steps.
Qed.

Lemma truthy_string v : truthy v = true -> exists s, v = JsString s /\ s <> EmptyString.
Proof. destruct v as [|[|c s]]; try discriminate. intros _. eexists. split; [reflexivity|discriminate]. Qed.

Lemma program_needs_bucket E w :
  truthy (AWS_S3_BUCKET E) = false -> program E w = Exited 1 w.
Proof.
  intros H. unfold program. rewrite H.
  destruct (negb (truthy (MEDIUM_TOKEN E))); [reflexivity|].
  destruct (_ || _); reflexivity.
Qed.

(** X6: every object a run puts in storage goes to the configured
    bucket, which is a non-empty name, under a key made of images/ and a
    name without directory part: the directories of the reference are
    dropped.  No object is stored in a dry run. *)
Theorem X6_storage_objects (E : Env) (w : World) :
  exists evs,
    trace (final_world (program E w)) = trace w ++ evs
    /\ forall params, EvS3Put params ∈ evs ->
         is_dryrun E = false
         /\ exists bucket name,
              AWS_S3_BUCKET E = JsString bucket /\ bucket <> EmptyString
              /\ Bucket params = bucket
              /\ Key params = "images/" +:+ name /\ absent "/" name.
Proof.
  destruct (emits_program E w) as (evs & Htr & Hall).
  exists evs. split; [exact Htr|]. intros params Hin.
  rewrite Forall_forall in Hall. destruct (Hall _ Hin) as (_ & Hdry & Hb & name & Hk & Hname).
  split; [exact Hdry|].
  destruct (truthy (AWS_S3_BUCKET E)) eqn:Hbucket.
  - apply truthy_string in Hbucket as (bucket & Hbucket & Hne).
    exists bucket, name. rewrite Hb, Hbucket. auto.
  - exfalso. rewrite (program_needs_bucket E w Hbucket) in Htr. cbn in Htr.
    rewrite <- (app_nil_r (trace w)) in Htr at 1. apply app_inv_head in Htr. subst evs.
    apply elem_of_nil in Hin as [].
Qed.

(** X7: every publish request of a run is sent outside a dry run, in
    Markdown format, to the posts endpoint of the configured publication,
    whose identifier is a non-empty text. *)
Theorem X7_publish_requests (E : Env) (w : World) :
  exists evs,
    trace (final_world (program E w)) = trace w ++ evs
    /\ forall endpoint post, EvMediumPost endpoint post ∈ evs ->
         is_dryrun E = false /\ contentFormat post = "markdown"
         /\ exists id,
              MEDIUM_PUB_ID E = JsString id /\ id <> EmptyString
              /\ endpoint = "https://api.medium.com/v1/publications/" +:+ id +:+ "/posts".
Proof.
  destruct (emits_program E w) as (evs & Htr & Hall).
  exists evs. split; [exact Htr|]. intros endpoint post Hin.
  rewrite Forall_forall in Hall.
  destruct (Hall _ Hin) as (_ & Hdry & Hpub & -> & Hfmt).
  split; [exact Hdry|]. split; [exact Hfmt|].
  apply truthy_string in Hpub as (id & Hid & Hne).
  exists id. unfold posts_endpoint. rewrite Hid. auto.
Qed.




Lemma program_cases E w : program E w = Exited 1 w \/ program E w = main E w.
Proof.
  unfold program.
  destruct (negb (truthy (MEDIUM_TOKEN E))); [left; reflexivity|].
  destruct (_ || _); [left; reflexivity|].
  destruct (negb (truthy (AWS_S3_BUCKET E))); [left; reflexivity|right; reflexivity].
Qed.






(** ** The loop, file by file (lines 444-493) *)

Lemma handled_app tr1 tr2 : handled (tr1 ++ tr2) = handled tr1 ++ handled tr2.
Proof.
  induction tr1 as [|e tr1 IH]; [reflexivity|].
  destruct e; cbn [app handled]; rewrite IH; reflexivity.
Qed.

Lemma requests_app tr1 tr2 : requests (tr1 ++ tr2) = requests tr1 + requests tr2.
Proof.
  induction tr1 as [|e tr1 IH]; [reflexivity|].
  destruct e; cbn [app requests]; rewrite IH; reflexivity.
Qed.

Lemma puts_handled puts : only_puts puts -> handled puts = [] /\ requests puts = 0.
Proof.
  induction 1 as [|e puts [params ->] _ IH]; [split; reflexivity|]. exact IH.
Qed.

(** What the loop does, file by file: the files it handles are the
    first files of its list, in order; it sends at most one publish
    request per file it handles; and the files it leaves are the files it
    found with the records of some of the handled posts written one after
    the other. *)
Lemma for_each_records E fr fc files w :
  let w' := final_world (for_each files (process_file E fr fc) w) in
  exists evs recs,
    trace w' = trace w ++ evs
    /\ handled evs `prefix_of` files
    /\ requests evs <= length (handled evs)
    /\ fs w' = record_all E fr fc recs (fs w)
    /\ map m_file recs `sublist_of` handled evs.
Proof.
  revert w. induction files as [|file files IH]; intros w; cbn zeta.
  { exists [], []. rewrite app_nil_r. repeat split; [reflexivity|cbn; lia|constructor]. }
  cbn [for_each]. rewrite bind_eq.
  assert (Hstop : forall puts tail (o : Outcome unit),
            only_puts puts -> requests tail <= 1 -> handled tail = [] ->
            fs (final_world o) = fs w ->
            trace (final_world o) = trace w ++ EvHandling file :: puts ++ tail ->
            exists evs recs,
              trace (final_world o) = trace w ++ evs
              /\ handled evs `prefix_of` file :: files
              /\ requests evs <= length (handled evs)
              /\ fs (final_world o) = record_all E fr fc recs (fs w)
              /\ map m_file recs `sublist_of` handled evs).
  { intros puts tail o Hp Hreq Hh Hfs Htr.
    destruct (puts_handled puts Hp) as [Hh1 Hr1].
    exists (EvHandling file :: puts ++ tail), [].
    cbn [handled requests]. rewrite handled_app, requests_app, Hh1, Hr1, Hh.
    split; [exact Htr|]. split; [exists files; reflexivity|].
    split; [cbn; lia|]. split; [exact Hfs|]. cbn. apply sublist_nil_l. }
  assert (Hgo : forall puts tail (recs1 : list Migrated) w1,
            only_puts puts -> requests tail <= 1 -> handled tail = [] ->
            length recs1 <= 1 -> Forall (fun r => m_file r = file) recs1 ->
            fs w1 = record_all E fr fc recs1 (fs w) ->
            trace w1 = trace w ++ EvHandling file :: puts ++ tail ->
            exists evs recs,
              trace (final_world (for_each files (process_file E fr fc) w1)) = trace w ++ evs
              /\ handled evs `prefix_of` file :: files
              /\ requests evs <= length (handled evs)
              /\ fs (final_world (for_each files (process_file E fr fc) w1))
                 = record_all E fr fc recs (fs w)
              /\ map m_file recs `sublist_of` handled evs).
  { intros puts tail recs1 w1 Hp Hreq Hh Hlen Hfile Hfs Htr.
    destruct (puts_handled puts Hp) as [Hh1 Hr1].
    destruct (IH w1) as (evs2 & recs2 & Htr2 & Hpre & Hle & Hfs2 & Hsub).
    exists ((EvHandling file :: puts ++ tail) ++ evs2), (recs1 ++ recs2).
    rewrite handled_app, requests_app. cbn [handled requests].
    rewrite handled_app, requests_app, Hh1, Hr1, Hh. cbn [app Nat.add].
    split; [rewrite Htr2, Htr, <- app_assoc; reflexivity|].
    split; [apply prefix_cons; exact Hpre|].
    split; [cbn [length]; lia|].
    split; [rewrite Hfs2, Hfs; unfold record_all; rewrite foldl_app; reflexivity|].
    rewrite map_app. destruct recs1 as [|r [|r' recs1]]; cbn in Hlen; try lia.
    - cbn. apply sublist_cons. exact Hsub.
    - apply Forall_cons in Hfile as [Hr _]. cbn. rewrite Hr. apply sublist_skip. exact Hsub. }
  destruct (process_file_outcome E fr fc file w)
    as [e puts Hp Hd| |originalUrl res Hdry|puts originalUrl post Hdry Hp].
  - apply (Hstop puts [] (Thrown (A := unit) e _) Hp); cbn; try lia; try reflexivity.
    rewrite app_nil_r. reflexivity.
  - apply (Hgo [] [] []); cbn; try lia; try reflexivity; constructor.
  - apply (Hgo [] [] [mkMigrated file originalUrl res]); cbn; try lia; try reflexivity;
      repeat constructor.
  - unfold respond.
    destruct (medium_posts E (trace w ++ EvHandling file :: puts) post) as [[[msgs|] [res|]]|];
      try (apply (Hstop puts [EvMediumPost (posts_endpoint E) post] _ Hp);
           cbn; try lia; reflexivity).
    apply (Hgo puts [EvMediumPost (posts_endpoint E) post]
             [mkMigrated file originalUrl res]); cbn; try lia; try reflexivity; try exact Hp;
      repeat constructor.
Qed.

Lemma gets_handled evs : Forall is_get evs -> handled evs = [] /\ requests evs = 0.
Proof.
  induction 1 as [|e evs He _ IH]; [split; reflexivity|].
  destruct e; try contradiction. exact IH.
Qed.

Lemma query_gets E w :
  is_publication_query E = true ->
  exists evs, trace (final_world (program E w)) = trace w ++ evs /\ Forall is_get evs.
Proof.
  intros Hq. destruct (emits_program E w) as (evs & Htr & Hall).
  exists evs. split; [exact Htr|].
  eapply Forall_impl; [exact Hall|]. intros [f|params|endpoint|endpoint post] He;
    cbn in He; try exact I; try congruence; destruct He; congruence.
Qed.

Lemma pending_files E fc w :
  is_dryrun E && truthy (process_argv E 3) = false ->
  getPostsFilesToProcess E fc w
  = Ok (take 5 (pendingFiles (glob_sync E "posts/blog-2018/*.*")
                  (completedSet (fs w !! fc)))) w.
Proof.
  intros Hguard. unfold getPostsFilesToProcess. rewrite Hguard.
  rewrite bind_eq. unfold try_readFileSync. rewrite ret_eq.
  unfold slice0. rewrite filter_not_completed.
  unfold completedSet. destruct (fs w !! fc); reflexivity.
Qed.

(** A live run: what it handles and what it leaves. *)
Lemma live_run E w :
  is_dryrun E = false ->
  exists evs recs,
    trace (final_world (program E w)) = trace w ++ evs
    /\ handled evs `prefix_of`
         take 5 (pendingFiles (glob_sync E "posts/blog-2018/*.*")
                   (completedSet (fs w !! live_completed)))
    /\ requests evs <= length (handled evs)
    /\ fs (final_world (program E w)) = record_all E live_redirects live_completed recs (fs w)
    /\ map m_file recs `sublist_of` handled evs.
Proof.
  intros Hlive.
  assert (Hnone : forall o : Outcome unit,
            final_world o = w ->
            exists evs recs,
              trace (final_world o) = trace w ++ evs
              /\ handled evs `prefix_of`
                   take 5 (pendingFiles (glob_sync E "posts/blog-2018/*.*")
                             (completedSet (fs w !! live_completed)))
              /\ requests evs <= length (handled evs)
              /\ fs (final_world o) = record_all E live_redirects live_completed recs (fs w)
              /\ map m_file recs `sublist_of` handled evs).
  { intros o ->. exists [], []. rewrite app_nil_r.
    repeat split; [apply prefix_nil|cbn; lia|constructor]. }
  destruct (is_publication_query E) eqn:Hq.
  { destruct (query_gets E w Hq) as (evs & Htr & Hall).
    destruct (gets_handled evs Hall) as [Hh Hr].
    exists evs, []. rewrite Hh, Hr.
    repeat split; [exact Htr|apply prefix_nil|cbn; lia| |constructor].
    destruct (program_cases E w) as [Hp|Hp]; rewrite Hp; [reflexivity|].
    unfold main. rewrite Hq. apply reads_only_query. }
  destruct (program_cases E w) as [Hp|Hp]; rewrite Hp; [apply Hnone; reflexivity|].
  unfold main. rewrite Hq.
  destruct (negb (truthy (MEDIUM_PUB_ID E))); [apply Hnone; reflexivity|].
  rewrite bind_eq. unfold ledger_files. rewrite Hlive, ret_eq. cbn [fst snd].
  rewrite bind_eq, pending_files by (rewrite Hlive; reflexivity).
  rewrite final_world_then_ret.
  destruct (for_each_records E "redirects.json" "upload-complete.csv"
              (take 5 (pendingFiles (glob_sync E "posts/blog-2018/*.*")
                         (completedSet (fs w !! "upload-complete.csv")))) w)
    as (evs & recs & H). exists evs, recs. exact H.
Qed.

Lemma List_filter_sublist {A} (f : A -> bool) l : List.filter f l `sublist_of` l.
Proof.
  induction l as [|x l IH]; [constructor|]. cbn.
  destruct (f x); [apply sublist_skip|apply sublist_cons]; exact IH.
Qed.

Lemma dry_ledger_files_eq E w :
  is_dryrun E = true ->
  ledger_files E w
  = Ok (dry_redirects, dry_completed)
      (mkWorld (<[dry_completed := content_of (fs w) live_completed]>
                  (<[dry_redirects := content_of (fs w) live_redirects]> (fs w)))
         (trace w)).
Proof. intros Hdry. unfold ledger_files. rewrite Hdry. reflexivity. Qed.

(** A dry run without pattern: what it handles. *)
Lemma dry_run_handled E w :
  is_dryrun E = true -> truthy (process_argv E 3) = false ->
  exists evs,
    trace (final_world (program E w)) = trace w ++ evs
    /\ handled evs `prefix_of`
         take 5 (pendingFiles (glob_sync E "posts/blog-2018/*.*")
                   (split LF (content_of (fs w) live_completed)))
    /\ requests evs <= length (handled evs).
Proof.
  intros Hdry Hpat.
  assert (Hnone : forall o : Outcome unit,
            final_world o = w ->
            exists evs,
              trace (final_world o) = trace w ++ evs
              /\ handled evs `prefix_of`
                   take 5 (pendingFiles (glob_sync E "posts/blog-2018/*.*")
                             (split LF (content_of (fs w) live_completed)))
              /\ requests evs <= length (handled evs)).
  { intros o ->. exists []. rewrite app_nil_r.
    repeat split; [apply prefix_nil|cbn; lia]. }
  destruct (program_cases E w) as [Hp|Hp]; rewrite Hp; [apply Hnone; reflexivity|].
  unfold main. rewrite (dryrun_not_query E Hdry).
  destruct (negb (truthy (MEDIUM_PUB_ID E))); [apply Hnone; reflexivity|].
  rewrite bind_eq, (dry_ledger_files_eq E w Hdry). cbn [fst snd].
  rewrite bind_eq, pending_files by (rewrite Hdry, Hpat; reflexivity).
  cbn [fs]. rewrite lookup_insert_eq. cbn [completedSet].
  rewrite bind_eq. rewrite Hdry. fold cleanup.
  set (w1 := mkWorld _ (trace w)).
  destruct (for_each_records E dry_redirects dry_completed
              (take 5 (pendingFiles (glob_sync E "posts/blog-2018/*.*")
                         (split LF (content_of (fs w) live_completed)))) w1)
    as (evs & recs & Htr & Hpre & Hreq & _).
  exists evs. split; [|split; [exact Hpre|exact Hreq]].
  cbn [trace w1] in Htr.
  destruct (for_each _ _ w1) as [[] w2|code w2|e w2]; cbn [final_world] in *;
    rewrite ?cleanup_trace; exact Htr.
Qed.

(** X9: unless a dry run is given a pattern, a run handles the first
    pending files, in candidate order, without skipping one: the files it
    handles are a prefix of the first five pending files.  It handles five
    files at most and sends at most one publish request per file it
    handles. *)
Theorem X9_handles_first_pending (E : Env) (w : World) :
  is_dryrun E && truthy (process_argv E 3) = false ->
  exists evs,
    trace (final_world (program E w)) = trace w ++ evs
    /\ handled evs `prefix_of`
         take 5 (pendingFiles (glob_sync E "posts/blog-2018/*.*") (startup_completed E w))
    /\ length (handled evs) <= 5
    /\ requests evs <= length (handled evs).
Proof.
  intros Hguard. unfold startup_completed.
  assert (Hlen : forall (evs : list Event) (l : list string),
            handled evs `prefix_of` take 5 l -> length (handled evs) <= 5).
  { intros evs l Hpre. apply prefix_length in Hpre. rewrite length_take in Hpre. lia. }
  destruct (is_dryrun E) eqn:Hdry.
  - cbn [andb] in Hguard.
    destruct (dry_run_handled E w Hdry Hguard) as (evs & Htr & Hpre & Hreq).
    exists evs. eauto.
  - destruct (live_run E w Hdry) as (evs & recs & Htr & Hpre & Hreq & _).
    exists evs. eauto.
Qed.

Lemma X9_witness :
  let E := Sample.env [] six_candidates (fun _ _ => Sample.ok_post) in
  is_dryrun E && truthy (process_argv E 3) = false
  /\ (exists evs,
        trace (final_world (program E six_posts)) = trace six_posts ++ evs
        /\ handled evs `prefix_of`
             take 5 (pendingFiles (glob_sync E "posts/blog-2018/*.*")
                       (startup_completed E six_posts))
        /\ length (handled evs) <= 5
        /\ requests evs <= length (handled evs))
  /\ handled (trace (final_world (program E six_posts))) = take 5 six_candidates.
Proof.
  intros E. split; [reflexivity|].
  split; [exact (X9_handles_first_pending E six_posts eq_refl)|].
  vm_compute. reflexivity.
Defined.

(** ** The two ledgers of a live run (lines 489-490) *)

Lemma record_all_cons E fr fc r recs files :
  record_all E fr fc (r :: recs) files
  = record_all E fr fc recs (recorded E fr fc (m_file r) (m_from r) (m_to r) files).
Proof. reflexivity. Qed.

Lemma record_all_other E fr fc recs files path :
  path <> fr -> path <> fc -> record_all E fr fc recs files !! path = files !! path.
Proof.
  intros H1 H2. revert files. induction recs as [|r recs IH]; intros files; [reflexivity|].
  rewrite record_all_cons, IH. unfold recorded. rewrite !fs_append_other; auto.
Qed.

Lemma record_all_completed E fr fc recs files :
  fr <> fc ->
  content_of (record_all E fr fc recs files) fc
  = content_of files fc +:+ ledger_lines (map m_file recs).
Proof.
  intros Hne. revert files. induction recs as [|r recs IH]; intros files.
  - cbn. rewrite string_app_nil_r. reflexivity.
  - rewrite record_all_cons, IH. unfold recorded.
    rewrite content_of_append_same, content_of_append_other by auto.
    cbn [map ledger_lines]. rewrite !string_app_assoc. reflexivity.
Qed.


Lemma record_all_keeps E fr fc recs files path :
  is_Some (files !! path) -> is_Some (record_all E fr fc recs files !! path).
Proof.
  revert files. induction recs as [|r recs IH]; intros files H; [exact H|].
  rewrite record_all_cons. apply IH. unfold recorded, fs_append.
  destruct (decide (path = fc)) as [->|H1]; [rewrite lookup_insert_eq; eauto|].
  rewrite lookup_insert_ne by auto.
  destruct (decide (path = fr)) as [->|H2]; [rewrite lookup_insert_eq; eauto|].
  rewrite lookup_insert_ne by auto. exact H.
Qed.


(** X11: a live run appends to its two ledgers and does nothing else to
    the files: every other path keeps its content, and no file that was
    there is removed, the ledgers included. *)
Theorem X11_live_run_only_appends (E : Env) (w : World) :
  is_dryrun E = false ->
  (forall path, path <> "redirects.json" -> path <> "upload-complete.csv" ->
                fs (final_world (program E w)) !! path = fs w !! path)
  /\ (forall path, is_Some (fs w !! path) ->
                   is_Some (fs (final_world (program E w)) !! path)).
Proof.
  intros Hlive.
  destruct (live_run E w Hlive) as (evs & recs & _ & _ & _ & Hfs & _).
  rewrite Hfs. split.
  - intros path H1 H2. apply record_all_other; assumption.
  - intros path. apply record_all_keeps.
Qed.


Lemma X11_witness :
  let E := Sample.env [] six_candidates (fun _ _ => Sample.ok_post) in
  is_dryrun E = false
  /\ fs (final_world (program E six_posts)) !! Sample.file "a" = Some "Hello"
  /\ is_Some (fs (final_world (program E six_posts)) !! Sample.file "f").
Proof.
  intros E. split; [reflexivity|].
  destruct (X11_live_run_only_appends E six_posts eq_refl) as [Hother Hkeep].
  split.
  - rewrite Hother; [reflexivity|discriminate|discriminate].
  - apply Hkeep. eexists. reflexivity.
Defined.

(** ** From one run to the next (lines 391-399 and 490) *)

Lemma split_app_sep sep a b :
  split sep (a +:+ String sep b) = split sep a ++ split sep b.
Proof.
  induction a as [|c a IH].
  - change (EmptyString +:+ String sep b) with (String sep b).
    cbn [split]. rewrite Ascii.eqb_refl. reflexivity.
  - change (String c a +:+ String sep b) with (String c (a +:+ String sep b)).
    cbn [split]. rewrite IH. destruct (Ascii.eqb c sep); [reflexivity|].
    pose proof (split_nonempty sep a) as Hne.
    destruct (split sep a) as [|x xs]; [contradiction|reflexivity].
Qed.

Lemma split_one sep s : sep ∉ str_chars s -> split sep s = [s].
Proof.
  induction s as [|c s IH]; intros H; [reflexivity|].
  cbn [split]. destruct (Ascii.eqb_spec c sep) as [->|Hne].
  - exfalso. apply H. left.
  - rewrite IH; [reflexivity|]. intros Hin. apply H. right. exact Hin.
Qed.

Lemma split_terminated_line old f :
  well_terminated old -> absent LF f -> f ∈ split LF (old +:+ f).
Proof.
  intros [->|[s0 ->]] Hf.
  - change (EmptyString +:+ f) with f. rewrite split_one by exact Hf. left.
  - unfold NL. rewrite string_app_assoc.
    change (String LF EmptyString +:+ f) with (String LF f).
    rewrite split_app_sep. apply elem_of_app. right.
    rewrite split_one by exact Hf. left.
Qed.

(** A path appended to a well terminated ledger is one of its lines. *)
Lemma ledger_lines_split old paths f :
  well_terminated old -> f ∈ paths -> absent LF f ->
  f ∈ split LF (old +:+ ledger_lines paths).
Proof.
  intros Hold Hin Hf. revert old Hold.
  induction paths as [|p paths IH]; intros old Hold; [apply elem_of_nil in Hin as []|].
  cbn [ledger_lines]. unfold NL at 1.
  rewrite string_app_assoc, <- (string_app_assoc old p).
  change (String LF EmptyString +:+ ledger_lines paths) with (String LF (ledger_lines paths)).
  rewrite split_app_sep. apply elem_of_app.
  apply elem_of_cons in Hin as [<-|Hin].
  - left. apply split_terminated_line; assumption.
  - right. apply (IH Hin EmptyString). left. reflexivity.
Qed.

(** Unless a dry run is given a pattern, the files a run handles are
    among the first five pending files. *)
Lemma handles_pending E w :
  is_dryrun E && truthy (process_argv E 3) = false ->
  exists evs,
    trace (final_world (program E w)) = trace w ++ evs
    /\ handled evs `prefix_of`
         take 5 (pendingFiles (glob_sync E "posts/blog-2018/*.*") (startup_completed E w)).
Proof.
  intros Hguard. unfold startup_completed. destruct (is_dryrun E) eqn:Hdry.
  - cbn [andb] in Hguard.
    destruct (dry_run_handled E w Hdry Hguard) as (evs & Htr & Hpre & _). eauto.
  - destruct (live_run E w Hdry) as (evs & recs & Htr & Hpre & _). eauto.
Qed.

Lemma record_all_creates E fr fc r recs files :
  is_Some (record_all E fr fc (r :: recs) files !! fc).
Proof.
  rewrite record_all_cons. apply record_all_keeps.
  unfold recorded, fs_append. rewrite lookup_insert_eq. eauto.
Qed.

(** X12: what a live run records, the next run skips.  When the
    completion ledger a live run finds is empty or ends with a line feed,
    the paths the run appends to it are lines of the ledger it leaves;
    a run that starts from these files, unless it is a dry run given a
    pattern, handles none of them (a path that holds a line feed
    apart). *)
Theorem X12_recorded_posts_are_skipped (E E' : Env) (w w' : World) :
  is_dryrun E = false ->
  is_dryrun E' && truthy (process_argv E' 3) = false ->
  well_terminated (content_of (fs w) "upload-complete.csv") ->
  fs w' = fs (final_world (program E w)) ->
  exists recs,
    content_of (fs w') "upload-complete.csv"
    = content_of (fs w) "upload-complete.csv" +:+ ledger_lines (map m_file recs)
    /\ forall f evs',
         f ∈ map m_file recs -> absent LF f ->
         trace (final_world (program E' w')) = trace w' ++ evs' ->
         f ∉ handled evs'.
Proof.
  intros Hlive Hguard Hold Hfs.
  destruct (live_run E w Hlive) as (evs & recs & _ & _ & _ & Hrec & _).
  rewrite <- Hfs in Hrec.
  assert (Hc : content_of (fs w') "upload-complete.csv"
               = content_of (fs w) "upload-complete.csv" +:+ ledger_lines (map m_file recs)).
  { rewrite Hrec. apply record_all_completed. discriminate. }
  exists recs. split; [exact Hc|]. intros f evs' Hin Hf Htr' Hh.
  destruct (handles_pending E' w' Hguard) as (evs2 & Htr2 & Hpre).
  rewrite Htr' in Htr2. apply app_inv_head in Htr2. subst evs2.
  assert (Hpend : f ∈ pendingFiles (glob_sync E' "posts/blog-2018/*.*")
                        (startup_completed E' w')).
  { eapply subseteq_take. destruct Hpre as [k ->]. apply elem_of_app. left. exact Hh. }
  unfold pendingFiles in Hpend. apply list_elem_of_filter in Hpend as [Hnot _].
  apply Hnot.
  assert (Hline : f ∈ split LF (content_of (fs w') live_completed)).
  { unfold live_completed. rewrite Hc. apply ledger_lines_split; assumption. }
  unfold startup_completed. destruct (is_dryrun E'); [exact Hline|].
  destruct recs as [|r recs]; [apply elem_of_nil in Hin as []|].
  destruct (record_all_creates E live_redirects live_completed r recs (fs w)) as [c Hsome].
  unfold content_of in Hline. rewrite Hrec in Hline |- *.
  unfold live_redirects, live_completed in *. rewrite Hsome in Hline |- *. exact Hline.
Qed.

Lemma X12_witness :
  let E := Sample.env [] [Sample.file "a"; Sample.file "b"] (fun _ _ => Sample.ok_post) in
  let w := Sample.world [(Sample.file "a", "Hello")] in
  let w' := mkWorld (fs (final_world (program E w))) [] in
  is_dryrun E = false
  /\ well_terminated (content_of (fs w) "upload-complete.csv")
  /\ (exists recs,
        content_of (fs w') "upload-complete.csv"
        = content_of (fs w) "upload-complete.csv" +:+ ledger_lines (map m_file recs)
        /\ forall f evs',
             f ∈ map m_file recs -> absent LF f ->
             trace (final_world (program E w')) = trace w' ++ evs' ->
             f ∉ handled evs')
  /\ handled (trace (final_world (program E w'))) = [Sample.file "b"].
Proof.
  intros E w w'. split; [reflexivity|].
  assert (Hold : well_terminated (content_of (fs w) "upload-complete.csv"))
    by (left; reflexivity).
  split; [exact Hold|].
  split; [exact (X12_recorded_posts_are_skipped E E w w' eq_refl eq_refl Hold eq_refl)|].
  vm_compute. reflexivity.
Defined.

(** ** What the stages leave (lines 267-307) *)

Lemma collapse_clean s : clean starts_with_three (collapse s).
Proof.
  induction s as [|c s IH]; cbn [collapse].
  - intros p t' Ht. symmetry in Ht. apply app_eq_nil in Ht as [_ ->]. reflexivity.
  - destruct (is_LF c && starts_with_two s) eqn:Ed; [exact IH|].
    apply clean_cons; [|exact IH].
    cbn [starts_with_three]. rewrite collapse_starts_with_two. exact Ed.
Qed.

Lemma collapse_without_LF s : without_LF (collapse s) = without_LF s.
Proof.
  unfold without_LF. induction s as [|c s IH]; [reflexivity|]. cbn [collapse].
  destruct (is_LF c && starts_with_two s) eqn:Ed.
  - apply andb_prop in Ed as [Ec _]. cbn [List.filter]. rewrite Ec. exact IH.
  - cbn [List.filter]. rewrite IH. reflexivity.
Qed.

Lemma collapse_sublist s : collapse s `sublist_of` s.
Proof.
  induction s as [|c s IH]; [constructor|]. cbn [collapse].
  destruct (is_LF c && starts_with_two s); [apply sublist_cons|apply sublist_skip]; exact IH.
Qed.

(** X13: [handleLineBreaks] cuts every run of three line feeds or more
    down to two and keeps the rest: its result is the content where a
    line feed that two more follow is dropped; no position of the result
    starts with three line feeds, and the characters other than line
    feeds are the same, in the same order. *)
Theorem X13_line_breaks_cut_to_two (content : string) :
  handleLineBreaks content = chars_str (collapse (str_chars content))
  /\ clean starts_with_three (str_chars (handleLineBreaks content))
  /\ without_LF (str_chars (handleLineBreaks content)) = without_LF (str_chars content)
  /\ str_chars (handleLineBreaks content) `sublist_of` str_chars content.
Proof.
  rewrite handleLineBreaks_collapse, str_chars_str.
  split; [reflexivity|]. split; [apply collapse_clean|].
  split; [apply collapse_without_LF|apply collapse_sublist].
Qed.

Lemma no_match_intro content re :
  simple (pattern re) ->
  (forall p t, str_chars content = p ++ t -> ~ has_prefix_in (lang (pattern re)) t) ->
  no_match re content.
Proof.
  intros Hsimple Hclean. unfold no_match.
  rewrite replace_matches_step. unfold exec. cbn [Nat.ltb Nat.leb skipn].
  rewrite search_None_intro; [reflexivity|].
  intros p t Ht.
  destruct (match_here (str_chars content) (flag_m re) (pattern re) t) as [[s' cs]|] eqn:E;
    [|reflexivity].
  exfalso. apply (Hclean p t Ht).
  destruct (match_here_sound _ _ _ _ _ _ Hsimple E) as (w & -> & Hl).
  exists w, s'. auto.
Qed.

(** After [handleCodeBlocks] no position of the content starts with an
    opening tag closed on its line, nor with a closing tag. *)
Lemma handleCodeBlocks_clean content :
  clean starts_highlight (str_chars (handleCodeBlocks content))
  /\ clean starts_endhighlight (str_chars (handleCodeBlocks content)).
Proof.
  unfold handleCodeBlocks.
  set (d1 := replace_all content highlightRegex "```").
  set (d2 := replace_all d1 endhighlightRegex "```").
  pose proof (replace_all_rewrites content highlightRegex "```"
                simple_highlight highlight_nonempty plain_fence) as Hrw1.
  pose proof (replace_all_rewrites d1 endhighlightRegex "```"
                simple_endhighlight endhighlight_nonempty plain_fence) as Hrw2.
  fold d1 in Hrw1. fold d2 in Hrw2.
  assert (Hc1 : clean starts_highlight (str_chars d1)).
  { eapply rewrites_makes_clean; [| | |exact has_prefix_highlight|exact Hrw1].
    - exact highlight_tag_like.
    - intros Y B [Hc Hs]. apply transfers_starts_highlight; assumption.
    - reflexivity. }
  split.
  - eapply rewrites_keeps_clean; [| | |exact Hrw2|exact Hc1].
    + exact endhighlight_tag_like.
    + intros Y B [Hc Hs]. apply transfers_starts_highlight; assumption.
    + reflexivity.
  - eapply rewrites_makes_clean; [| | |exact has_prefix_endhighlight|exact Hrw2].
    + exact endhighlight_tag_like.
    + intros Y B [Hc Hs]. apply transfers_starts_endhighlight; assumption.
    + reflexivity.
Qed.

(** X14: the result of [handleCodeBlocks] holds no match of either of
    its two expressions: no opening highlight tag that is closed on its
    line and no closing tag is left, also where a replacement brings the
    pieces of a tag together. *)
Theorem X14_no_highlight_tag_left (content : string) :
  no_match highlightRegex (handleCodeBlocks content)
  /\ no_match endhighlightRegex (handleCodeBlocks content).
Proof.
  destruct (handleCodeBlocks_clean content) as [Hc1 Hc2]. split.
  - apply no_match_intro; [exact simple_highlight|].
    intros p t Ht Hp. apply has_prefix_highlight in Hp.
    rewrite (Hc1 p t Ht) in Hp. discriminate.
  - apply no_match_intro; [exact simple_endhighlight|].
    intros p t Ht Hp. apply has_prefix_endhighlight in Hp.
    rewrite (Hc2 p t Ht) in Hp. discriminate.
Qed.

Lemma rewrites_removal L t out : rewrites L [] t out -> out `sublist_of` t.
Proof.
  induction 1 as [t Hnone|p w s' out Hw Hleft Hrw IH]; [reflexivity|].
  apply sublist_app; [reflexivity|]. cbn [app]. apply sublist_inserts_l. exact IH.
Qed.

Lemma plain_nil : plain [].
Proof. intros matched before after. reflexivity. Qed.

Lemma simple_siteUrl : simple (pattern siteUrlRegex).
Proof. cbn. repeat split; try discriminate; lia. Qed.

Lemma simple_liquidClass : simple (pattern liquidClassRegex).
Proof. cbn. repeat split; try discriminate; lia. Qed.

Lemma siteUrl_nonempty : ~ lang (pattern siteUrlRegex) [].
Proof.
  intros H. apply (lang_Seq_Lit_head "{" "{") in H as [w' H]. discriminate.
Qed.

Lemma liquidClass_nonempty : ~ lang (pattern liquidClassRegex) [].
Proof.
  intros H. apply (lang_Seq_Lit_head "{" ": ") in H as [w' H]. discriminate.
Qed.

(** X15: [handleSiteUrl] and [handleLiquidClasses] only take text away:
    the characters of their result are characters of the content, in the
    same order. *)
Theorem X15_removal_stages_only_remove (content : string) :
  str_chars (handleSiteUrl content) `sublist_of` str_chars content
  /\ str_chars (handleLiquidClasses content) `sublist_of` str_chars content.
Proof.
  split.
  - apply (rewrites_removal (lang (pattern siteUrlRegex))).
    exact (replace_all_rewrites content siteUrlRegex ""
             simple_siteUrl siteUrl_nonempty plain_nil).
  - apply (rewrites_removal (lang (pattern liquidClassRegex))).
    exact (replace_all_rewrites content liquidClassRegex ""
             simple_liquidClass liquidClass_nonempty plain_nil).
Qed.

(** ** One iteration (lines 445-492) *)


(** ** References that are not uploaded *)

Lemma filter_remote hostname images :
  Forall (remote hostname) images -> filterUploadableImages hostname images = inr [].
Proof.
  induction 1 as [|i images (s & h & -> & Hh & Hne & Hown) _ IH]; [reflexivity|].
  cbn [filterUploadableImages filter_step]. rewrite IH, Hh.
  destruct h as [|c h]; [contradiction|]. cbn [truthy negb orb].
  destruct (String.eqb_spec (String c h) "developmentseed.org"); [contradiction|reflexivity].
Qed.

(** X17: a content whose references all point to other sites goes
    through the image pass untouched: nothing is read, nothing is
    uploaded and the content is returned as it is. *)
Theorem X17_remote_images_left_alone (E : Env) (content : string) (w : World) :
  Forall (remote (url_parse_hostname E)) (extractImageUrls content) ->
  handlePostContentImages E content w = Ok content w.
Proof.
  intros H. unfold handlePostContentImages. rewrite bind_eq.
  rewrite (filter_remote _ _ H). reflexivity.
Qed.

Lemma X17_witness :
  let E := Sample.env [] [] (fun _ _ => None) in
  let content := "![logo](https://example.org/logo.png) <img src='http://cdn.test/a.png'>" in
  Forall (remote (url_parse_hostname E)) (extractImageUrls content)
  /\ handlePostContentImages E content (Sample.world []) = Ok content (Sample.world []).
Proof.
  intros E content.
  assert (H : Forall (remote (url_parse_hostname E)) (extractImageUrls content)).
  { assert (Hx : extractImageUrls content
                 = [JsString "https://example.org/logo.png"; JsString "http://cdn.test/a.png"])
      by (vm_compute; reflexivity).
    rewrite Hx. repeat constructor.
    - exists "https://example.org/logo.png", "example.org".
      split; [reflexivity|]. split; [vm_compute; reflexivity|]. split; discriminate.
    - exists "http://cdn.test/a.png", "cdn.test".
      split; [reflexivity|]. split; [vm_compute; reflexivity|]. split; discriminate. }
  split; [exact H|]. exact (X17_remote_images_left_alone E content (Sample.world []) H).
Defined.

(** ** Unpublished posts (lines 447-452) *)

Lemma process_file_unpublished E fr fc file w :
  holds_unpublished E (fs w) file ->
  process_file E fr fc file w = Ok tt (mkWorld (fs w) (trace w ++ [EvHandling file])).
Proof.
  intros (raw & post & Hraw & Hload & Hpub).
  unfold process_file. rewrite bind_eq. cbn [emit].
  rewrite bind_eq. unfold readFileSync at 1. cbn [fs]. rewrite Hraw.
  rewrite bind_eq, Hload, ret_eq. unfold is_unpublished. rewrite Hpub. reflexivity.
Qed.

Lemma for_each_unpublished E fr fc files w :
  Forall (holds_unpublished E (fs w)) files ->
  for_each files (process_file E fr fc) w
  = Ok tt (mkWorld (fs w) (trace w ++ map EvHandling files)).
Proof.
  revert w. induction files as [|file files IH]; intros w H.
  - cbn. rewrite app_nil_r. destruct w; reflexivity.
  - apply Forall_cons in H as [Hfile H]. cbn [for_each]. rewrite bind_eq.
    rewrite (process_file_unpublished E fr fc file w Hfile).
    rewrite IH by exact H. cbn [fs trace map]. rewrite <- app_assoc. reflexivity.
Qed.

(** X18: unpublished posts stay pending.  When the first five pending
    files of a live run all hold posts marked as unpublished, the run
    handles these files and nothing else, and returns leaving every file
    as it was, the completion ledger included: the next run finds the
    same pending files, and the files after them are not reached. *)
Theorem X18_unpublished_posts_stay_pending (E : Env) (w : World) :
  configured E -> is_dryrun E = false -> is_publication_query E = false ->
  Forall (holds_unpublished E (fs w))
    (take 5 (pendingFiles (glob_sync E "posts/blog-2018/*.*")
               (completedSet (fs w !! "upload-complete.csv")))) ->
  program E w
  = Ok tt (mkWorld (fs w)
             (trace w ++ map EvHandling
                (take 5 (pendingFiles (glob_sync E "posts/blog-2018/*.*")
                           (completedSet (fs w !! "upload-complete.csv")))))).
Proof.
  intros (H1 & H2 & H3 & H4 & H5) Hlive Hq Hall.
  unfold program. rewrite H1, H2, H3, H4. cbn [negb orb].
  unfold main. rewrite Hq, H5. cbn [negb].
  rewrite bind_eq. unfold ledger_files. rewrite Hlive, ret_eq. cbn [fst snd].
  rewrite bind_eq, pending_files by (rewrite Hlive; reflexivity).
  rewrite bind_eq, for_each_unpublished by exact Hall. reflexivity.
Qed.

Lemma X18_witness :
  let E := draft_env six_candidates in
  configured E
  /\ program E six_posts
     = Ok tt (mkWorld (fs six_posts) (map EvHandling (take 5 six_candidates))).
Proof.
  intros E.
  assert (Hc : configured E) by (repeat split; reflexivity).
  assert (Hp : take 5 (pendingFiles (glob_sync E "posts/blog-2018/*.*")
                         (completedSet (fs six_posts !! "upload-complete.csv")))
               = take 5 six_candidates) by (vm_compute; reflexivity).
  assert (Hall : Forall (holds_unpublished E (fs six_posts))
                   (take 5 (pendingFiles (glob_sync E "posts/blog-2018/*.*")
                              (completedSet (fs six_posts !! "upload-complete.csv"))))).
  { rewrite Hp. repeat constructor;
      (exists "Hello", (mkPost (JsString "A Draft") DateAbsent JsUndefined JsUndefined
                          (Some false) None "Hello");
       split; [vm_compute; reflexivity|split; reflexivity]). }
  split; [exact Hc|].
  rewrite (X18_unpublished_posts_stay_pending E six_posts Hc eq_refl eq_refl Hall), Hp.
  reflexivity.
Defined.

Lemma X3_witness :
  JsString "/img/a.png" ∈ fst (getMatches "See ![a](/img/a.png) and ![]()" mdImgRegex 0)
  /\ exists before url after,
       "See ![a](/img/a.png) and ![]()" = before +:+ "](" +:+ url +:+ ")" +:+ after
       /\ absent ")" url
       /\ JsString "/img/a.png" = or_undefined url.
Proof.
  assert (H : JsString "/img/a.png"
              ∈ fst (getMatches "See ![a](/img/a.png) and ![]()" mdImgRegex 0)).
  { assert (Hx : fst (getMatches "See ![a](/img/a.png) and ![]()" mdImgRegex 0)
                 = [JsString "/img/a.png"; JsUndefined]) by (vm_compute; reflexivity).
    rewrite Hx. apply elem_of_cons. left. reflexivity. }
  split; [exact H|].
  exact (X3_markdown_reference_shape "See ![a](/img/a.png) and ![]()" (JsString "/img/a.png") H).
Defined.

Lemma X4_witness :
  JsString EmptyString ∈ fst (getMatches "<p><img class='x' src=''></p>" htmlImgRegex 0)
  /\ exists before mid url after,
       one_line mid
       /\ (("<p><img class='x' src=''></p>"
            = before +:+ "<img" +:+ mid +:+ "src=" +:+ String DQ url +:+ String DQ after
            /\ absent DQ url /\ JsString EmptyString = or_undefined url)
           \/ ("<p><img class='x' src=''></p>"
               = before +:+ "<img" +:+ mid +:+ "src=" +:+ String SQ url +:+ String SQ after
               /\ absent SQ url /\ JsString EmptyString = JsString url)).
Proof.
  assert (H : JsString EmptyString
              ∈ fst (getMatches "<p><img class='x' src=''></p>" htmlImgRegex 0)).
  { vm_compute. apply elem_of_cons. left. reflexivity. }
  split; [exact H|].
  exact (X4_html_reference_shape "<p><img class='x' src=''></p>" (JsString EmptyString) H).
Defined.

(** ** References to the site itself (line 318) *)

Lemma at_bol_start input ml : at_bol input ml input = true.
Proof. unfold at_bol. rewrite Nat.sub_diag. reflexivity. Qed.

Lemma eqb_succ n : (n =? S n) = false.
Proof. apply Nat.eqb_neq. lia. Qed.

Lemma own_https p :
  match_here (str_chars "https://developmentseed.org" ++ p) false (pattern ownDomainRegex)
    (str_chars "https://developmentseed.org" ++ p) = Some (p, []).
Proof.
  unfold match_here. cbn [pattern ownDomainRegex Cat]. rewrite run_Seq.
  cbn [run]. rewrite at_bol_start. cbn. rewrite eqb_succ. reflexivity.
Qed.

Lemma own_http p :
  match_here (str_chars "http://developmentseed.org" ++ p) false (pattern ownDomainRegex)
    (str_chars "http://developmentseed.org" ++ p) = Some (p, []).
Proof.
  unfold match_here. cbn [pattern ownDomainRegex Cat]. rewrite run_Seq.
  cbn [run]. rewrite at_bol_start. cbn. reflexivity.
Qed.

Lemma str_chars_app a b : str_chars (a +:+ b) = str_chars a ++ str_chars b.
Proof.
  induction a as [|c a IH]; [reflexivity|].
  change (String c a +:+ b) with (String c (a +:+ b)). cbn. f_equal. exact IH.
Qed.

(** The replacement drops what the expression matches at the start of
    the text. *)
Lemma replace_first_prefix pre p :
  match_here (str_chars pre ++ str_chars p) false (pattern ownDomainRegex)
    (str_chars pre ++ str_chars p) = Some (str_chars p, []) ->
  replace_first (pre +:+ p) ownDomainRegex "" = p.
Proof.
  intros H. unfold replace_first, exec_first. rewrite str_chars_app.
  rewrite RegExpFacts.search_eq. cbn [flag_m ownDomainRegex]. rewrite H.
  rewrite Nat.sub_diag. cbn [replace_build index whole Nat.min Nat.leb].
  rewrite firstn_prefix. change (str_chars "") with (@nil ascii).
  cbn [GetSubstitution Nat.add Nat.sub firstn app]. rewrite app_nil_r.
  rewrite drop_app_length. apply chars_str_chars.
Qed.

(** The expression matches at the start of the text only. *)
Lemma own_domain_anchored input t :
  length t < length input ->
  match_here input false (pattern ownDomainRegex) t = None.
Proof.
  intros H. unfold match_here. cbn [pattern ownDomainRegex Cat]. rewrite run_Seq.
  cbn [run]. unfold at_bol.
  destruct (length input - length t) eqn:E; [lia|]. reflexivity.
Qed.

Lemma own_domain_needs_h input t :
  starts_with "h" t = false ->
  match_here input false (pattern ownDomainRegex) t = None.
Proof.
  intros H. unfold match_here. cbn [pattern ownDomainRegex Cat]. rewrite run_Seq.
  cbn [run]. destruct (at_bol input false t); [|reflexivity].
  destruct t as [|x t]; [reflexivity|]. cbn in H. cbn. rewrite H. reflexivity.
Qed.

Lemma replace_first_other p :
  starts_with "h" (str_chars p) = false -> replace_first p ownDomainRegex "" = p.
Proof.
  intros H. unfold replace_first, exec_first.
  rewrite search_None_intro; [reflexivity|].
  intros pre t Ht. cbn [flag_m ownDomainRegex].
  destruct pre as [|x pre].
  - cbn in Ht. subst t. apply own_domain_needs_h. exact H.
  - apply own_domain_anchored. rewrite Ht. cbn. rewrite length_app. lia.
Qed.

(** X19: a reference to the site's own domain is uploaded as the
    reference without the domain: [uploadImage] on the address of the
    site followed by a path, with http or with https, does what it does
    on the path alone (the same file is read, the same key is used and
    the same URL is returned), for a path that does not start with the
    letter h. *)
Theorem X19_own_domain_is_dropped (E : Env) (p : string) :
  starts_with "h" (str_chars p) = false ->
  uploadImage E ("https://developmentseed.org" +:+ p) = uploadImage E p
  /\ uploadImage E ("http://developmentseed.org" +:+ p) = uploadImage E p.
Proof.
  intros H. unfold uploadImage.
  rewrite (replace_first_prefix "https://developmentseed.org" p (own_https _)).
  rewrite (replace_first_prefix "http://developmentseed.org" p (own_http _)).
  rewrite (replace_first_other p H). split; reflexivity.
Qed.

Lemma X19_witness :
  starts_with "h" (str_chars "/assets/graphics/a.png") = false
  /\ uploadImage (Sample.env [] [] (fun _ _ => None))
       "https://developmentseed.org/assets/graphics/a.png"
     = uploadImage (Sample.env [] [] (fun _ _ => None)) "/assets/graphics/a.png".
Proof.
  split; [reflexivity|].
  exact (proj1 (X19_own_domain_is_dropped (Sample.env [] [] (fun _ _ => None))
                  "/assets/graphics/a.png" eq_refl)).
Defined.

(** ** Leftovers of an earlier dry run (lines 420-439) *)

(** X20: a dry run does not depend on what an earlier dry run may have
    left behind: two worlds that differ only by the content, or the
    presence, of the two disposable ledger files give the same run, with
    the same events, the same result and the same files at the end. *)
Theorem X20_dry_run_ignores_leftovers (E : Env) (w w' : World) :
  configured E -> is_dryrun E = true ->
  trace w = trace w' ->
  (forall path, path <> "dryrun-redirects.json" -> path <> "dryrun-upload-complete.csv" ->
                fs w !! path = fs w' !! path) ->
  program E w = program E w'.
Proof.
  intros (H1 & H2 & H3 & H4 & H5) Hdry Htr Hfs.
  unfold program. rewrite H1, H2, H3, H4. cbn [negb orb].
  unfold main. rewrite (dryrun_not_query E Hdry), H5. cbn [negb].
  rewrite !bind_eq, !(dry_ledger_files_eq E _ Hdry).
  assert (Hsame : forall path, path <> dry_redirects -> path <> dry_completed ->
                    content_of (fs w) path = content_of (fs w') path).
  { intros path Hr Hc. unfold content_of. rewrite (Hfs path Hr Hc). reflexivity. }
  rewrite (Hsame live_completed), (Hsame live_redirects), Htr by discriminate.
  replace (<[dry_completed:=content_of (fs w') live_completed]>
             (<[dry_redirects:=content_of (fs w') live_redirects]> (fs w)))
    with (<[dry_completed:=content_of (fs w') live_completed]>
            (<[dry_redirects:=content_of (fs w') live_redirects]> (fs w'))); [reflexivity|].
  apply map_eq. intros path.
  destruct (decide (path = dry_completed)) as [->|Hc]; [rewrite !lookup_insert_eq; reflexivity|].
  rewrite !(lookup_insert_ne _ dry_completed) by auto.
  destruct (decide (path = dry_redirects)) as [->|Hr]; [rewrite !lookup_insert_eq; reflexivity|].
  rewrite !(lookup_insert_ne _ dry_redirects) by auto.
  symmetry. apply Hfs; assumption.
Qed.

Lemma X20_witness :
  let E := Sample.env ["--dryrun"] six_candidates (fun _ _ => None) in
  let w' := mkWorld (<["dryrun-upload-complete.csv" := Sample.file "a" +:+ NL]> (fs six_posts))
              [] in
  configured E /\ is_dryrun E = true
  /\ program E six_posts = program E w'.
Proof.
  intros E w'.
  assert (Hc : configured E) by (repeat split; reflexivity).
  split; [exact Hc|]. split; [reflexivity|].
  apply (X20_dry_run_ignores_leftovers E six_posts w' Hc eq_refl eq_refl).
  intros path Hr Hd. cbn [fs w']. rewrite lookup_insert_ne by auto. reflexivity.
Defined.

(** ** The original URL of a post (lines 146-198) *)

Lemma simple_fileDate : simple fileDate.
Proof. cbn. repeat split; try discriminate; lia. Qed.

Lemma fileDateName_shape input t s' cs :
  match_here input false (pattern fileDateNameRegex) t = Some (s', cs) ->
  exists dt ti ext,
    t = dt ++ "-"%char :: ti ++ "."%char :: ext
    /\ s' = []
    /\ lang fileDate dt
    /\ forallb (fun x => negb (is_line_terminator x)) ti = true
    /\ ext <> [] /\ forallb (class_matches false [("a", "z")%char]) ext = true
    /\ cs = [(2, ti); (1, dt)].
Proof.
  unfold match_here. cbn [pattern fileDateNameRegex]. intros H.
  change (Cat (Group 1 ?d :: Chr ?a :: Group 2 ?g :: Chr ?b :: ?e :: Eol :: nil))
    with (Seq (Group 1 d) (Seq (Chr a) (Seq (Group 2 g) (Seq (Chr b) (Seq e Eol))))) in H.
  fold fileDate in H.
  rewrite run_Seq in H. cbn [run] in H. fold (run input false) in H.
  apply (run_sound input false fileDate simple_fileDate) in H as (dt & t1 & -> & Hdt & H).
  rewrite firstn_prefix in H.
  destruct t1 as [|x t1]; [discriminate|].
  destruct (Ascii.eqb_spec x "-") as [->|]; [|discriminate].
  apply (run_sound input false (Star Dot)) in H as (ti & t2 & -> & Hti & H);
    [|split; [discriminate|exact I]].
  destruct Hti as (P & [= <-] & Hti & _).
  rewrite firstn_prefix in H.
  destruct t2 as [|y t2]; [discriminate|].
  destruct (Ascii.eqb_spec y ".") as [->|]; [|discriminate].
  apply (run_sound input false (Plus (Class false [("a", "z")%char]))) in H
    as (ext & t3 & -> & Hext & H); [|split; [discriminate|exact I]].
  destruct Hext as (P & [= <-] & Hext & Hlen & _).
  destruct t3 as [|z t3]; [|discriminate]. cbn in H. injection H as <- <-.
  exists dt, ti, ext. rewrite app_nil_r.
  repeat split; auto. intros ->. cbn in Hlen. lia.
Qed.

Lemma file_match_shape file :
  match exec_first fileDateNameRegex (str_chars file) with
  | None => True
  | Some pieces =>
      exists dir dt ti ext,
        file = dir +:+ dt +:+ "-" +:+ ti +:+ "." +:+ ext
        /\ lang fileDate (str_chars dt) /\ one_line ti
        /\ ext <> EmptyString /\ lower_case ext
        /\ group pieces 1 = JsString dt /\ group pieces 2 = JsString ti
  end.
Proof.
  unfold exec_first.
  destruct (search _ _ _ _) as [mr|] eqn:Es; [|exact I].
  apply RegExpFacts.search_inv in Es as (p & t & w & s' & cs & Hs & Ht & Hm & ->).
  cbn [flag_m fileDateNameRegex] in Hm.
  apply fileDateName_shape in Hm as (dt & ti & ext & Ht' & -> & Hdt & Hti & Hne & Hext & ->).
  exists (chars_str p), (chars_str dt), (chars_str ti), (chars_str ext).
  unfold one_line, lower_case. rewrite !str_chars_str.
  repeat split; auto.
  - rewrite <- (chars_str_chars file), Hs, Ht'.
    rewrite !chars_str_app. cbn [chars_str string_of_list_ascii].
    rewrite !chars_str_app. reflexivity.
  - intros H. apply Hne. destruct ext; [reflexivity|discriminate].
Qed.

(** X21: the original URL of a post without permalink is made from the
    name of its file.  The name ends with a date (20 and two digits, a
    month and a day of one or two digits), a dash, a title without line
    break, a dot and an extension of lower-case letters; the URL is the
    address of the site, /blog/, the three parts of the date of the post
    and the title.  The date of the post is then defined, and the date
    that would be read from the file name is that of the text of the
    name. *)
Theorem X21_original_url_from_file_name (E : Env) (file : string) (post : Post)
    (originalUrl : string) :
  truthy (permalink post) = false ->
  getOriginalURL E file post = inr originalUrl ->
  exists dir dt ti ext d,
    file = dir +:+ dt +:+ "-" +:+ ti +:+ "." +:+ ext
    /\ lang fileDate (str_chars dt) /\ one_line ti
    /\ ext <> EmptyString /\ lower_case ext
    /\ getPostDate E file post = inr d
    /\ date_from_file E file = inr (Date_new E dt)
    /\ originalUrl
       = "https://developmentseed.org/blog/" +:+ join "/" (getDateParts d) +:+ "/" +:+ ti.
Proof.
  intros Hperm H. unfold getOriginalURL in H. rewrite Hperm in H.
  unfold date_from_file. unfold file_match in *.
  pose proof (file_match_shape file) as Hshape.
  destruct (exec_first fileDateNameRegex (str_chars file)) as [pieces|]; [|discriminate].
  destruct Hshape as (dir & dt & ti & ext & Hfile & Hdt & Hti & Hne & Hext & Hg1 & Hg2).
  destruct (getPostDate E file post) as [e|d] eqn:Hd; [discriminate|].
  injection H as <-.
  exists dir, dt, ti, ext, d. rewrite Hg1, Hg2. cbn [to_string].
  repeat split; auto.
Qed.

Lemma X21_witness :
  let E := Sample.env [] [] (fun _ _ => None) in
  let post := mkPost (JsString "A Post") DateAbsent JsUndefined JsUndefined None None "Hello" in
  let file := "posts/blog-2018/2018-01-02-my.first-post.md" in
  truthy (permalink post) = false
  /\ getOriginalURL E file post
     = inr "https://developmentseed.org/blog/2018/01/02/my.first-post"
  /\ exists dir dt ti ext d,
       file = dir +:+ dt +:+ "-" +:+ ti +:+ "." +:+ ext
       /\ lang fileDate (str_chars dt) /\ one_line ti
       /\ ext <> EmptyString /\ lower_case ext
       /\ getPostDate E file post = inr d
       /\ date_from_file E file = inr (Date_new E dt)
       /\ "https://developmentseed.org/blog/2018/01/02/my.first-post"
          = "https://developmentseed.org/blog/" +:+ join "/" (getDateParts d) +:+ "/" +:+ ti.
Proof.
  intros E post file.
  assert (H : getOriginalURL E file post
              = inr "https://developmentseed.org/blog/2018/01/02/my.first-post")
    by (vm_compute; reflexivity).
  split; [reflexivity|]. split; [exact H|].
  exact (X21_original_url_from_file_name E file post _ eq_refl H).
Defined.

(** X22: the month and the day of the date parts are always written
    with two characters: for a date whose month index is below 12 and
    whose day is between 1 and 31, [getDateParts] returns the year, the
    month number (the index plus one) and the day, the last two in
    decimal with a leading zero below ten. *)
Theorem X22_date_parts_are_padded (y mo da : nat) (iso : string) :
  mo < 12 -> 1 <= da <= 31 ->
  exists mm dd,
    getDateParts (ValidDate y mo da iso) = [pretty y; mm; dd]
    /\ String.length mm = 2 /\ String.length dd = 2
    /\ (mm = pretty (mo + 1) \/ mm = "0" +:+ pretty (mo + 1))
    /\ (dd = pretty da \/ dd = "0" +:+ pretty da).
Proof.
  intros Hmo [Hd1 Hd2]. exists (pad2 (mo + 1)), (pad2 da).
  split; [reflexivity|].
  assert (Hpad : forall n, 1 <= n <= 31 ->
            String.length (pad2 n) = 2
            /\ (pad2 n = pretty n \/ pad2 n = "0" +:+ pretty n)).
  { intros n [Hn1 Hn2]. unfold pad2.
    split; [|destruct (n <? 10); auto].
    do 32 (destruct n as [|n]; [try lia; vm_compute; reflexivity|]). lia. }
  destruct (Hpad (mo + 1) ltac:(lia)) as [H1 H2].
  destruct (Hpad da ltac:(lia)) as [H3 H4]. auto.
Qed.

Lemma X22_witness :
  8 < 12 /\ 1 <= 5 <= 31
  /\ exists mm dd,
       getDateParts (ValidDate 2018 8 5 "2018-09-05T00:00:00.000Z") = ["2018"; mm; dd]
       /\ String.length mm = 2 /\ String.length dd = 2
       /\ (mm = pretty (8 + 1) \/ mm = "0" +:+ pretty (8 + 1))
       /\ (dd = pretty 5 \/ dd = "0" +:+ pretty 5).
Proof.
  split; [lia|]. split; [lia|].
  exact (X22_date_parts_are_padded 2018 8 5 "2018-09-05T00:00:00.000Z"
           ltac:(lia) ltac:(lia)).
Defined.

Lemma invalid_date_from_file E file post :
  getPostDate E file post = inr InvalidDate ->
  exists u, getOriginalURL E file post = inr u.
Proof.
  intros H. unfold getOriginalURL.
  destruct (truthy (permalink post)); [eauto|].
  rewrite H.
  assert (Hfile : date_from_file E file = inr InvalidDate).
  { unfold getPostDate in H. destruct (date post) as [|d|s]; [exact H| |].
    - destruct (is_valid d) eqn:Hv; [|exact H]. injection H as ->. discriminate.
    - destruct (truthy (JsString s) && is_valid (Date_new E s)) eqn:Hv; [|exact H].
      injection H as H. rewrite H in Hv. rewrite andb_false_r in Hv. discriminate. }
  unfold date_from_file, file_match in *.
  destruct (exec_first fileDateNameRegex (str_chars file)); [eauto|discriminate].
Qed.

(** X23: a post whose date turns out invalid is not published.  The
    iteration goes through the image pass (in a live run objects may have
    been put in storage by then) and ends with an exception, a RangeError
    when the image pass went well; no publish request is sent and the
    files stay as they were. *)
Theorem X23_invalid_date_is_not_published (E : Env) (fr fc file raw : string)
    (post : Post) (w : World) :
  fs w !! file = Some raw ->
  safeLoadFront E raw = Some post ->
  is_unpublished post = false ->
  getPostDate E file post = inr InvalidDate ->
  exists e puts,
    process_file E fr fc file w
    = Thrown e (mkWorld (fs w) (trace w ++ EvHandling file :: puts))
    /\ only_puts puts /\ (is_dryrun E = true -> puts = [])
    /\ forall content w1,
         handlePostContentImages E (transform post)
           (mkWorld (fs w) (trace w ++ [EvHandling file])) = Ok content w1 ->
         e = RangeError.
Proof.
  intros Hfile Hload Hpub Hdate.
  destruct (invalid_date_from_file E file post Hdate) as [u Hu].
  unfold process_file. rewrite bind_eq. cbn [emit].
  rewrite bind_eq. unfold readFileSync at 1. cbn [fs]. rewrite Hfile.
  rewrite bind_eq, Hload, ret_eq, Hpub. rewrite bind_eq.
  set (w0 := mkWorld (fs w) (trace w ++ [EvHandling file])).
  destruct (quiet_handlePostContentImages E (transform post) w0)
    as (Hne & Hfs & puts & Htr & Hp & Hd).
  destruct (handlePostContentImages E (transform post) w0) as [content w1|code w1|e w1];
    cbn [final_world] in *; [| contradiction |].
  - rewrite bind_eq, Hu. cbn [lift]. rewrite bind_eq, Hdate. cbn [lift toISOString].
    exists RangeError, puts. destruct w1 as [files1 tr1]. cbn in Hfs, Htr. subst files1 tr1.
    rewrite <- app_assoc. repeat split; auto.
  - exists e, puts. destruct w1 as [files1 tr1]. cbn in Hfs, Htr. subst files1 tr1.
    rewrite <- app_assoc. repeat split; auto. intros content w1 H. discriminate H.
Qed.

Lemma X23_witness :
  let file := "posts/blog-2018/2018-13-45-late.md" in
  let post := mkPost (JsString "A Post") DateAbsent JsUndefined JsUndefined None None "Hello" in
  let w := Sample.world [(file, "Hello")] in
  getPostDate no_calendar_env file post = inr InvalidDate
  /\ exists e puts,
       process_file no_calendar_env "redirects.json" "upload-complete.csv" file w
       = Thrown e (mkWorld (fs w) (trace w ++ EvHandling file :: puts))
       /\ only_puts puts /\ (is_dryrun no_calendar_env = true -> puts = [])
       /\ forall content w1,
            handlePostContentImages no_calendar_env (transform post)
              (mkWorld (fs w) (trace w ++ [EvHandling file])) = Ok content w1 ->
            e = RangeError.
Proof.
  intros file post w.
  assert (H1 : fs w !! file = Some "Hello") by (vm_compute; reflexivity).
  assert (H4 : getPostDate no_calendar_env file post = inr InvalidDate)
    by (vm_compute; reflexivity).
  split; [exact H4|].
  exact (X23_invalid_date_is_not_published no_calendar_env "redirects.json"
           "upload-complete.csv" file "Hello" post w H1 eq_refl eq_refl H4).
Defined.

(** ** Several HTML references on a line (line 11) *)

Section StarGreedy.

Variable body : chars -> captures -> cont -> option result.
Variable P : ascii -> bool.
Hypothesis Hbody :
  forall s cs k,
    body s cs k = match s with
                  | x :: s' => if P x then k s' cs else None
                  | [] => None
                  end.

(** A starred one-character atom takes the longest stretch after which
    the rest of the expression matches. *)
Lemma star_greedy k fuel s cs z :
  length s <= fuel ->
  rep_loop body [] k fuel 0 None s cs = Some z ->
  exists w s',
    s = w ++ s' /\ forallb P w = true /\ k s' cs = Some z
    /\ forall w1 s2, s' = w1 ++ s2 -> w1 <> [] -> forallb P w1 = true -> k s2 cs = None.
Proof using Hbody.
  revert s. induction fuel as [|fuel IH]; intros s Hf H.
  - destruct s; [|cbn in Hf; lia]. cbn in H. exists [], [].
    repeat split; auto. intros w1 s2 Hs Hne. symmetry in Hs.
    apply app_eq_nil in Hs as [-> _]. contradiction.
  - cbn [rep_loop max_is_zero] in H. rewrite cap_clear_nil, Hbody in H.
    cbn [Nat.eqb andb] in H.
    destruct s as [|x s].
    { exists [], []. repeat split; auto. intros w1 s2 Hs Hne. symmetry in Hs.
      apply app_eq_nil in Hs as [-> _]. contradiction. }
    destruct (P x) eqn:Ex.
    + replace (length s =? length (x :: s)) with false in H
        by (symmetry; apply Nat.eqb_neq; simpl; lia).
      cbn [pred dec_max] in H.
      destruct (rep_loop body [] k fuel 0 None s cs) as [z'|] eqn:Erec.
      * injection H as ->. apply IH in Erec as (w & s' & -> & Hall & Hk & Hmax);
          [|cbn in Hf; lia].
        exists (x :: w), s'. cbn [app forallb]. rewrite Ex, Hall. repeat split; auto.
      * exists [], (x :: s). repeat split; auto.
        intros w1 s2 Hs Hne Hall. destruct w1 as [|y w1]; [contradiction|].
        injection Hs as <- ->. cbn [forallb] in Hall. apply andb_prop in Hall as [_ Hall].
        destruct (k s2 cs) eqn:Ek; [|reflexivity]. exfalso.
        apply (rep_atom_complete body P Hbody k fuel 0 None w1 s2 cs);
          [cbn in Hf; cbn; lia|exact Hall|lia|exact I|congruence|exact Erec].
    + exists [], (x :: s). repeat split; auto.
      intros w1 s2 Hs Hne Hall. destruct w1 as [|y w1]; [contradiction|].
      injection Hs as <- ->. cbn [forallb] in Hall. rewrite Ex in Hall. discriminate.
Qed.

End StarGreedy.

Lemma html_match_greedy input t s' cs :
  match_here input true (pattern htmlImgRegex) t = Some (s', cs) ->
  exists mid p,
    t = str_chars "<img" ++ mid ++ p ++ s'
    /\ forallb not_terminator mid = true
    /\ match_here input true htmlImgTail (p ++ s') = Some (s', cs)
    /\ forall w1 s2, p ++ s' = w1 ++ s2 -> w1 <> [] -> forallb not_terminator w1 = true ->
                     match_here input true htmlImgTail s2 = None.
Proof.
  unfold match_here. cbn [pattern htmlImgRegex]. intros H.
  change (Cat (Lit "<img" :: Star Dot :: Lit "src=" :: ?a :: nil))
    with (Seq (Lit "<img") (Seq (Star Dot) (Seq (Lit "src=") a))) in H.
  fold htmlImgTail in H.
  rewrite run_Seq in H.
  apply (run_sound input true (Lit "<img")) in H as (w1 & t1 & -> & Hl1 & H);
    [|repeat split].
  apply lang_Lit in Hl1 as ->.
  rewrite run_Seq in H. cbn [run Star groups_of] in H. fold (run input true) in H.
  apply (star_greedy (run input true Dot) not_terminator) in H
    as (mid & rest & -> & Hmid & Hk & Hmax); [| |cbn; lia].
  - pose proof Hk as Hsuf. apply RegExpFacts.run_suffix in Hsuf as (s1 & cs1 & p & -> & Hs1).
    injection Hs1 as -> ->.
    exists mid, p. repeat split; auto.
  - intros [|x s] cs0 k; [reflexivity|]. cbn. unfold not_terminator.
    destruct (is_line_terminator x); reflexivity.
Qed.

Lemma replace_matches_ordered str re li :
  Forall (fun m => li <= index m) (replace_matches str re li)
  /\ StronglySorted (fun m1 m2 => endIndex m1 <= index m2) (replace_matches str re li).
Proof.
  funelim (replace_matches str re li); [|split; constructor].
  destruct H as [Hall Hs].
  pose proof (RegExpFacts.exec_bounds _ _ _ _ _ e) as (H1 & H2 & H3 & H4).
  split.
  - constructor; [exact H1|].
    eapply Forall_impl; [exact Hall|]. intros m Hm. simpl in Hm.
    destruct (whole r); simpl in *; lia.
  - constructor; [exact Hs|].
    eapply Forall_impl; [exact Hall|]. intros m Hm. simpl in Hm.
    destruct (whole r); simpl in *; lia.
Qed.

Lemma forallb_false {A} (f : A -> bool) l :
  forallb f l = false -> exists x, x ∈ l /\ f x = false.
Proof.
  induction l as [|x l IH]; [discriminate|]. cbn.
  destruct (f x) eqn:Ex.
  - intros H. destruct (IH H) as (y & Hy & Hf). exists y. split; [right; exact Hy|exact Hf].
  - intros _. exists x. split; [left|exact Ex].
Qed.

Lemma forallb_elem {A} (f : A -> bool) l x : forallb f l = true -> x ∈ l -> f x = true.
Proof.
  intros H Hx. rewrite forallb_forall in H. apply H. apply list_elem_of_In. exact Hx.
Qed.

(** Between the starts of two matches of the HTML expression, the second
    of which starts where the first one has ended or later, the text
    holds a line terminator. *)
Lemma html_matches_apart str m1 m2 :
  is_match_of htmlImgRegex str m1 -> is_match_of htmlImgRegex str m2 ->
  endIndex m1 <= index m2 ->
  line_break_between str (index m1) (index m2).
Proof.
  unfold is_match_of. cbn [flag_m]. intros H1 H2 Hle.
  apply html_match_greedy in H1 as (mid & p & Ht1 & Hmid & _ & Hmax).
  apply html_match_greedy in H2 as (mid2 & p2 & Ht2 & Hmid2 & Hk2 & _).
  set (i1 := index m1) in *. set (e1 := endIndex m1) in *.
  set (i2 := index m2) in *. set (e2 := endIndex m2) in *.
  assert (Hi2 : i2 < length str).
  { destruct (Nat.lt_ge_cases i2 (length str)) as [Hlt|Hge]; [exact Hlt|].
    rewrite (drop_ge str i2) in Ht2 by exact Hge. discriminate. }
  assert (Hgap : drop e1 str = take (i2 - e1) (drop e1 str) ++ drop i2 str).
  { rewrite <- (take_drop (i2 - e1) (drop e1 str)) at 1. rewrite drop_drop.
    replace (e1 + (i2 - e1)) with i2 by lia. reflexivity. }
  set (g2 := take (i2 - e1) (drop e1 str)) in *.
  assert (Hbreak : forallb not_terminator (p ++ g2 ++ str_chars "<img" ++ mid2) = false).
  { destruct (forallb not_terminator (p ++ g2 ++ str_chars "<img" ++ mid2)) eqn:Hall;
      [|reflexivity].
    exfalso.
    assert (Hnone : match_here str true htmlImgTail (p2 ++ drop e2 str) = None).
    { apply (Hmax (p ++ g2 ++ str_chars "<img" ++ mid2)); [| |exact Hall].
      - rewrite Hgap, Ht2. rewrite <- !app_assoc. reflexivity.
      - intros Hnil. apply (f_equal length) in Hnil. rewrite !length_app in Hnil.
        cbn in Hnil. lia. }
    rewrite Hnone in Hk2. discriminate. }
  apply forallb_false in Hbreak as (c & Hc & Hterm).
  assert (Hc' : c ∈ p ++ g2).
  { rewrite app_assoc in Hc. apply elem_of_app in Hc as [Hc|Hc]; [exact Hc|]. exfalso.
    apply elem_of_app in Hc as [Hc|Hc].
    - pose proof (forallb_elem not_terminator (str_chars "<img") c eq_refl Hc). congruence.
    - pose proof (forallb_elem not_terminator mid2 c Hmid2 Hc). congruence. }
  assert (Hpre : drop i1 str = (str_chars "<img" ++ mid ++ p ++ g2) ++ drop i2 str).
  { rewrite Ht1, Hgap. rewrite <- !app_assoc. reflexivity. }
  assert (Hin : c ∈ str_chars "<img" ++ mid ++ p ++ g2).
  { apply elem_of_app. right. apply elem_of_app. right. exact Hc'. }
  apply list_elem_of_lookup in Hin as [o Ho].
  pose proof (lookup_lt_Some _ _ _ Ho) as Hlen.
  assert (Hlens : length (drop i1 str)
                  = length (str_chars "<img" ++ mid ++ p ++ g2) + length (drop i2 str))
    by (rewrite Hpre, length_app; reflexivity).
  rewrite !length_drop in Hlens.
  exists (i1 + o), c. split; [lia|]. split.
  - rewrite <- lookup_drop, Hpre. rewrite lookup_app_l by exact Hlen. exact Ho.
  - unfold not_terminator in Hterm. destruct (is_line_terminator c); [reflexivity|discriminate].
Qed.

(** X24: no two HTML references come from the same line: between the
    positions where any two matches of the HTML expression start, the
    content holds a line break.  Of several img tags on one line, one
    reference is returned. *)
Theorem X24_one_html_reference_per_line (content : string) :
  StronglySorted (line_break_between (str_chars content))
    (map fst (located content htmlImgRegex)).
Proof.
  unfold located. rewrite map_map. cbn [fst].
  pose proof (replace_matches_are_matches (str_chars content) htmlImgRegex 0) as Hall.
  destruct (replace_matches_ordered (str_chars content) htmlImgRegex 0) as [_ Hs].
  induction Hs as [|m ms Hs IH Hm]; [constructor|].
  apply Forall_cons in Hall as [Hm1 Hall]. cbn [map].
  constructor; [apply IH; exact Hall|].
  apply Forall_map. rewrite Forall_forall in *. intros m2 Hin.
  apply html_matches_apart; auto.
Qed.

(** Two tags on one line: the match runs from the first tag to the last
    src attribute of the line. *)
Example two_images_on_a_line :
  extractImageUrls "<img src='a.png'> <img src='b.png'>" = [JsString "b.png"].
Proof. vm_compute. reflexivity. Qed.

(** ** The uploads of a post (lines 211-222 and 317-334) *)

Lemma uploadImage_live E img w newURL w' :
  is_dryrun E = false ->
  uploadImage E img w = Ok newURL w' ->
  exists body,
    fs w !! image_path E img = Some body
    /\ w' = mkWorld (fs w)
              (trace w ++ [EvS3Put (mkS3Params body (to_string (AWS_S3_BUCKET E))
                                      (image_key img))]).
Proof.
  intros Hlive. unfold uploadImage. rewrite Hlive. fold (image_key img).
  rewrite bind_eq. unfold readFileSync. fold (image_path E img).
  destruct (fs w !! image_path E img) as [body|]; [|discriminate].
  rewrite bind_eq. unfold putS3Object. rewrite bind_eq. cbn [get_trace].
  rewrite bind_eq. cbn [emit]. destruct (s3_putObject E (trace w) _); [|discriminate].
  rewrite !ret_eq. intros H. apply Ok_inj in H as [_ <-]. eauto.
Qed.

Lemma upload_and_replace_live E imgs content w content' w' :
  is_dryrun E = false ->
  upload_and_replace E imgs content w = Ok content' w' ->
  fs w' = fs w
  /\ exists puts,
       trace w' = trace w ++ map EvS3Put puts
       /\ map Key puts = map (fun img => image_key (to_string img)) imgs
       /\ map (fun p => Some (Body p))  puts
          = map (fun img => fs w !! image_path E (to_string img)) imgs
       /\ Forall (fun p => Bucket p = to_string (AWS_S3_BUCKET E)) puts.
Proof.
  intros Hlive. revert content w.
  induction imgs as [|img imgs IH]; intros content w H.
  - cbn in H. apply Ok_inj in H as [_ <-]. split; [reflexivity|].
    exists []. rewrite app_nil_r. repeat split; constructor.
  - cbn [upload_and_replace] in H. rewrite bind_eq in H.
    destruct (uploadImage E (to_string img) w) as [newURL w1| |] eqn:Hup; [|discriminate..].
    apply (uploadImage_live E _ _ _ _ Hlive) in Hup as (body & Hbody & ->).
    apply IH in H as (Hfs & puts & Htr & Hkeys & Hbodies & Hbuckets).
    cbn [fs trace] in *. split; [exact Hfs|].
    exists (mkS3Params body (to_string (AWS_S3_BUCKET E)) (image_key (to_string img)) :: puts).
    cbn [map Key Body]. rewrite Htr, <- app_assoc, Hkeys, Hbodies, Hbody.
    repeat split. constructor; [reflexivity|exact Hbuckets].
Qed.

(** X25: when the image pass of a live run goes well, it has stored one
    object per reference to upload, in the order of the references and
    with their repetitions: the key of each object is images/ and the base
    name of the reference, its body is the content of the file of the
    reference, its bucket is the configured one; the files are left as
    they were. *)
Theorem X25_one_object_per_reference (E : Env) (content content' : string)
    (imgsToUpload : list JsVal) (w w' : World) :
  is_dryrun E = false ->
  filterUploadableImages (url_parse_hostname E) (extractImageUrls content) = inr imgsToUpload ->
  handlePostContentImages E content w = Ok content' w' ->
  fs w' = fs w
  /\ exists puts,
       trace w' = trace w ++ map EvS3Put puts
       /\ map Key puts = map (fun img => image_key (to_string img)) imgsToUpload
       /\ map (fun p => Some (Body p)) puts
          = map (fun img => fs w !! image_path E (to_string img)) imgsToUpload
       /\ Forall (fun p => Bucket p = to_string (AWS_S3_BUCKET E)) puts.
Proof.
  intros Hlive Hfilter H. unfold handlePostContentImages in H.
  rewrite bind_eq, Hfilter in H. cbn [lift] in H.
  exact (upload_and_replace_live E imgsToUpload content w content' w' Hlive H).
Qed.

Lemma X25_witness :
  let E := Sample.env [] [] (fun _ _ => None) in
  let content := "![a](/img/a.png) ![b](http://developmentseed.org/img/b.png) ![a](/img/a.png)" in
  let w := Sample.world [("posts_images/img/a.png", "AAA"); ("posts_images/img/b.png", "BBB")] in
  is_dryrun E = false
  /\ exists content' w',
       handlePostContentImages E content w = Ok content' w'
       /\ fs w' = fs w
       /\ exists puts,
            trace w' = trace w ++ map EvS3Put puts
            /\ map Key puts = ["images/a.png"; "images/b.png"; "images/a.png"]
            /\ map (fun p => Some (Body p)) puts = [Some "AAA"; Some "BBB"; Some "AAA"]
            /\ Forall (fun p => Bucket p = to_string (AWS_S3_BUCKET E)) puts.
Proof.
  intros E content w. split; [reflexivity|].
  destruct (handlePostContentImages E content w) as [content' w'| |] eqn:Hrun;
    [|vm_compute in Hrun; discriminate..].
  exists content', w'. split; [reflexivity|].
  exact (X25_one_object_per_reference E content content'
           [JsString "/img/a.png"; JsString "http://developmentseed.org/img/b.png";
            JsString "/img/a.png"] w w' eq_refl ltac:(vm_compute; reflexivity) Hrun).
Defined.

(** ** The command line (lines 408 and 423) *)

Section OtherArguments.

Variable E : Env.
Variables args args' : list string.
Hypothesis Hlive : is_dryrun (with_argv E args) = false.
Hypothesis Hlive' : is_dryrun (with_argv E args') = false.

Lemma uploadImage_args img w :
  uploadImage (with_argv E args) img w = uploadImage (with_argv E args') img w.
Proof using Hlive Hlive'. unfold uploadImage. rewrite Hlive, Hlive'. reflexivity. Qed.

Lemma uploadPost_args post w :
  uploadPost (with_argv E args) post w = uploadPost (with_argv E args') post w.
Proof using Hlive Hlive'. unfold uploadPost. rewrite Hlive, Hlive'. reflexivity. Qed.

Lemma upload_and_replace_args imgs content w :
  upload_and_replace (with_argv E args) imgs content w
  = upload_and_replace (with_argv E args') imgs content w.
Proof using Hlive Hlive'.
  revert content w. induction imgs as [|img imgs IH]; intros content w;
    cbn [upload_and_replace]; [reflexivity|].
  rewrite !bind_eq, uploadImage_args.
  destruct (uploadImage (with_argv E args') (to_string img) w); [apply IH|reflexivity..].
Qed.

Lemma process_file_args fr fc file w :
  process_file (with_argv E args) fr fc file w = process_file (with_argv E args') fr fc file w.
Proof using Hlive Hlive'.
  unfold process_file. apply bind_ext. intros _ w0.
  apply bind_ext. intros raw w1.
  change (safeLoadFront (with_argv E args) raw) with (safeLoadFront E raw).
  change (safeLoadFront (with_argv E args') raw) with (safeLoadFront E raw).
  apply bind_ext. intros post w2. destruct (is_unpublished post); [reflexivity|].
  rewrite !bind_eq. unfold handlePostContentImages.
  rewrite !bind_eq. cbn [url_parse_hostname with_argv].
  destruct (lift _ w2) as [imgs w3| |]; [|reflexivity..].
  rewrite upload_and_replace_args.
  destruct (upload_and_replace (with_argv E args') imgs (transform post) w3)
    as [content w4| |]; [|reflexivity..].
  change (getOriginalURL (with_argv E args) file post) with (getOriginalURL E file post).
  change (getOriginalURL (with_argv E args') file post) with (getOriginalURL E file post).
  apply bind_ext. intros originalUrl w5.
  change (getPostDate (with_argv E args) file post) with (getPostDate E file post).
  change (getPostDate (with_argv E args') file post) with (getPostDate E file post).
  apply bind_ext. intros postDate w6. apply bind_ext. intros published_at w7.
  rewrite !bind_eq, uploadPost_args.
  destruct (uploadPost (with_argv E args') _ w7) as [[res|] w8| |]; reflexivity.
Qed.

Lemma for_each_args fr fc files w :
  for_each files (process_file (with_argv E args) fr fc) w
  = for_each files (process_file (with_argv E args') fr fc) w.
Proof using Hlive Hlive'.
  revert w. induction files as [|file files IH]; intros w; cbn [for_each]; [reflexivity|].
  rewrite !bind_eq, process_file_args.
  destruct (process_file (with_argv E args') fr fc file w); [apply IH|reflexivity..].
Qed.

End OtherArguments.

(** X26: only two command lines change what the script does: --dryrun
    as first argument, and -p followed by a name.  With any other
    arguments (a misspelt flag, or -p without a name) the run is the live
    migration, exactly as without arguments. *)
Theorem X26_other_arguments_run_live (E : Env) (args : list string) (w : World) :
  is_dryrun (with_argv E args) = false ->
  is_publication_query (with_argv E args) = false ->
  program (with_argv E args) w = program (with_argv E []) w.
Proof.
  intros Hlive Hq.
  assert (Hlive' : is_dryrun (with_argv E []) = false) by reflexivity.
  unfold program. cbn [MEDIUM_TOKEN AWS_ACCESS_KEY_ID AWS_SECRET_ACCESS_KEY AWS_S3_BUCKET
                       with_argv].
  destruct (negb (truthy (MEDIUM_TOKEN E))); [reflexivity|].
  destruct (_ || _); [reflexivity|].
  destruct (negb (truthy (AWS_S3_BUCKET E))); [reflexivity|].
  unfold main. rewrite Hq. change (is_publication_query (with_argv E [])) with false.
  cbn [MEDIUM_PUB_ID with_argv].
  destruct (negb (truthy (MEDIUM_PUB_ID E))); [reflexivity|].
  unfold ledger_files. rewrite Hlive, Hlive'. rewrite !bind_eq, !ret_eq. cbn [fst snd].
  rewrite !bind_eq. unfold getPostsFilesToProcess. rewrite Hlive, Hlive'. cbn [andb].
  rewrite !bind_eq. cbn [try_readFileSync]. rewrite !ret_eq.
  cbn [glob_sync with_argv]. rewrite !bind_eq.
  rewrite (for_each_args E args [] Hlive Hlive'). reflexivity.
Qed.

Lemma X26_witness :
  let E := Sample.env [] six_candidates (fun _ _ => Sample.ok_post) in
  is_dryrun (with_argv E ["--dry-run"]) = false
  /\ is_publication_query (with_argv E ["-p"]) = false
  /\ program (with_argv E ["--dry-run"]) six_posts = program (with_argv E []) six_posts
  /\ program (with_argv E ["-p"]) six_posts = program (with_argv E []) six_posts.
Proof.
  intros E. split; [reflexivity|]. split; [reflexivity|]. split.
  - exact (X26_other_arguments_run_live E ["--dry-run"] six_posts eq_refl eq_refl).
  - exact (X26_other_arguments_run_live E ["-p"] six_posts eq_refl eq_refl).
Defined.

(** ** A post without title (lines 344-363) *)

(** X27: a dry run does not rehearse a post without title: where the
    live run sends the post as it is, the dry run, which makes up a URL
    from the title, ends the iteration with an exception; nothing is
    recorded for the post and no event but the handling of the file is
    added. *)
Theorem X27_untitled_post_fails_dry_run (E : Env) (fr fc file raw : string)
    (post : Post) (w : World) :
  is_dryrun E = true ->
  fs w !! file = Some raw ->
  safeLoadFront E raw = Some post ->
  is_unpublished post = false ->
  title post = JsUndefined ->
  exists e,
    process_file E fr fc file w = Thrown e (mkWorld (fs w) (trace w ++ [EvHandling file])).
Proof.
  intros Hdry Hfile Hload Hpub Htitle.
  unfold process_file. rewrite bind_eq. cbn [emit].
  rewrite bind_eq. unfold readFileSync at 1. cbn [fs]. rewrite Hfile.
  rewrite bind_eq, Hload, ret_eq, Hpub. rewrite bind_eq.
  set (w0 := mkWorld (fs w) (trace w ++ [EvHandling file])).
  destruct (quiet_handlePostContentImages E (transform post) w0)
    as (Hne & Hfs & puts & Htr & Hp & Hd).
  rewrite (Hd Hdry), app_nil_r in Htr.
  assert (Hw : final_world (handlePostContentImages E (transform post) w0) = w0).
  { destruct (final_world _) as [files1 tr1]. cbn in Hfs, Htr. subst. reflexivity. }
  destruct (handlePostContentImages E (transform post) w0) as [content w1|code w1|e w1];
    cbn [final_world] in Hw; subst w1; [| contradiction | eauto].
  rewrite bind_eq. destruct (getOriginalURL E file post) as [e|originalUrl]; [eauto|].
  cbn [lift]. rewrite bind_eq. destruct (getPostDate E file post) as [e|d]; [eauto|].
  cbn [lift]. rewrite bind_eq. destruct (toISOString d) as [e|iso]; [eauto|].
  cbn [lift]. rewrite bind_eq. unfold uploadPost. rewrite Hdry. cbn [mp_title].
  rewrite Htitle. eauto.
Qed.

Lemma X27_witness :
  let E' := mkEnv ["--dryrun"] (JsString "token") (JsString "key") (JsString "secret")
              (JsString "bucket") (JsString "pub") Sample.hostname (fun base rel => base +:+ rel)
              (fun _ => [])
              (fun raw => Some (mkPost JsUndefined DateAbsent JsUndefined JsUndefined None None
                                  raw))
              (fun _ => Sample.a_date) Sample.quote (fun img => img) (fun _ _ => true)
              (fun _ => None) (fun _ _ => None) (fun _ _ => Sample.ok_post) in
  let w := Sample.world [(Sample.file "a", "Hello")] in
  is_dryrun E' = true
  /\ exists e,
       process_file E' "dryrun-redirects.json" "dryrun-upload-complete.csv" (Sample.file "a") w
       = Thrown e (mkWorld (fs w) (trace w ++ [EvHandling (Sample.file "a")])).
Proof.
  intros E' w. split; [reflexivity|].
  apply (X27_untitled_post_fails_dry_run E' "dryrun-redirects.json"
           "dryrun-upload-complete.csv" (Sample.file "a") "Hello"
           (mkPost JsUndefined DateAbsent JsUndefined JsUndefined None None "Hello") w);
    reflexivity.
Defined.
